(** * Kids Sudoku generator: grid synthesis and balanced cell removal

    A shallow embedding of [src/utils/sudokuGenerator.ts] (and of the
    box-shape helper of [src/utils/printableGenerator.ts]) together with
    the properties stated for them.

    Conventions of the embedding.
    - A JavaScript [number] that is used as an index, a digit or a counter
      is a [nat]; the two places where the source computes with fractions
      (the fill percentages and the 1.5 weight of the cell priority) use
      binary64 floats, as the source does.
    - [Math.random] is an arbitrary infinite sequence of draws, threaded
      through every function that consumes randomness.
    - [throw new Error(...)] is a [Throw] result; the two messages of the
      source are the two constructors of [Error]. *)

From Stdlib Require Import ZArith PrimFloat FloatOps SpecFloat Uint63.
From stdpp Require Import base tactics option list sorting gmap sets.

Set Warnings "-inexact-float".
Set Warnings "-notation-incompatible-prefix".
Set Warnings "-clear-no-such-hyp".

Local Open Scope nat_scope.

(** ** Randomness *)

(** The pseudo-random source: [draws] is the whole future of the generator,
    [cursor] the number of calls to [Math.random] made so far. *)
Record Rand := mkRand { draws : nat → nat; cursor : nat }.

(** [Math.floor(Math.random() * k)]: an integer [j] with [0 <= j < k]
    (and [0] when [k = 0]).  Every sequence of in-range outcomes is
    produced by some [draws]. *)
Definition randomBelow (k : nat) (rnd : Rand) : nat * Rand :=
  (match k with 0 => 0 | S _ => draws rnd (cursor rnd) `mod` k end,
   mkRand (draws rnd) (S (cursor rnd))).

(** A source that replays the given outcomes, then yields [0] forever. *)
Definition replay (outcomes : list nat) : Rand :=
  mkRand (λ i, default 0 (outcomes !! i)) 0.

(** ** Errors *)

Inductive Error :=
| UnsupportedSize    (* Error('Unsupported Sudoku size ...') *)
| GenerationFailure. (* Error('Failed to generate a valid Sudoku grid ...') *)

Inductive Result (A : Type) :=
| Ok (a : A)
| Throw (e : Error).
Arguments Ok {A} a.
Arguments Throw {A} e.

(** ** Grid model *)

Record BoxDimensions := mkBox { rows : nat; cols : nat }.

(** [Grid = number[][]], by value. *)
Abbreviation Grid := (list (list nat)).

(** [grid[r][c]]; [None] is JavaScript's [undefined]. *)
Definition cell (g : Grid) (r c : nat) : option nat := g !! r ≫= (.!! c).

(** [grid[r][c] = v] for a cell inside the grid, which every write of the
    source is: the cells come from loops below [size] and from the boxes of
    the grid.  (Outside the grid nothing is written; see [cell_setCell].) *)
Definition setCell (g : Grid) (r c v : nat) : Grid := alter (<[c := v]>) r g.

Definition VALID_SIZES : list nat := [4; 6; 9].

Definition isValidSize (size : nat) : bool :=
  existsb (λ validSize, validSize =? size) VALID_SIZES.

Definition assertValidSize (size : nat) : Result unit :=
  if isValidSize size then Ok tt else Throw UnsupportedSize.

(** [getDigits]: the ascending digits [1..size] (the value held by the
    cache; the cache itself is modelled in [Module Store]). *)
Definition getDigits (size : nat) : list nat := (λ i, i + 1) <$> seq 0 size.

Definition getBoxDimensions (size : nat) : Result BoxDimensions :=
  if size =? 9 then Ok (mkBox 3 3)
  else if size =? 6 then Ok (mkBox 2 3)
  else if size =? 4 then Ok (mkBox 2 2)
  else Throw UnsupportedSize.

(** ** Fisher-Yates shuffle *)

(** [[arr[i], arr[j]] = [arr[j], arr[i]]]. *)
Definition swap {A} (arr : list A) (i j : nat) : list A :=
  match arr !! i, arr !! j with
  | Some x, Some y => <[j := x]> (<[i := y]> arr)
  | _, _ => arr
  end.

(** The loop [for (let i = arr.length - 1; i > 0; i--)], entered with the
    loop variable equal to [i]. *)
Fixpoint shuffleLoop {A} (i : nat) (arr : list A) (rnd : Rand) : list A * Rand :=
  match i with
  | 0 => (arr, rnd)
  | S i' =>
      let '(j, rnd) := randomBelow (i + 1) rnd in
      shuffleLoop i' (swap arr i j) rnd
  end.

Definition shuffleArray {A} (array : list A) (rnd : Rand) : list A * Rand :=
  shuffleLoop (length array - 1) array rnd.

(** ** Validity oracle *)

Definition isValid (g : Grid) (row col num size : nat) (boxDims : BoxDimensions) : bool :=
  (* Check row *)
  forallb (λ j, negb (bool_decide (cell g row j = Some num))) (seq 0 size)
  (* Check column *)
  && forallb (λ i, negb (bool_decide (cell g i col = Some num))) (seq 0 size)
  (* Check box *)
  && let boxRow := row / rows boxDims * rows boxDims in
     let boxCol := col / cols boxDims * cols boxDims in
     forallb (λ i,
       forallb (λ j, negb (bool_decide (cell g i j = Some num)))
               (seq boxCol (cols boxDims)))
       (seq boxRow (rows boxDims)).

Definition getCandidates (g : Grid) (row col size : nat) (boxDims : BoxDimensions)
    (digits : list nat) : list nat :=
  filter (λ num, isValid g row col num size boxDims = true) digits.

(** ** Minimum-remaining-values cell selection *)

Record CandidateCell := mkCell { row : nat; col : nat; candidates : list nat }.

Definition MAX_SAFE_INTEGER : Z := 9007199254740991.

(** The cells in the order the two nested loops
    [for row < size) for (col < size)] visit them. *)
Definition scanOrder (size : nat) : list (nat * nat) :=
  r ← seq 0 size; (λ c, (r, c)) <$> seq 0 size.

(** The body of the nested loops over the cells still to visit, with the
    loop-carried variables [bestCell] and [bestCount]; a [return] inside
    the loops ends the scan. *)
Fixpoint scanCells (g : Grid) (size : nat) (boxDims : BoxDimensions) (digits : list nat)
    (todo : list (nat * nat)) (bestCell : option CandidateCell) (bestCount : Z)
    (rnd : Rand) : option CandidateCell * Rand :=
  match todo with
  | [] => (bestCell, rnd)
  | (row, col) :: todo =>
      if bool_decide (cell g row col ≠ Some 0) then
        scanCells g size boxDims digits todo bestCell bestCount rnd
      else
        let candidates := getCandidates g row col size boxDims digits in
        if length candidates =? 0 then (Some (mkCell row col candidates), rnd)
        else if (Z.of_nat (length candidates) <? bestCount)%Z then
          let bestCount := Z.of_nat (length candidates) in
          let '(shuffled, rnd) := shuffleArray candidates rnd in
          let bestCell := Some (mkCell row col shuffled) in
          if (bestCount =? 1)%Z then (bestCell, rnd)
          else scanCells g size boxDims digits todo bestCell bestCount rnd
        else scanCells g size boxDims digits todo bestCell bestCount rnd
  end.

Definition findBestCell (g : Grid) (size : nat) (boxDims : BoxDimensions)
    (digits : list nat) (rnd : Rand) : option CandidateCell * Rand :=
  scanCells g size boxDims digits (scanOrder size) None MAX_SAFE_INTEGER rnd.

(** ** Backtracking search *)

(** The loop [for (const num of candidates)] of [solveSudoku]; [solve] is the
    recursive call.  [None] means the recursion budget ran out. *)
Fixpoint tryCandidates (solve : Grid → Rand → option (bool * Grid * Rand))
    (row col : nat) (cands : list nat) (g : Grid) (rnd : Rand)
    : option (bool * Grid * Rand) :=
  match cands with
  | [] => Some (false, g, rnd)
  | num :: cands =>
      match solve (setCell g row col num) rnd with
      | None => None
      | Some (true, g, rnd) => Some (true, g, rnd)
      | Some (false, g, rnd) => tryCandidates solve row col cands (setCell g row col 0) rnd
      end
  end.

(** [solveSudoku] with a bound [fuel] on the recursion depth.  The grid is
    mutated in place by the source; here it is passed and returned. *)
Fixpoint solveSudokuFuel (fuel : nat) (size : nat) (boxDims : BoxDimensions)
    (digits : list nat) (g : Grid) (rnd : Rand) : option (bool * Grid * Rand) :=
  match fuel with
  | 0 => None
  | S fuel =>
      match findBestCell g size boxDims digits rnd with
      | (None, rnd) => Some (true, g, rnd)
      | (Some c, rnd) =>
          tryCandidates (solveSudokuFuel fuel size boxDims digits)
                        (row c) (col c) (candidates c) g rnd
      end
  end.

(** Every recursive call fills one more cell, so [size * size + 1] nested
    calls are never exceeded (see [solveSudoku_terminates]). *)
Definition solveSudoku (g : Grid) (size : nat) (boxDims : BoxDimensions)
    (digits : list nat) (rnd : Rand) : option (bool * Grid * Rand) :=
  solveSudokuFuel (size * size + 1) size boxDims digits g rnd.

(** ** Complete-grid synthesizer *)

(** [fillBox]: the shuffled digits are written row by row into the box whose
    top-left cell is [(row, col)]; [numIndex] is the running index into
    [numbers].  ([numbers[numIndex]] is always defined: a box has as many
    cells as there are digits.) *)
Definition fillBox (g : Grid) (row col : nat) (boxDims : BoxDimensions)
    (digits : list nat) (rnd : Rand) : Grid * Rand :=
  let '(numbers, rnd) := shuffleArray digits rnd in
  let '(g, _) :=
    foldl (λ '(g, numIndex) i,
      foldl (λ '(g, numIndex) j,
        (setCell g (row + i) (col + j) (default 0 (numbers !! numIndex)), S numIndex))
        (g, numIndex) (seq 0 (cols boxDims)))
      (g, 0) (seq 0 (rows boxDims)) in
  (g, rnd).

(** [fillDiagonalBoxes].  [size / boxDims.cols] is exact for the three box
    shapes [getBoxDimensions] can return. *)
Definition fillDiagonalBoxes (g : Grid) (size : nat) (boxDims : BoxDimensions)
    (digits : list nat) (rnd : Rand) : Grid * Rand :=
  let boxesPerRow := size / cols boxDims in
  foldl (λ '(g, rnd) boxRow,
    foldl (λ '(g, rnd) boxCol,
      if bool_decide (boxRow = boxCol) then
        let startRow := boxRow * rows boxDims in
        let startCol := boxCol * cols boxDims in
        fillBox g startRow startCol boxDims digits rnd
      else (g, rnd))
      (g, rnd) (seq 0 boxesPerRow))
    (g, rnd) (seq 0 boxesPerRow).

(** [grid.forEach(row => row.fill(0))]. *)
Definition zeroGrid (g : Grid) : Grid := (λ row, replicate (length row) 0) <$> g.

(** One pass of the body of the retry loop of [generateSudoku]: zero the
    grid, seed the diagonal boxes, run the search.  The boolean is the
    result of [solveSudoku]. *)
Definition attempt (g : Grid) (size : nat) (boxDims : BoxDimensions)
    (digits : list nat) (rnd : Rand) : option (bool * Grid * Rand) :=
  let g := zeroGrid g in
  let '(g, rnd) := fillDiagonalBoxes g size boxDims digits rnd in
  solveSudoku g size boxDims digits rnd.

(** The loop [for (let attempt = 0; attempt < maxAttempts; attempt++)]
    with [remaining = maxAttempts - attempt] passes still to run, followed
    by the final [throw]. *)
Fixpoint attemptLoop (remaining : nat) (g : Grid) (size : nat) (boxDims : BoxDimensions)
    (digits : list nat) (rnd : Rand) : option (Result Grid * Rand) :=
  match remaining with
  | 0 => Some (Throw GenerationFailure, rnd)
  | S remaining =>
      match attempt g size boxDims digits rnd with
      | None => None
      | Some (true, g, rnd) => Some (Ok g, rnd)
      | Some (false, g, rnd) => attemptLoop remaining g size boxDims digits rnd
      end
  end.

Definition maxAttempts : nat := 5.

(** [generateSudoku].  The result carries the state of the random source at
    the point of return or throw; [None] would mean that the search ran out
    of its recursion budget, which never happens ([generateSudoku_total]). *)
Definition generateSudoku (size : nat) (rnd : Rand) : option (Result Grid * Rand) :=
  match assertValidSize size with
  | Throw e => Some (Throw e, rnd)
  | Ok _ =>
      let grid : Grid := replicate size (replicate size 0) in
      match getBoxDimensions size with
      | Throw e => Some (Throw e, rnd)
      | Ok boxDims =>
          let digits := getDigits size in
          attemptLoop maxAttempts grid size boxDims digits rnd
      end
  end.

(** ** The store of row arrays *)

(** [createPuzzle] copies the rows of its argument and then writes into the
    copies.  To tell a copy from an alias, the row arrays live in a store
    and a grid is the list of the addresses of its rows (the outer array,
    which the source never writes to after building it). *)
Abbreviation loc := nat (only parsing).
Abbreviation Heap := (list (list nat)) (only parsing).
Abbreviation GridRef := (list nat) (only parsing).

(** A fresh array object holding [a]. *)
Definition alloc (a : list nat) (h : Heap) : loc * Heap := (length h, h ++ [a]).

(** The grid value a reference denotes in a store. *)
Definition gridAt (h : Heap) (grid : GridRef) : Grid := (λ l, default [] (h !! l)) <$> grid.

(** [grid[r][c] = v] through the reference. *)
Definition writeCell (h : Heap) (grid : GridRef) (r c v : nat) : Heap :=
  match grid !! r with
  | Some l => alter (<[c := v]>) l h
  | None => h
  end.

(** [grid.map(row => [...row])]: one fresh array per row. *)
Definition copyGrid (h : Heap) (grid : GridRef) : GridRef * Heap :=
  foldl (λ '(puzzle, h) l,
           let '(l', h) := alloc (default [] (h !! l)) h in (puzzle ++ [l'], h))
        ([], h) grid.

(** ** Numbers with fractions *)

Definition ofNat (n : nat) : float := of_uint63 (of_Z (Z.of_nat n)).

(** [Math.floor] of a finite float. *)
Definition floorF (x : float) : Z :=
  match Prim2SF x with
  | S754_finite s m e =>
      ((if s then Z.neg m else Z.pos m) * 2 ^ Z.max e 0) `div` 2 ^ Z.max (- e) 0
  | _ => 0
  end.

(** [Array.prototype.sort(compare)], a stable sort: [after a b] says that
    [compare(a, b) > 0], that is, that [a] has to come after [b]. *)
Fixpoint sortInsert {A} (after : A → A → bool) (x : A) (l : list A) : list A :=
  match l with
  | [] => [x]
  | y :: l' => if after x y then y :: sortInsert after x l' else x :: l
  end.

Definition jsSort {A} (after : A → A → bool) (l : list A) : list A :=
  foldr (sortInsert after) [] l.

(** ** Balanced cell remover *)

Inductive Difficulty := easy | medium | hard | extremely_hard.

Definition percentages (difficulty : Difficulty) : float :=
  match difficulty with
  | easy => 0.65
  | medium => 0.40
  | hard => 0.34
  | extremely_hard => 0.28
  end.

Definition targetCellsToRemove (size : nat) (difficulty : Difficulty) : nat :=
  let totalCells := size * size in
  Z.to_nat (floorF (ofNat totalCells * (1 - percentages difficulty))).

Definition getBoxIndex (row col : nat) (boxDims : BoxDimensions) (size : nat) : nat :=
  let boxRow := row / rows boxDims in
  let boxCol := col / cols boxDims in
  let boxesPerRow := size / cols boxDims in
  boxRow * boxesPerRow + boxCol.

(** [Math.ceil(size / 3)] is [(size + 2) / 3] on the naturals. *)
Definition getSpatialRegion (row col size : nat) : nat :=
  let regionSize := (size + 2) / 3 in
  let regionRow := row / regionSize in
  let regionCol := col / regionSize in
  regionRow * 3 + regionCol.

(** The variables of [createPuzzle] that its closures update.  [heap] is the
    store in which [puzzle] lives; [removedCells] holds the pairs [(row, col)]
    whose key [`${row},${col}`] is in the source's set of strings. *)
Record Removal := mkRemoval {
  heap : Heap;
  removedCells : gset (nat * nat);
  rowRemovalCounts : list nat;
  colRemovalCounts : list nat;
  boxRemovalCounts : gmap nat nat;
  spatialRegionCounts : gmap nat nat;
  rowsWithRemovals : gset nat;
  colsWithRemovals : gset nat;
  boxesWithRemovals : gset nat
}.

(** An entry [[row, col, priority, spatialRegion]] of [positionsByColumn]. *)
Record Position := mkPosition {
  posRow : nat; posCol : nat; posPriority : float; posRegion : nat
}.

(** The variables of the round-robin loop of step 4. *)
Record RoundRobin := mkRoundRobin {
  removal : Removal;
  positionsByColumn : gmap nat (list Position);
  columnOrder : list nat;
  removedCount : nat;
  foundAny : bool
}.

Section createPuzzle.
(** The constants the closures of [createPuzzle] capture. *)
Variables (puzzle : GridRef) (size : nat) (boxDims : BoxDimensions).

Definition removeCell (row col : nat) (st : Removal) : Removal :=
  if bool_decide ((row, col) ∈ removedCells st) then st
  else
    let boxIdx := getBoxIndex row col boxDims size in
    let spatialRegion := getSpatialRegion row col size in
    {| heap := writeCell (heap st) puzzle row col 0;
       removedCells := {[ (row, col) ]} ∪ removedCells st;
       rowRemovalCounts := alter S row (rowRemovalCounts st);
       colRemovalCounts := alter S col (colRemovalCounts st);
       boxRemovalCounts :=
         <[boxIdx := default 0 (boxRemovalCounts st !! boxIdx) + 1]> (boxRemovalCounts st);
       spatialRegionCounts :=
         <[spatialRegion := default 0 (spatialRegionCounts st !! spatialRegion) + 1]>
           (spatialRegionCounts st);
       rowsWithRemovals := {[ row ]} ∪ rowsWithRemovals st;
       colsWithRemovals := {[ col ]} ∪ colsWithRemovals st;
       boxesWithRemovals := {[ boxIdx ]} ∪ boxesWithRemovals st |}.

Definition getCellPriority (st : Removal) (row col : nat) : float :=
  let boxIdx := getBoxIndex row col boxDims size in
  let rowCount := default 0 (rowRemovalCounts st !! row) in
  let colCount := default 0 (colRemovalCounts st !! col) in
  let boxCount := default 0 (boxRemovalCounts st !! boxIdx) in
  let spatialRegion := getSpatialRegion row col size in
  let spatialCount := default 0 (spatialRegionCounts st !! spatialRegion) in
  (ofNat (rowCount + colCount + boxCount) + ofNat spatialCount * 1.5)%float.

(** [sorted.slice(0, Math.min(3, sorted.length))]. *)
Definition topOptions {A} (sorted : list A) : list A :=
  take (3 `min` length sorted) sorted.

(** [topOptions[Math.floor(Math.random() * topOptions.length)]]. *)
Definition pickTop {A} (sorted : list A) (rnd : Rand) : option A * Rand :=
  let '(k, rnd) := randomBelow (length (topOptions sorted)) rnd in
  (topOptions sorted !! k, rnd).

(** Step 1: ensure each row has at least one empty cell. *)
Definition coverRow (row : nat) (st : Removal) (rnd : Rand) : Removal * Rand :=
  if bool_decide (row ∉ rowsWithRemovals st) then
    let availableCols :=
      (λ col, (col, getCellPriority st row col))
        <$> filter (λ col, (row, col) ∉ removedCells st) (seq 0 size) in
    if 0 <? length availableCols then
      let sorted := jsSort (λ a b, 0 <? a.2 - b.2)%float availableCols in
      match pickTop sorted rnd with
      | (Some (randomCol, _), rnd) => (removeCell row randomCol st, rnd)
      | (None, rnd) => (st, rnd)
      end
    else (st, rnd)
  else (st, rnd).

Definition coverRows (st : Removal) (rnd : Rand) : Removal * Rand :=
  foldl (λ '(st, rnd) row, coverRow row st rnd) (st, rnd) (seq 0 size).

(** Step 2: ensure each column has at least one empty cell. *)
Definition coverCol (col : nat) (st : Removal) (rnd : Rand) : Removal * Rand :=
  if bool_decide (col ∉ colsWithRemovals st) then
    let availableRows :=
      (λ row, (row, getCellPriority st row col))
        <$> filter (λ row, (row, col) ∉ removedCells st) (seq 0 size) in
    if 0 <? length availableRows then
      let sorted := jsSort (λ a b, 0 <? a.2 - b.2)%float availableRows in
      match pickTop sorted rnd with
      | (Some (randomRow, _), rnd) => (removeCell randomRow col st, rnd)
      | (None, rnd) => (st, rnd)
      end
    else (st, rnd)
  else (st, rnd).

Definition coverCols (st : Removal) (rnd : Rand) : Removal * Rand :=
  foldl (λ '(st, rnd) col, coverCol col st rnd) (st, rnd) (seq 0 size).

(** Step 3: ensure each box has at least one empty cell. *)
Definition coverBox (boxIdx : nat) (st : Removal) (rnd : Rand) : Removal * Rand :=
  let boxesPerRow := size / cols boxDims in
  if bool_decide (boxIdx ∉ boxesWithRemovals st) then
    let boxRow := boxIdx / boxesPerRow in
    let boxCol := boxIdx `mod` boxesPerRow in
    let startRow := boxRow * rows boxDims in
    let startCol := boxCol * cols boxDims in
    let availableCells :=
      (λ '(row, col), (row, col, getCellPriority st row col))
        <$> filter (λ rc, rc ∉ removedCells st)
              (i ← seq 0 (rows boxDims);
               (λ j, (startRow + i, startCol + j)) <$> seq 0 (cols boxDims)) in
    if 0 <? length availableCells then
      let sorted := jsSort (λ a b, 0 <? a.2 - b.2)%float availableCells in
      match pickTop sorted rnd with
      | (Some (randomRow, randomCol, _), rnd) => (removeCell randomRow randomCol st, rnd)
      | (None, rnd) => (st, rnd)
      end
    else (st, rnd)
  else (st, rnd).

Definition coverBoxes (st : Removal) (rnd : Rand) : Removal * Rand :=
  let boxesPerRow := size / cols boxDims in
  foldl (λ '(st, rnd) boxIdx, coverBox boxIdx st rnd) (st, rnd)
        (seq 0 (boxesPerRow * boxesPerRow)).

(** Steps 1 to 3, the coverage phases. *)
Definition coverage (st : Removal) (rnd : Rand) : Removal * Rand :=
  let '(st, rnd) := coverRows st rnd in
  let '(st, rnd) := coverCols st rnd in
  coverBoxes st rnd.

(** Step 4, grouping: the cells not yet removed, by column, each with the
    priority it has at this point. *)
Definition groupByColumn (st : Removal) : gmap nat (list Position) :=
  foldl (λ m '(i, j),
           if bool_decide ((i, j) ∉ removedCells st) then
             let priority := getCellPriority st i j in
             let spatialRegion := getSpatialRegion i j size in
             <[j := default [] (m !! j) ++ [mkPosition i j priority spatialRegion]]> m
           else m)
        ∅ (scanOrder size).

(** The comparator of the per-column sort: priority first, spatial region
    as tiebreaker. *)
Definition positionAfter (a b : Position) : bool :=
  if negb (posPriority a =? posPriority b)%float
  then (0 <? posPriority a - posPriority b)%float
  else posRegion b <? posRegion a.

(** The comparator of [columnOrder.sort]. *)
Definition columnAfter (st : Removal) (a b : nat) : bool :=
  default 0 (colRemovalCounts st !! b) <? default 0 (colRemovalCounts st !! a).

(** The scan of the first five positions of a column for the best one;
    returns [bestIndex]. *)
Definition bestPosition (st : Removal) (columnPositions : list Position) : nat :=
  let regionCount r := default 0 (spatialRegionCounts st !! r) in
  match columnPositions with
  | [] => 0
  | first :: _ =>
      let '(bestIndex, _, _) :=
        foldl (λ '(bestIndex, bestPriority, bestSpatialRegion) idx,
                 match columnPositions !! idx with
                 | None => (bestIndex, bestPriority, bestSpatialRegion)
                 | Some p =>
                     let spatialCount := regionCount (posRegion p) in
                     if (posPriority p <? bestPriority)%float
                        || ((posPriority p =? bestPriority)%float
                            && (spatialCount <? regionCount bestSpatialRegion))
                     then (idx, posPriority p, posRegion p)
                     else (bestIndex, bestPriority, bestSpatialRegion)
                 end)
              (0, posPriority first, posRegion first)
              (seq 0 (length columnPositions `min` 5)) in
      bestIndex
  end.

(** The body of [for (const col of columnOrder)] for the element at index
    [k] of the array as it is when the iterator reaches it (the array is
    sorted in place inside the loop).  [None] is the [break]. *)
Definition visitColumn (cellsToRemoveNow : nat) (k : nat) (rr : RoundRobin)
    : option RoundRobin :=
  match columnOrder rr !! k with
  | None => Some rr
  | Some col =>
      if bool_decide (cellsToRemoveNow ≤ removedCount rr) then None
      else
        match positionsByColumn rr !! col with
        | None | Some [] => Some rr
        | Some columnPositions =>
            let bestIndex := bestPosition (removal rr) columnPositions in
            match columnPositions !! bestIndex with
            | None => Some rr
            | Some p =>
                let st := removeCell (posRow p) (posCol p) (removal rr) in
                Some {| removal := st;
                        positionsByColumn :=
                          <[col := delete bestIndex columnPositions]> (positionsByColumn rr);
                        columnOrder := jsSort (columnAfter st) (columnOrder rr);
                        removedCount := removedCount rr + 1;
                        foundAny := true |}
            end
        end
  end.

(** One pass of the [for ... of] loop over the indices still to visit. *)
Fixpoint visitColumns (cellsToRemoveNow : nat) (ks : list nat) (rr : RoundRobin)
    : RoundRobin :=
  match ks with
  | [] => rr
  | k :: ks =>
      match visitColumn cellsToRemoveNow k rr with
      | None => rr
      | Some rr => visitColumns cellsToRemoveNow ks rr
      end
  end.

(** [while (removedCount < cellsToRemoveNow)], with a bound [fuel] on the
    number of rounds; [None] means the bound was reached. *)
Fixpoint roundRobin (fuel : nat) (cellsToRemoveNow : nat) (rr : RoundRobin)
    : option RoundRobin :=
  if bool_decide (removedCount rr < cellsToRemoveNow) then
    match fuel with
    | 0 => None
    | S fuel =>
        let rr := visitColumns cellsToRemoveNow (seq 0 (length (columnOrder rr)))
                    {| removal := removal rr;
                       positionsByColumn := positionsByColumn rr;
                       columnOrder := columnOrder rr;
                       removedCount := removedCount rr;
                       foundAny := false |} in
        if negb (foundAny rr) then Some rr
        else roundRobin fuel cellsToRemoveNow rr
    end
  else Some rr.

(** The fallback after the round-robin: a flat ranking of what is left. *)
Definition removeRemaining (stillNeed : nat) (st : Removal) : Removal :=
  let remainingPositions :=
    (λ '(i, j), (i, j, getCellPriority st i j))
      <$> filter (λ rc, rc ∉ removedCells st) (scanOrder size) in
  let sorted := jsSort (λ a b, 0 <? a.2 - b.2)%float remainingPositions in
  foldl (λ st '(row, col, _), removeCell row col st) st
        (take (stillNeed `min` length sorted) sorted).

(** Step 4: remove additional cells to reach the target. *)
Definition fillQuota (target : nat) (st : Removal) : option Removal :=
  let currentRemoved := base.size (removedCells st) in
  let additionalToRemove := 0 `max` (target - currentRemoved) in
  if 0 <? additionalToRemove then
    let positionsByColumn := jsSort positionAfter <$> groupByColumn st in
    let cellsToRemoveNow :=
      additionalToRemove `min` map_fold (λ _ arr sum, sum + length arr) 0 positionsByColumn in
    let columnOrder := jsSort (columnAfter st) (seq 0 size) in
    match roundRobin (cellsToRemoveNow + 1) cellsToRemoveNow
            (mkRoundRobin st positionsByColumn columnOrder 0 false) with
    | None => None
    | Some rr =>
        if removedCount rr <? cellsToRemoveNow then
          Some (removeRemaining (cellsToRemoveNow - removedCount rr) (removal rr))
        else Some (removal rr)
    end
  else Some st.
End createPuzzle.

(** The tracking variables as [createPuzzle] initialises them. *)
Definition initialRemoval (h : Heap) (size : nat) (boxDims : BoxDimensions) : Removal :=
  let boxesPerRow := size / cols boxDims in
  {| heap := h;
     removedCells := ∅;
     rowRemovalCounts := replicate size 0;
     colRemovalCounts := replicate size 0;
     boxRemovalCounts :=
       foldl (λ m i, <[i := 0]> m) ∅ (seq 0 (boxesPerRow * boxesPerRow));
     spatialRegionCounts := foldl (λ m i, <[i := 0]> m) ∅ (seq 0 9);
     rowsWithRemovals := ∅;
     colsWithRemovals := ∅;
     boxesWithRemovals := ∅ |}.

(** [createPuzzle] on the store [h], in which [grid] lives.  The result
    carries the store and the random source as they are at the return or at
    the throw; [None] would mean that the round-robin loop ran out of its
    bound, which never happens ([createPuzzle_total]). *)
Definition createPuzzle (h : Heap) (grid : GridRef) (size : nat) (difficulty : Difficulty)
    (rnd : Rand) : option (Result GridRef * Heap * Rand) :=
  match assertValidSize size with
  | Throw e => Some (Throw e, h, rnd)
  | Ok _ =>
      let '(puzzle, h) := copyGrid h grid in
      match getBoxDimensions size with
      | Throw e => Some (Throw e, h, rnd)
      | Ok boxDims =>
          let target := targetCellsToRemove size difficulty in
          let st := initialRemoval h size boxDims in
          let '(st, rnd) := coverage puzzle size boxDims st rnd in
          match fillQuota puzzle size boxDims target st with
          | None => None
          | Some st => Some (Ok puzzle, heap st, rnd)
          end
      end
  end.

(** The pass number [k] (from 0) of the retry loop of [generateSudoku], when
    the loop gets that far, that is, when all earlier passes failed. *)
Fixpoint nthAttempt (k : nat) (g : Grid) (size : nat) (boxDims : BoxDimensions)
    (digits : list nat) (rnd : Rand) : option (bool * Grid * Rand) :=
  match k with
  | 0 => attempt g size boxDims digits rnd
  | S k =>
      match attempt g size boxDims digits rnd with
      | Some (false, g, rnd) => nthAttempt k g size boxDims digits rnd
      | _ => None
      end
  end.

(** ** The box shape of the printable page

    [printableGenerator.ts] has a [getBoxDimensions] of its own (the one the
    generator had before sizes were validated), with a square-root fallback
    and no failure.  [Math.sqrt] of a natural number is that number's root
    when it is a perfect square and an irrational number otherwise. *)
Inductive JsNumber :=
| JsNat (n : nat)
| JsSqrt (n : nat). (* the irrational [Math.sqrt(n)] *)

Definition mathSqrt (n : nat) : JsNumber :=
  if Nat.sqrt n * Nat.sqrt n =? n then JsNat (Nat.sqrt n) else JsSqrt n.

Module Printable.
Definition getBoxDimensions (size : nat) : JsNumber * JsNumber :=
  if size =? 9 then (JsNat 3, JsNat 3)
  else if size =? 6 then (JsNat 2, JsNat 3)
  else if size =? 4 then (JsNat 2, JsNat 2)
  else
    let boxSize := mathSqrt size in
    (boxSize, boxSize).
End Printable.

(** [generateSudokuPDF] of the PDF generator derives the box shape in
    line, into its variables [boxRows] and [boxCols], with the same
    fallback. *)
Module Pdf.
End Pdf.

(** ** The generator on the store

    [digitsCache] is a module-level map from sizes to arrays, and the array
    it holds for a size is handed, by reference, to every function that
    needs the digits.  To tell a function that copies that array from one
    that writes into it, [Module Store] models the generator with every
    array of numbers in the store: the cached arrays, the rows of the grid,
    the copies that [shuffleArray] makes and the candidate lists. *)
Module Store.

(** The state that outlives a call: the store and the cache. *)
Record World := mkWorld { store : Heap; digitsCache : gmap nat loc }.

(** The array at an address ([[]] for an address never allocated). *)
Definition readArray (h : Heap) (a : loc) : list nat := default [] (h !! a).

Definition getDigits (size : nat) (w : World) : loc * World :=
  match digitsCache w !! size with
  | Some digits => (digits, w)
  | None =>
      let '(digits, h) := alloc ((λ i, i + 1) <$> seq 0 size) (store w) in
      (digits, mkWorld h (<[size := digits]> (digitsCache w)))
  end.

(** The loop of [shuffleArray]: the swaps are writes into the array [arr]. *)
Fixpoint shuffleLoop (i : nat) (arr : loc) (h : Heap) (rnd : Rand) : Heap * Rand :=
  match i with
  | 0 => (h, rnd)
  | S i' =>
      let '(j, rnd) := randomBelow (i + 1) rnd in
      shuffleLoop i' arr (alter (λ a, swap a i j) arr h) rnd
  end.

(** [const arr = [...array]] allocates the copy that the loop shuffles. *)
Definition shuffleArray (array : loc) (h : Heap) (rnd : Rand) : loc * Heap * Rand :=
  let '(arr, h) := alloc (readArray h array) h in
  let '(h, rnd) := shuffleLoop (length (readArray h arr) - 1) arr h rnd in
  (arr, h, rnd).

Definition fillBox (grid : GridRef) (row col : nat) (boxDims : BoxDimensions)
    (digits : loc) (h : Heap) (rnd : Rand) : Heap * Rand :=
  let '(numbers, h, rnd) := shuffleArray digits h rnd in
  let '(h, _) :=
    foldl (λ '(h, numIndex) i,
      foldl (λ '(h, numIndex) j,
        (writeCell h grid (row + i) (col + j)
                   (default 0 (readArray h numbers !! numIndex)), S numIndex))
        (h, numIndex) (seq 0 (cols boxDims)))
      (h, 0) (seq 0 (rows boxDims)) in
  (h, rnd).

Definition fillDiagonalBoxes (grid : GridRef) (size : nat) (boxDims : BoxDimensions)
    (digits : loc) (h : Heap) (rnd : Rand) : Heap * Rand :=
  let boxesPerRow := size / cols boxDims in
  foldl (λ '(h, rnd) boxRow,
    foldl (λ '(h, rnd) boxCol,
      if bool_decide (boxRow = boxCol) then
        let startRow := boxRow * rows boxDims in
        let startCol := boxCol * cols boxDims in
        fillBox grid startRow startCol boxDims digits h rnd
      else (h, rnd))
      (h, rnd) (seq 0 boxesPerRow))
    (h, rnd) (seq 0 boxesPerRow).

(** [getCandidates]: [candidates] is a fresh array, and [push] writes into
    it.  The loop [for (const num of digits)] reads the array [digits],
    which the body of the loop does not write. *)
Definition getCandidates (grid : GridRef) (row col size : nat) (boxDims : BoxDimensions)
    (digits : loc) (h : Heap) : loc * Heap :=
  let '(candidates, h) := alloc [] h in
  let h :=
    foldl (λ h num,
             if isValid (gridAt h grid) row col num size boxDims
             then alter (λ a, a ++ [num]) candidates h
             else h)
          h (readArray h digits) in
  (candidates, h).

Record CandidateCell := mkCell { row : nat; col : nat; candidates : loc }.

Fixpoint scanCells (grid : GridRef) (size : nat) (boxDims : BoxDimensions) (digits : loc)
    (todo : list (nat * nat)) (bestCell : option CandidateCell) (bestCount : Z)
    (h : Heap) (rnd : Rand) : option CandidateCell * Heap * Rand :=
  match todo with
  | [] => (bestCell, h, rnd)
  | (row, col) :: todo =>
      if bool_decide (cell (gridAt h grid) row col ≠ Some 0) then
        scanCells grid size boxDims digits todo bestCell bestCount h rnd
      else
        let '(candidates, h) := getCandidates grid row col size boxDims digits h in
        let count := length (readArray h candidates) in
        if count =? 0 then (Some (mkCell row col candidates), h, rnd)
        else if (Z.of_nat count <? bestCount)%Z then
          let bestCount := Z.of_nat count in
          let '(shuffled, h, rnd) := shuffleArray candidates h rnd in
          let bestCell := Some (mkCell row col shuffled) in
          if (bestCount =? 1)%Z then (bestCell, h, rnd)
          else scanCells grid size boxDims digits todo bestCell bestCount h rnd
        else scanCells grid size boxDims digits todo bestCell bestCount h rnd
  end.

Definition findBestCell (grid : GridRef) (size : nat) (boxDims : BoxDimensions)
    (digits : loc) (h : Heap) (rnd : Rand) : option CandidateCell * Heap * Rand :=
  scanCells grid size boxDims digits (scanOrder size) None MAX_SAFE_INTEGER h rnd.

Fixpoint tryCandidates (solve : Heap → Rand → option (bool * Heap * Rand))
    (grid : GridRef) (row col : nat) (cands : list nat) (h : Heap) (rnd : Rand)
    : option (bool * Heap * Rand) :=
  match cands with
  | [] => Some (false, h, rnd)
  | num :: cands =>
      match solve (writeCell h grid row col num) rnd with
      | None => None
      | Some (true, h, rnd) => Some (true, h, rnd)
      | Some (false, h, rnd) =>
          tryCandidates solve grid row col cands (writeCell h grid row col 0) rnd
      end
  end.

(** [solveSudoku]; the loop [for (const num of candidates)] reads the
    array of the chosen cell, which nothing writes once it is returned. *)
Fixpoint solveSudokuFuel (fuel : nat) (grid : GridRef) (size : nat) (boxDims : BoxDimensions)
    (digits : loc) (h : Heap) (rnd : Rand) : option (bool * Heap * Rand) :=
  match fuel with
  | 0 => None
  | S fuel =>
      match findBestCell grid size boxDims digits h rnd with
      | (None, h, rnd) => Some (true, h, rnd)
      | (Some c, h, rnd) =>
          tryCandidates (solveSudokuFuel fuel grid size boxDims digits)
                        grid (row c) (col c) (readArray h (candidates c)) h rnd
      end
  end.

Definition solveSudoku (grid : GridRef) (size : nat) (boxDims : BoxDimensions)
    (digits : loc) (h : Heap) (rnd : Rand) : option (bool * Heap * Rand) :=
  solveSudokuFuel (size * size + 1) grid size boxDims digits h rnd.

(** [new Array(size).fill(null).map(() => new Array(size).fill(0))]: one
    fresh row of zeros per index. *)
Definition newGrid (size : nat) (h : Heap) : GridRef * Heap :=
  foldl (λ '(grid, h) _, let '(l, h) := alloc (replicate size 0) h in (grid ++ [l], h))
        ([], h) (seq 0 size).

(** [grid.forEach(row => row.fill(0))]. *)
Definition zeroGrid (grid : GridRef) (h : Heap) : Heap :=
  foldl (λ h l, alter (λ row, replicate (length row) 0) l h) h grid.

Definition attempt (grid : GridRef) (size : nat) (boxDims : BoxDimensions)
    (digits : loc) (h : Heap) (rnd : Rand) : option (bool * Heap * Rand) :=
  let h := zeroGrid grid h in
  let '(h, rnd) := fillDiagonalBoxes grid size boxDims digits h rnd in
  solveSudoku grid size boxDims digits h rnd.

Fixpoint attemptLoop (remaining : nat) (grid : GridRef) (size : nat) (boxDims : BoxDimensions)
    (digits : loc) (h : Heap) (rnd : Rand) : option (Result GridRef * Heap * Rand) :=
  match remaining with
  | 0 => Some (Throw GenerationFailure, h, rnd)
  | S remaining =>
      match attempt grid size boxDims digits h rnd with
      | None => None
      | Some (true, h, rnd) => Some (Ok grid, h, rnd)
      | Some (false, h, rnd) => attemptLoop remaining grid size boxDims digits h rnd
      end
  end.

Definition generateSudoku (size : nat) (w : World) (rnd : Rand)
    : option (Result GridRef * World * Rand) :=
  match assertValidSize size with
  | Throw e => Some (Throw e, w, rnd)
  | Ok _ =>
      let '(grid, h) := newGrid size (store w) in
      match getBoxDimensions size with
      | Throw e => Some (Throw e, mkWorld h (digitsCache w), rnd)
      | Ok boxDims =>
          let '(digits, w) := getDigits size (mkWorld h (digitsCache w)) in
          match attemptLoop maxAttempts grid size boxDims digits (store w) rnd with
          | None => None
          | Some (res, h, rnd) => Some (res, mkWorld h (digitsCache w), rnd)
          end
      end
  end.

(** [createPuzzle] does not use the cache. *)
Definition createPuzzle (grid : GridRef) (size : nat) (difficulty : Difficulty)
    (w : World) (rnd : Rand) : option (Result GridRef * World * Rand) :=
  match createPuzzle (store w) grid size difficulty rnd with
  | None => None
  | Some (res, h, rnd) => Some (res, mkWorld h (digitsCache w), rnd)
  end.

(** A call of one of the two exported functions. *)
Inductive Call :=
| Generate (size : nat)
| Create (grid : GridRef) (size : nat) (difficulty : Difficulty).

(** The state of the world after a sequence of calls ([None] if the
    embedding runs out of its bound, which it never does). *)
Fixpoint runCalls (calls : list Call) (w : World) (rnd : Rand) : option (World * Rand) :=
  match calls with
  | [] => Some (w, rnd)
  | Generate size :: calls =>
      match generateSudoku size w rnd with
      | None => None
      | Some (_, w, rnd) => runCalls calls w rnd
      end
  | Create grid size difficulty :: calls =>
      match createPuzzle grid size difficulty w rnd with
      | None => None
      | Some (_, w, rnd) => runCalls calls w rnd
      end
  end.
End Store.

(** ** The click handler

    [handleGenerate] of [App.tsx], inside its [setTimeout]: the two calls
    into the generator and the call of [generatePrintablePage], all three
    in a [try] whose [catch] shows an alert.  [size] and [difficulty] are
    the React state the handler reads.

    [generatePrintablePage] builds a page and opens a window; the handler
    is embedded for every such function: all that the handler sees of it
    is whether the call returns or throws.  The function reads the two
    grids and writes to neither.  (The [generatePrintablePage] of
    [printableGenerator.ts] that the repository holds takes five
    parameters; called with these four arguments its [difficulty] is
    undefined and [difficulty.charAt(0)] throws: that is the case [Some]
    below.) *)
Module App.

(** The sizes of the buttons of the page. *)
Definition validSizes : list nat := [4; 6; 9].

(** How the [try] block ends: it runs to its end, or it is left for the
    [catch], and the alert, by a throw of the generator or by a throw of
    [generatePrintablePage]. *)
Inductive Outcome (Exn : Type) :=
| Printed (puzzle completeGrid : GridRef)
| Alerted (e : Error)
| AlertedByPage (puzzle completeGrid : GridRef) (e : Exn).
Arguments Printed {Exn}.
Arguments Alerted {Exn}.
Arguments AlertedByPage {Exn}.

Section handler.
Context {Exn : Type}.

(** [generatePrintablePage(puzzle, completeGrid, size, difficulty)] in the
    store of the call: [None] when it returns, [Some e] when it throws
    [e]. *)
Variable generatePrintablePage :
  GridRef → GridRef → nat → Difficulty → Store.World → option Exn.

Definition handleGenerate (size : nat) (difficulty : Difficulty) (w : Store.World)
    (rnd : Rand) : option (Outcome Exn * Store.World * Rand) :=
  match Store.generateSudoku size w rnd with
  | None => None
  | Some (Throw e, w, rnd) => Some (Alerted e, w, rnd)
  | Some (Ok completeGrid, w, rnd) =>
      match Store.createPuzzle completeGrid size difficulty w rnd with
      | None => None
      | Some (Throw e, w, rnd) => Some (Alerted e, w, rnd)
      | Some (Ok puzzle, w, rnd) =>
          match generatePrintablePage puzzle completeGrid size difficulty w with
          | Some e => Some (AlertedByPage puzzle completeGrid e, w, rnd)
          | None => Some (Printed puzzle completeGrid, w, rnd)
          end
      end
  end.
End handler.
End App.

(** ** The earlier generator

    The repository also holds the generator as it was before sizes were
    validated and the search was given its minimum-remaining-values
    heuristic: [getBoxDimensions] falls back on square boxes,
    [generateSudoku] seeds and searches once and returns the grid whatever
    the search returned, and [solveSudoku] fills the first empty cell in
    scan order, trying the digits in a fresh random order.  [isValid],
    [shuffleArray] and the loops of [fillBox] and [fillDiagonalBoxes] are
    the same text as in the current generator. *)
Module Earlier.

Definition getBoxDimensions (size : nat) : JsNumber * JsNumber :=
  if size =? 9 then (JsNat 3, JsNat 3)
  else if size =? 6 then (JsNat 2, JsNat 3)
  else if size =? 4 then (JsNat 2, JsNat 2)
  else
    (* Default to square boxes *)
    let boxSize := mathSqrt size in
    (boxSize, boxSize).

(** [fillBox]: the numbers are [[...new Array(size)].map((_, i) => i + 1)],
    shuffled. *)
Definition fillBox (g : Grid) (row col : nat) (boxDims : BoxDimensions) (size : nat)
    (rnd : Rand) : Grid * Rand :=
  fillBox g row col boxDims ((λ i, i + 1) <$> seq 0 size) rnd.

Definition fillDiagonalBoxes (g : Grid) (size : nat) (boxDims : BoxDimensions)
    (rnd : Rand) : Grid * Rand :=
  let boxesPerRow := size / cols boxDims in
  foldl (λ '(g, rnd) boxRow,
    foldl (λ '(g, rnd) boxCol,
      if bool_decide (boxRow = boxCol) then
        let startRow := boxRow * rows boxDims in
        let startCol := boxCol * cols boxDims in
        fillBox g startRow startCol boxDims size rnd
      else (g, rnd))
      (g, rnd) (seq 0 boxesPerRow))
    (g, rnd) (seq 0 boxesPerRow).

(** The first cell, in the order of the two nested loops, with
    [grid[row][col] === 0]. *)
Definition firstEmpty (g : Grid) (size : nat) : option (nat * nat) :=
  snd <$> list_find (λ p, cell g p.1 p.2 = Some 0) (scanOrder size).

(** The loop [for (const num of numbers)]; [solve] is the recursive call. *)
Fixpoint tryNumbers (solve : Grid → Rand → option (bool * Grid * Rand))
    (size : nat) (boxDims : BoxDimensions) (row col : nat) (numbers : list nat)
    (g : Grid) (rnd : Rand) : option (bool * Grid * Rand) :=
  match numbers with
  | [] => Some (false, g, rnd)
  | num :: numbers =>
      if isValid g row col num size boxDims then
        match solve (setCell g row col num) rnd with
        | None => None
        | Some (true, g, rnd) => Some (true, g, rnd)
        | Some (false, g, rnd) =>
            tryNumbers solve size boxDims row col numbers (setCell g row col 0) rnd
        end
      else tryNumbers solve size boxDims row col numbers g rnd
  end.

(** [solveSudoku], with a bound [fuel] on the depth of the recursion. *)
Fixpoint solveSudokuFuel (fuel : nat) (size : nat) (boxDims : BoxDimensions)
    (g : Grid) (rnd : Rand) : option (bool * Grid * Rand) :=
  match fuel with
  | 0 => None
  | S fuel =>
      match firstEmpty g size with
      | Some (row, col) =>
          let '(numbers, rnd) := shuffleArray ((λ i, i + 1) <$> seq 0 size) rnd in
          tryNumbers (solveSudokuFuel fuel size boxDims) size boxDims row col numbers g rnd
      | None => Some (true, g, rnd)
      end
  end.

Definition solveSudoku (g : Grid) (size : nat) (boxDims : BoxDimensions) (rnd : Rand)
    : option (bool * Grid * Rand) :=
  solveSudokuFuel (size * size + 1) size boxDims g rnd.

(** The box shape when both sides are integers. *)
Definition integral (d : JsNumber * JsNumber) : option BoxDimensions :=
  match d with
  | (JsNat r, JsNat c) => Some (mkBox r c)
  | _ => None
  end.

(** [generateSudoku]: the result of [solveSudoku] is not looked at.  The
    value is [None] for the sizes whose box side [Math.sqrt(size)] is not an
    integer, for which the loops index the grid with fractions and which
    this embedding leaves out (and it would be [None] if the search ran out
    of its bound, which it does not). *)
Definition generateSudoku (size : nat) (rnd : Rand) : option (Grid * Rand) :=
  match integral (getBoxDimensions size) with
  | None => None
  | Some boxDims =>
      let grid : Grid := replicate size (replicate size 0) in
      let '(grid, rnd) := fillDiagonalBoxes grid size boxDims rnd in
      match solveSudoku grid size boxDims rnd with
      | None => None
      | Some (_, grid, rnd) => Some (grid, rnd)
      end
  end.
End Earlier.

(** * Properties *)

(** ** Randomness and shuffling *)

Lemma randomBelow_lt k rnd : 0 < k → (randomBelow k rnd).1 < k.
Proof.
  intros Hk. destruct k as [|k]; [lia|]. unfold randomBelow. cbn [fst].
  apply Nat.mod_upper_bound. lia.
Qed.

Lemma swap_Permutation {A} (arr : list A) i j : swap arr i j ≡ₚ arr.
Proof.
  unfold swap. destruct (arr !! i) as [x|] eqn:Hi; [|done].
  destruct (arr !! j) as [y|] eqn:Hj; [|done].
  by apply Permutation_insert_swap.
Qed.

Lemma shuffleLoop_Permutation {A} i (arr : list A) rnd :
  (shuffleLoop i arr rnd).1 ≡ₚ arr.
Proof.
  revert arr rnd. induction i as [|i IH]; intros arr rnd; [done|].
  cbn [shuffleLoop]. destruct (randomBelow _ rnd) as [j rnd'].
  rewrite IH. apply swap_Permutation.
Qed.

Lemma shuffleArray_Permutation {A} (array : list A) rnd :
  (shuffleArray array rnd).1 ≡ₚ array.
Proof. apply shuffleLoop_Permutation. Qed.

Lemma shuffleArray_length {A} (array : list A) rnd :
  length (shuffleArray array rnd).1 = length array.
Proof. by rewrite shuffleArray_Permutation. Qed.

(** ** Cells of a grid *)

Definition wfGrid (size : nat) (g : Grid) : Prop :=
  length g = size ∧ Forall (λ r, length r = size) g.

Lemma cell_is_Some size g r c :
  wfGrid size g → r < size → c < size → is_Some (cell g r c).
Proof.
  intros [Hl Hr] Hlt Hc. unfold cell.
  destruct (lookup_lt_is_Some_2 g r) as [x Hx]; [lia|].
  rewrite Hx. simpl. apply lookup_lt_is_Some_2.
  rewrite Forall_lookup in Hr. rewrite (Hr _ _ Hx). done.
Qed.

Lemma cell_lt size g r c v :
  wfGrid size g → cell g r c = Some v → r < size ∧ c < size.
Proof.
  intros [Hl Hr]. unfold cell. intros H.
  destruct (g !! r) as [x|] eqn:Hx; [|done]. simpl in H.
  rewrite Forall_lookup in Hr. pose proof (Hr _ _ Hx) as Hlen.
  apply lookup_lt_Some in Hx, H. lia.
Qed.

Lemma cell_setCell g r c v r' c' :
  cell (setCell g r c v) r' c' =
    if decide (r = r' ∧ c = c' ∧ is_Some (cell g r c)) then Some v else cell g r' c'.
Proof.
  unfold cell, setCell. destruct (decide (r = r')) as [->|Hr].
  - rewrite list_lookup_alter_eq. destruct (g !! r') as [x|] eqn:Hx; simpl.
    + destruct (decide (c = c')) as [->|Hc].
      * destruct (x !! c') as [y|] eqn:Hy.
        -- rewrite decide_True by eauto.
           rewrite list_lookup_insert_eq; [done|]. by eapply lookup_lt_Some.
        -- rewrite decide_False by (intros (_ & _ & []); done).
           rewrite list_insert_ge; [done|]. by apply lookup_ge_None.
      * rewrite decide_False by naive_solver.
        by rewrite list_lookup_insert_ne.
    + rewrite decide_False; [done|]. intros (_ & _ & []); done.
  - rewrite list_lookup_alter_ne by done.
    by rewrite decide_False by naive_solver.
Qed.

Lemma wfGrid_setCell size g r c v : wfGrid size g → wfGrid size (setCell g r c v).
Proof.
  intros [Hl Hr]. split; unfold setCell.
  - by rewrite length_alter.
  - rewrite Forall_lookup in Hr. apply Forall_lookup. intros i x.
    destruct (decide (r = i)) as [->|Hne].
    + rewrite list_lookup_alter_eq. destruct (g !! i) as [y|] eqn:Hy; [|done].
      simpl. intros [= <-]. rewrite length_insert. eauto.
    + rewrite list_lookup_alter_ne by done. eauto.
Qed.

Lemma grid_eq (g1 g2 : Grid) size :
  wfGrid size g1 → wfGrid size g2 →
  (∀ r c, r < size → c < size → cell g1 r c = cell g2 r c) → g1 = g2.
Proof.
  intros [Hl1 Hr1] [Hl2 Hr2] Hc. apply list_eq_same_length with size; try done.
  intros r x y Hr Hx Hy. rewrite Forall_lookup in Hr1, Hr2.
  apply list_eq_same_length with size; eauto.
  intros c a b Hlt Ha Hb. specialize (Hc r c Hr Hlt). unfold cell in Hc.
  rewrite Hx, Hy in Hc. simpl in Hc. congruence.
Qed.

Lemma setCell_restore size g r c v :
  wfGrid size g → cell g r c = Some 0 → setCell (setCell g r c v) r c 0 = g.
Proof.
  intros Hwf H0. apply grid_eq with size; auto using wfGrid_setCell.
  intros r' c' _ _. rewrite !cell_setCell.
  repeat case_decide; naive_solver.
Qed.

Lemma elem_of_scanOrder size r c : (r, c) ∈ scanOrder size ↔ r < size ∧ c < size.
Proof.
  unfold scanOrder. rewrite list_elem_of_bind. split.
  - intros (r' & Hc & Hr). apply list_elem_of_fmap in Hc as (c' & [= -> ->] & Hc).
    apply elem_of_seq in Hc, Hr. lia.
  - intros [Hr Hc]. exists r. split.
    + apply list_elem_of_fmap. exists c. split; [done|]. apply elem_of_seq. lia.
    + apply elem_of_seq. lia.
Qed.

Lemma length_scanOrder size : length (scanOrder size) = size * size.
Proof.
  unfold scanOrder.
  assert (∀ l : list nat,
    length (l ≫= λ r, (λ c, (r, c)) <$> seq 0 size) = length l * size) as H.
  { induction l as [|x l IH]; [done|].
    rewrite bind_cons, length_app, length_fmap, length_seq, IH. simpl. lia. }
  by rewrite H, length_seq.
Qed.

(** ** The validity oracle *)

Lemma isValid_spec g row col num size boxDims :
  isValid g row col num size boxDims = true ↔
    (∀ j, j < size → cell g row j ≠ Some num) ∧
    (∀ i, i < size → cell g i col ≠ Some num) ∧
    (∀ i j,
       row / rows boxDims * rows boxDims ≤ i < row / rows boxDims * rows boxDims + rows boxDims →
       col / cols boxDims * cols boxDims ≤ j < col / cols boxDims * cols boxDims + cols boxDims →
       cell g i j ≠ Some num).
Proof.
  unfold isValid. rewrite !andb_true_iff, !forallb_forall.
  setoid_rewrite negb_true_iff. setoid_rewrite bool_decide_eq_false.
  setoid_rewrite forallb_forall. setoid_rewrite negb_true_iff.
  setoid_rewrite bool_decide_eq_false. setoid_rewrite in_seq.
  split.
  - intros [[H1 H2] H3]. repeat split.
    + intros j Hj. apply H1. lia.
    + intros i Hi. apply H2. lia.
    + intros i j Hi Hj. apply H3; lia.
  - intros (H1 & H2 & H3). repeat split.
    + intros j Hj. apply H1. lia.
    + intros i Hi. apply H2. lia.
    + intros i Hi j Hj. apply H3; lia.
Qed.

Lemma box_range n k i : 0 < n → k / n * n ≤ i < k / n * n + n ↔ i / n = k / n.
Proof.
  intros Hn. split.
  - intros Hi. symmetry. apply Nat.div_unique with (i - k / n * n); lia.
  - intros Hi. pose proof (Nat.div_mod_eq i n) as Hd.
    pose proof (Nat.mod_upper_bound i n). rewrite Hi in Hd. lia.
Qed.

(** Two cells see each other when they share a row, a column or a box. *)
Definition peers (boxDims : BoxDimensions) (r1 c1 r2 c2 : nat) : Prop :=
  r1 = r2 ∨ c1 = c2 ∨
  (r1 / rows boxDims = r2 / rows boxDims ∧ c1 / cols boxDims = c2 / cols boxDims).

(** No digit occurs twice in a row, a column or a box. *)
Definition consistent (size : nat) (boxDims : BoxDimensions) (g : Grid) : Prop :=
  ∀ r1 c1 r2 c2 v,
    r1 < size → c1 < size → r2 < size → c2 < size →
    (r1, c1) ≠ (r2, c2) → peers boxDims r1 c1 r2 c2 →
    cell g r1 c1 = Some v → v ≠ 0 → cell g r2 c2 ≠ Some v.

(** Every cell is empty or holds one of the digits. *)
Definition valuesIn (digits : list nat) (g : Grid) : Prop :=
  ∀ r c v, cell g r c = Some v → v = 0 ∨ v ∈ digits.

(** No cell of the grid is empty. *)
Definition complete (size : nat) (g : Grid) : Prop :=
  ∀ r c, r < size → c < size → cell g r c ≠ Some 0.

Section placement.
Context (size : nat) (boxDims : BoxDimensions) (digits : list nat).
Hypothesis rows_pos : 0 < rows boxDims.
Hypothesis cols_pos : 0 < cols boxDims.

Lemma isValid_peers g row col num r c :
  isValid g row col num size boxDims = true →
  r < size → c < size → peers boxDims row col r c → cell g r c ≠ Some num.
Proof.
  intros (H1 & H2 & H3)%isValid_spec Hr Hc [->|[->|[Hbr Hbc]]]; auto.
  apply H3; apply box_range; auto.
Qed.

Lemma isValid_nonzero g row col num :
  isValid g row col num size boxDims = true →
  col < size → cell g row col = Some 0 → num ≠ 0.
Proof.
  intros (H1 & _)%isValid_spec Hc H0 ->. by apply (H1 col).
Qed.

Lemma consistent_setCell g row col num :
  consistent size boxDims g → cell g row col = Some 0 →
  row < size → col < size →
  isValid g row col num size boxDims = true →
  consistent size boxDims (setCell g row col num).
Proof.
  intros Hcons H0 Hrow Hcol Hv r1 c1 r2 c2 v Hr1 Hc1 Hr2 Hc2 Hne Hp.
  rewrite !cell_setCell.
  destruct (decide (row = r1 ∧ col = c1 ∧ _)) as [(-> & -> & _)|Hn1].
  - intros [= <-] _. rewrite decide_False by naive_solver.
    by apply (isValid_peers _ _ _ _ _ _ Hv).
  - intros Hv1 Hv0. destruct (decide (row = r2 ∧ col = c2 ∧ _)) as [(-> & -> & _)|Hn2].
    + intros [= ->]. apply (isValid_peers _ _ _ _ r1 c1 Hv); auto.
      destruct Hp as [->|[->|[? ?]]]; unfold peers; auto.
    + by apply (Hcons r1 c1 r2 c2).
Qed.

Lemma valuesIn_setCell g row col num :
  valuesIn digits g → num = 0 ∨ num ∈ digits → valuesIn digits (setCell g row col num).
Proof.
  intros Hv Hn r c v. rewrite cell_setCell. case_decide; [|by apply Hv].
  by intros [= <-].
Qed.

Lemma getCandidates_spec g row col num :
  num ∈ getCandidates g row col size boxDims digits ↔
    isValid g row col num size boxDims = true ∧ num ∈ digits.
Proof. unfold getCandidates. by rewrite list_elem_of_filter. Qed.

Lemma getCandidates_length g row col :
  length (getCandidates g row col size boxDims digits) ≤ length digits.
Proof. apply length_filter. Qed.
End placement.

(** ** Cell selection *)

Ltac snoc_cases p H :=
  apply elem_of_app in H as [H|H%list_elem_of_singleton]; [|subst p].

Section selection.
Context (size : nat) (boxDims : BoxDimensions) (digits : list nat) (g : Grid).
Hypothesis digits_small : (Z.of_nat (length digits) < MAX_SAFE_INTEGER)%Z.

(** The number of legal candidates of a cell. *)
Definition candidateCount (p : nat * nat) : nat :=
  length (getCandidates g p.1 p.2 size boxDims digits).

Definition emptyAt (p : nat * nat) : Prop := cell g p.1 p.2 = Some 0.

(** What the loops of [findBestCell] maintain after visiting [visited]. *)
Definition scanInv (visited : list (nat * nat)) (bestCell : option CandidateCell)
    (bestCount : Z) : Prop :=
  (2 ≤ bestCount)%Z ∧
  (∀ p, p ∈ visited → emptyAt p →
        2 ≤ candidateCount p ∧ (bestCount ≤ Z.of_nat (candidateCount p))%Z) ∧
  match bestCell with
  | None => bestCount = MAX_SAFE_INTEGER ∧ ∀ p, p ∈ visited → ¬ emptyAt p
  | Some b =>
      ∃ pre post, visited = pre ++ (row b, col b) :: post ∧
        emptyAt (row b, col b) ∧
        candidates b ≡ₚ getCandidates g (row b) (col b) size boxDims digits ∧
        bestCount = Z.of_nat (candidateCount (row b, col b)) ∧
        ∀ p, p ∈ pre → emptyAt p → candidateCount (row b, col b) < candidateCount p
  end.

(** What [findBestCell] returns after scanning the cells [order]. *)
Definition scanPost (order : list (nat * nat)) (res : option CandidateCell) : Prop :=
  match res with
  | None => ∀ p, p ∈ order → ¬ emptyAt p
  | Some b =>
      ∃ pre post, order = pre ++ (row b, col b) :: post ∧
        emptyAt (row b, col b) ∧
        candidates b ≡ₚ getCandidates g (row b) (col b) size boxDims digits ∧
        (∀ p, p ∈ pre → emptyAt p →
              candidateCount (row b, col b) < candidateCount p ∧ 2 ≤ candidateCount p) ∧
        (2 ≤ candidateCount (row b, col b) →
         ∀ p, p ∈ post → emptyAt p → candidateCount (row b, col b) ≤ candidateCount p)
  end.

Lemma scanCells_spec todo : ∀ visited bestCell bestCount rnd,
  scanInv visited bestCell bestCount →
  scanPost (visited ++ todo)
    (scanCells g size boxDims digits todo bestCell bestCount rnd).1.
Proof.
  induction todo as [|[r c] todo IH]; intros visited bestCell bestCount rnd Hinv.
  - rewrite app_nil_r. cbn [scanCells fst].
    destruct Hinv as (Hb & Hvis & Hbest). destruct bestCell as [b|]; simpl.
    + destruct Hbest as (pre & post & -> & He & Hp & Hcnt & Hpre).
      exists pre, post. split_and!; [done|done|done| |].
      * intros p Hin Hemp. split; [by apply Hpre|].
        apply Hvis; [|done]. set_solver.
      * intros _ p Hin Hemp. destruct (Hvis p) as [_ Hle]; [set_solver|done|lia].
    + by destruct Hbest.
  - cbn [scanCells].
    replace (visited ++ (r, c) :: todo) with ((visited ++ [(r, c)]) ++ todo)
      by by rewrite <-app_assoc.
    destruct Hinv as (Hb & Hvis & Hbest).
    case_bool_decide as Hemp.
    { (* the cell is filled *)
      apply IH. split; [done|]. split.
      - intros p Hin He. snoc_cases p Hin; [auto|]. by destruct Hemp.
      - destruct bestCell as [b|].
        + destruct Hbest as (pre & post & -> & He & Hp & Hcnt & Hpre).
          exists pre, (post ++ [(r, c)]). rewrite <-app_assoc. simpl.
          split_and!; auto.
        + destruct Hbest as [-> Hnone]. split; [done|].
          intros p Hin. snoc_cases p Hin; auto. }
    set (cands := getCandidates g r c size boxDims digits).
    assert (candidateCount (r, c) = length cands) as Hcc by done.
    assert (∀ p, p ∈ visited → emptyAt p → 2 ≤ candidateCount p) as Hvis2.
    { intros p Hin He. by apply Hvis. }
    destruct (length cands =? 0) eqn:Hz.
    { (* no candidate: immediate return *)
      apply Nat.eqb_eq in Hz. cbn [fst scanPost row col candidates].
      exists visited, todo. rewrite <-app_assoc. simpl.
      split_and!; [done|done|done| |].
      - intros p Hin He. pose proof (Hvis2 p Hin He). lia.
      - lia. }
    apply Nat.eqb_neq in Hz.
    destruct (Z.of_nat (length cands) <? bestCount)%Z eqn:Hlt.
    + apply Z.ltb_lt in Hlt.
      destruct (shuffleArray cands rnd) as [shuffled rnd'] eqn:Hsh.
      assert (shuffled ≡ₚ cands) as Hperm.
      { replace shuffled with (shuffleArray cands rnd).1 by by rewrite Hsh.
        apply shuffleArray_Permutation. }
      assert (∀ p, p ∈ visited → emptyAt p → length cands < candidateCount p) as Hless.
      { intros p Hin He. destruct (Hvis p Hin He). lia. }
      destruct (Z.of_nat (length cands) =? 1)%Z eqn:H1.
      * (* a single candidate: immediate return *)
        apply Z.eqb_eq in H1. cbn [fst scanPost row col candidates].
        exists visited, todo. rewrite <-app_assoc. simpl.
        split_and!; [done|done|done| |].
        -- intros p Hin He. rewrite Hcc. split; [by apply Hless|by apply Hvis2].
        -- lia.
      * apply Z.eqb_neq in H1. apply IH. split; [lia|]. split.
        -- intros p Hin He. snoc_cases p Hin.
           ++ split; [by apply Hvis2|]. pose proof (Hless p Hin He). lia.
           ++ rewrite Hcc. lia.
        -- exists visited, []. cbn [row col candidates]. split_and!; auto.
    + apply Z.ltb_ge in Hlt. apply IH.
      assert (bestCell ≠ None) as Hsome.
      { intros ->. destruct Hbest as [-> _].
        pose proof (getCandidates_length size boxDims digits g r c) as Hlen.
        fold cands in Hlen. lia. }
      split; [done|]. split.
      * intros p Hin He. snoc_cases p Hin; [auto|].
        rewrite Hcc. lia.
      * destruct bestCell as [b|]; [|done].
        destruct Hbest as (pre & post & -> & He & Hp & Hcnt & Hpre).
        exists pre, (post ++ [(r, c)]). rewrite <-app_assoc. simpl.
        split_and!; auto.
Qed.

Lemma findBestCell_spec rnd :
  scanPost (scanOrder size) (findBestCell g size boxDims digits rnd).1.
Proof.
  apply (scanCells_spec (scanOrder size) []).
  split; [done|]. split; [set_solver|]. split; [done|set_solver].
Qed.
End selection.

(** ** The backtracking search *)

(** The number of empty cells of a grid. *)
Definition emptyCount (size : nat) (g : Grid) : nat :=
  length (filter (λ p, cell g p.1 p.2 = Some 0) (scanOrder size)).

Lemma filter_length_lt {A} (P Q : A → Prop) `{!∀ x, Decision (P x)} `{!∀ x, Decision (Q x)}
    (l : list A) (x : A) :
  (∀ y, Q y → P y) → x ∈ l → P x → ¬ Q x → length (filter Q l) < length (filter P l).
Proof.
  intros HQP Hin HP HQ. induction l as [|y l IH]; [by apply elem_of_nil in Hin|].
  assert (length (filter Q l) ≤ length (filter P l)) as Hle.
  { clear -HQP. induction l as [|z l IH]; [done|].
    rewrite !filter_cons. repeat case_decide; simpl; try lia. naive_solver. }
  rewrite !filter_cons. apply elem_of_cons in Hin as [<-|Hin].
  - destruct (decide (Q x)); [done|]. destruct (decide (P x)); [|done]. simpl. lia.
  - specialize (IH Hin). repeat case_decide; simpl; try lia. naive_solver.
Qed.

Section search.
Context (size : nat) (boxDims : BoxDimensions) (digits : list nat).
Hypothesis rows_pos : 0 < rows boxDims.
Hypothesis cols_pos : 0 < cols boxDims.
Hypothesis digits_small : (Z.of_nat (length digits) < MAX_SAFE_INTEGER)%Z.

Lemma findBestCell_None g rnd rnd' :
  findBestCell g size boxDims digits rnd = (None, rnd') → complete size g.
Proof.
  intros Hf r c Hr Hc. pose proof (findBestCell_spec size boxDims digits g digits_small rnd) as H.
  rewrite Hf in H. simpl in H. apply (H (r, c)). by apply elem_of_scanOrder.
Qed.

Lemma findBestCell_Some g rnd b rnd' :
  findBestCell g size boxDims digits rnd = (Some b, rnd') →
  row b < size ∧ col b < size ∧ cell g (row b) (col b) = Some 0 ∧
  ∀ num, num ∈ candidates b →
         isValid g (row b) (col b) num size boxDims = true ∧ num ∈ digits.
Proof.
  intros Hf. pose proof (findBestCell_spec size boxDims digits g digits_small rnd) as H.
  rewrite Hf in H. simpl in H. destruct H as (pre & post & Ho & He & Hp & _).
  assert ((row b, col b) ∈ scanOrder size) as [? ?]%elem_of_scanOrder.
  { rewrite Ho. set_solver. }
  split_and!; [done|done|done|].
  intros num Hn. rewrite Hp in Hn. by apply getCandidates_spec in Hn.
Qed.

Lemma emptyCount_setCell g row col num :
  wfGrid size g → row < size → col < size → cell g row col = Some 0 → num ≠ 0 →
  emptyCount size (setCell g row col num) < emptyCount size g.
Proof.
  intros Hwf Hr Hc H0 Hn. unfold emptyCount.
  apply filter_length_lt with (row, col); simpl; auto.
  - intros [r c]. simpl. rewrite cell_setCell. case_decide; [congruence|done].
  - by apply elem_of_scanOrder.
  - rewrite cell_setCell, decide_True by (rewrite H0; eauto). congruence.
Qed.

(** What a call of [solveSudoku] that returns leaves behind: on failure
    the grid as it was; on success a complete grid, consistent if the
    grid it started from was. *)
Definition solveOutcome (g : Grid) (res : bool * Grid * Rand) : Prop :=
  let '(b, g', _) := res in
  if b then
    consistent size boxDims g → valuesIn digits g →
    wfGrid size g' ∧ consistent size boxDims g' ∧ valuesIn digits g' ∧ complete size g'
  else g' = g.

Lemma tryCandidates_outcome solve row col cands : ∀ g rnd res,
  (∀ g rnd res, wfGrid size g → solve g rnd = Some res → solveOutcome g res) →
  wfGrid size g → row < size → col < size → cell g row col = Some 0 →
  (∀ num, num ∈ cands → isValid g row col num size boxDims = true ∧ num ∈ digits) →
  tryCandidates solve row col cands g rnd = Some res →
  solveOutcome g res.
Proof.
  induction cands as [|num cands IH]; intros g rnd res Hsolve Hwf Hr Hc H0 Hcands.
  - intros [= <-]. done.
  - cbn [tryCandidates].
    destruct (solve (setCell g row col num) rnd) as [[[b g1] rnd1]|] eqn:Hs; [|done].
    pose proof (Hsolve _ _ _ (wfGrid_setCell _ _ _ _ _ Hwf) Hs) as Hout.
    destruct (Hcands num) as [Hv Hd]; [set_solver|].
    destruct b.
    + intros [= <-]. simpl in *. intros Hcons Hvals. apply Hout.
      * by apply consistent_setCell.
      * apply valuesIn_setCell; auto.
    + simpl in Hout. subst g1. rewrite (setCell_restore size) by done.
      apply IH; auto. intros n Hn. apply Hcands. set_solver.
Qed.

Lemma solveSudokuFuel_outcome fuel : ∀ g rnd res,
  wfGrid size g →
  solveSudokuFuel fuel size boxDims digits g rnd = Some res → solveOutcome g res.
Proof.
  induction fuel as [|fuel IH]; intros g rnd res Hwf; [done|].
  cbn [solveSudokuFuel].
  destruct (findBestCell g size boxDims digits rnd) as [[b|] rnd1] eqn:Hf.
  - apply findBestCell_Some in Hf as (Hr & Hc & H0 & Hcands).
    by apply tryCandidates_outcome.
  - intros [= <-]. simpl. intros Hcons Hvals. split_and!; try done.
    by eapply findBestCell_None.
Qed.

Lemma tryCandidates_terminates solve row col cands : ∀ g rnd,
  (∀ g rnd res, wfGrid size g → solve g rnd = Some res → solveOutcome g res) →
  (∀ g' rnd, wfGrid size g' → emptyCount size g' < emptyCount size g → is_Some (solve g' rnd)) →
  wfGrid size g → row < size → col < size → cell g row col = Some 0 →
  (∀ num, num ∈ cands → isValid g row col num size boxDims = true ∧ num ∈ digits) →
  is_Some (tryCandidates solve row col cands g rnd).
Proof.
  induction cands as [|num cands IH]; intros g rnd Hout Hsolve Hwf Hr Hc H0 Hcands.
  - cbn. eauto.
  - cbn [tryCandidates]. destruct (Hcands num) as [Hv Hd]; [set_solver|].
    assert (num ≠ 0) as Hn by by eapply isValid_nonzero.
    destruct (Hsolve (setCell g row col num) rnd) as [[[b g1] rnd1] Hs].
    { by apply wfGrid_setCell. }
    { by apply emptyCount_setCell. }
    rewrite Hs. destruct b; [eauto|].
    pose proof (Hout _ _ _ (wfGrid_setCell _ _ _ _ _ Hwf) Hs) as Hg1.
    simpl in Hg1. subst g1. rewrite (setCell_restore size) by done.
    apply IH; auto. intros n Hn'. apply Hcands. set_solver.
Qed.

Lemma solveSudokuFuel_terminates fuel : ∀ g rnd,
  wfGrid size g → emptyCount size g < fuel →
  is_Some (solveSudokuFuel fuel size boxDims digits g rnd).
Proof.
  induction fuel as [|fuel IH]; intros g rnd Hwf Hlt; [lia|].
  cbn [solveSudokuFuel].
  destruct (findBestCell g size boxDims digits rnd) as [[b|] rnd1] eqn:Hf; [|eauto].
  apply findBestCell_Some in Hf as (Hr & Hc & H0 & Hcands).
  apply tryCandidates_terminates; auto.
  - intros. by eapply solveSudokuFuel_outcome.
  - intros g' rnd' Hwf' Hlt'. apply IH; [done|lia].
Qed.

Lemma emptyCount_le g : emptyCount size g ≤ size * size.
Proof.
  unfold emptyCount. etrans; [apply length_filter|]. by rewrite length_scanOrder.
Qed.

Lemma solveSudoku_terminates g rnd :
  wfGrid size g → is_Some (solveSudoku g size boxDims digits rnd).
Proof.
  intros Hwf. apply solveSudokuFuel_terminates; [done|].
  pose proof (emptyCount_le g). lia.
Qed.
End search.

(** ** Seeding the diagonal boxes *)

Ltac solve_decide :=
  repeat first
    [ rewrite decide_True by (repeat split; try done; lia)
    | rewrite decide_False by (intros ?; destruct_and?; simplify_eq; (lia || done)) ].

Lemma box_index_inj n a b a' b' :
  a * n + b = a' * n + b' → b < n → b' < n → a = a' ∧ b = b'.
Proof.
  intros Heq Hb Hb'.
  assert (a = a') as ->; [|lia].
  rewrite (Nat.div_unique (a * n + b) n a b) by lia.
  rewrite (Nat.div_unique (a * n + b) n a' b') by lia. done.
Qed.

Lemma div_block n k i : k * n ≤ i < k * n + n → i / n = k.
Proof. intros Hi. symmetry. apply Nat.div_unique with (i - k * n); lia. Qed.

Lemma div_below n k i : 0 < n → i < k * n → i / n < k.
Proof. intros Hn Hi. apply Nat.Div0.div_lt_upper_bound; lia. Qed.

Section seeding.
Context (size : nat) (boxDims : BoxDimensions) (digits : list nat).
Hypothesis rows_pos : 0 < rows boxDims.
Hypothesis cols_pos : 0 < cols boxDims.
Hypothesis box_cells : rows boxDims * cols boxDims = size.
Hypothesis box_shape : rows boxDims ≤ cols boxDims.
Hypothesis digits_length : length digits = size.
Hypothesis digits_NoDup : NoDup digits.
Hypothesis digits_nonzero : 0 ∉ digits.

(** The inner loop of [fillBox], over the columns [a .. a + k - 1] of
    the box row [R]. *)
Lemma fillBox_inner (numbers : list nat) R col k : ∀ a g n,
  wfGrid size g → R < size → col + a + k ≤ size →
  ∃ g', foldl (λ '(g, numIndex) j,
                 (setCell g R (col + j) (default 0 (numbers !! numIndex)), S numIndex))
              (g, n) (seq a k) = (g', n + k) ∧
        wfGrid size g' ∧
        ∀ r c, cell g' r c =
               if decide (r = R ∧ col + a ≤ c < col + a + k)
               then Some (default 0 (numbers !! (n + (c - col - a))))
               else cell g r c.
Proof.
  induction k as [|k IH]; intros a g n Hwf HR Hk.
  - exists g. rewrite Nat.add_0_r. split_and!; [done..|].
    intros r c. rewrite decide_False; [done|lia].
  - cbn [seq foldl].
    destruct (IH (S a) (setCell g R (col + a) (default 0 (numbers !! n))) (S n))
      as (g' & Hf & Hwf' & Hc); [by apply wfGrid_setCell|done|lia|].
    exists g'. rewrite Hf. split_and!; [f_equal; lia|done|].
    intros r c. rewrite Hc, cell_setCell.
    assert (is_Some (cell g R (col + a))) as His by (apply (cell_is_Some size); [done|done|lia]).
    destruct (decide (r = R)) as [->|]; [|by solve_decide].
    destruct (decide (c = col + a)) as [->|].
    { solve_decide. do 3 f_equal. lia. }
    destruct (decide (col + S a ≤ c < col + S a + k)); solve_decide; [|done].
    do 3 f_equal. lia.
Qed.

(** The two loops of [fillBox], over the box rows [b .. b + m - 1]. *)
Lemma fillBox_outer (numbers : list nat) row col m : ∀ b g n,
  wfGrid size g → row + b + m ≤ size → col + cols boxDims ≤ size →
  ∃ g', foldl (λ '(g, numIndex) i,
          foldl (λ '(g, numIndex) j,
              (setCell g (row + i) (col + j) (default 0 (numbers !! numIndex)), S numIndex))
            (g, numIndex) (seq 0 (cols boxDims)))
        (g, n) (seq b m) = (g', n + m * cols boxDims) ∧
        wfGrid size g' ∧
        ∀ r c, cell g' r c =
               if decide (row + b ≤ r < row + b + m ∧ col ≤ c < col + cols boxDims)
               then Some (default 0 (numbers !! (n + (r - row - b) * cols boxDims + (c - col))))
               else cell g r c.
Proof.
  induction m as [|m IH]; intros b g n Hwf Hm Hc.
  - exists g. simpl. rewrite Nat.add_0_r. split_and!; [done..|].
    intros r c. rewrite decide_False; [done|lia].
  - cbn [seq foldl].
    destruct (fillBox_inner numbers (row + b) col (cols boxDims) 0 g n)
      as (g1 & Hf1 & Hwf1 & Hc1); [done|lia|lia|].
    rewrite Hf1.
    destruct (IH (S b) g1 (n + cols boxDims)) as (g' & Hf & Hwf' & Hc'); [done|lia|done|].
    exists g'. rewrite Hf. split_and!; [f_equal; lia|done|].
    intros r c. rewrite Hc', Hc1.
    destruct (decide (row + b ≤ r < row + b + S m ∧ col ≤ c < col + cols boxDims))
      as [[Hr Hcc]|Hn].
    + destruct (decide (r = row + b)) as [->|Hne].
      * rewrite decide_False by lia. rewrite decide_True by lia.
        do 3 f_equal. replace (row + b - row - b) with 0 by lia. lia.
      * rewrite decide_True by lia. do 3 f_equal.
        replace (r - row - b) with (S (r - row - S b)) by lia. lia.
    + rewrite decide_False by lia. rewrite decide_False by lia. done.
Qed.

(** [fillBox] writes a permutation of the digits into the box, row by
    row, and nothing else. *)
Lemma fillBox_cells g row col rnd :
  wfGrid size g → row + rows boxDims ≤ size → col + cols boxDims ≤ size →
  ∃ numbers, numbers ≡ₚ digits ∧
    wfGrid size (fillBox g row col boxDims digits rnd).1 ∧
    ∀ r c, cell (fillBox g row col boxDims digits rnd).1 r c =
           if decide (row ≤ r < row + rows boxDims ∧ col ≤ c < col + cols boxDims)
           then Some (default 0 (numbers !! ((r - row) * cols boxDims + (c - col))))
           else cell g r c.
Proof.
  intros Hwf Hr Hc. unfold fillBox.
  destruct (shuffleArray digits rnd) as [numbers rnd'] eqn:Hsh.
  exists numbers. split.
  { replace numbers with (shuffleArray digits rnd).1 by by rewrite Hsh.
    apply shuffleArray_Permutation. }
  destruct (fillBox_outer numbers row col (rows boxDims) 0 g 0)
    as (g' & Hf & Hwf' & Hc'); [done|lia|done|].
  rewrite Hf. simpl. split; [done|].
  intros r c. rewrite Hc'. rewrite !Nat.add_0_r, Nat.sub_0_r. done.
Qed.

(** The state of the grid after the first [k] diagonal boxes were
    filled: it is consistent, and all its digits are in the top-left
    [k] by [k] boxes. *)
Definition seeded (k : nat) (g : Grid) : Prop :=
  wfGrid size g ∧ consistent size boxDims g ∧ valuesIn digits g ∧
  ∀ r c v, cell g r c = Some v → v ≠ 0 → r < k * rows boxDims ∧ c < k * cols boxDims.

Lemma seeded_fillBox k g rnd :
  seeded k g →
  k * rows boxDims + rows boxDims ≤ size → k * cols boxDims + cols boxDims ≤ size →
  seeded (S k) (fillBox g (k * rows boxDims) (k * cols boxDims) boxDims digits rnd).1.
Proof.
  intros (Hwf & Hcons & Hvals & Hcorner) Hr Hc.
  destruct (fillBox_cells g (k * rows boxDims) (k * cols boxDims) rnd)
    as (numbers & Hperm & Hwf' & Hcell); [done..|].
  set (g' := (fillBox g (k * rows boxDims) (k * cols boxDims) boxDims digits rnd).1) in *.
  assert (NoDup numbers) as Hnd by by rewrite Hperm.
  assert (∀ r c, k * rows boxDims ≤ r < k * rows boxDims + rows boxDims →
                 k * cols boxDims ≤ c < k * cols boxDims + cols boxDims →
            ∃ x, numbers !! ((r - k * rows boxDims) * cols boxDims + (c - k * cols boxDims))
                 = Some x ∧ x ∈ digits ∧ x ≠ 0) as Hnum.
  { intros r c Hr' Hc'.
    destruct (lookup_lt_is_Some_2 numbers
                ((r - k * rows boxDims) * cols boxDims + (c - k * cols boxDims)))
      as [x Hx].
    { rewrite Hperm, digits_length, <-box_cells.
      assert (r - k * rows boxDims < rows boxDims) as H1 by lia.
      assert (c - k * cols boxDims < cols boxDims) as H2 by lia.
      revert H1 H2. generalize (r - k * rows boxDims) (c - k * cols boxDims).
      intros. nia. }
    exists x. split; [done|].
    assert (x ∈ digits) as Hin.
    { rewrite <-Hperm. by eapply list_elem_of_lookup_2. }
    split; [done|]. by intros ->. }
  split_and!.
  - done.
  - intros r1 c1 r2 c2 v Hr1 Hc1 Hr2 Hc2 Hne Hp. rewrite !Hcell.
    destruct (decide (k * rows boxDims ≤ r1 < k * rows boxDims + rows boxDims ∧
                      k * cols boxDims ≤ c1 < k * cols boxDims + cols boxDims))
      as [[Hb1r Hb1c]|Hout1];
    destruct (decide (k * rows boxDims ≤ r2 < k * rows boxDims + rows boxDims ∧
                      k * cols boxDims ≤ c2 < k * cols boxDims + cols boxDims))
      as [[Hb2r Hb2c]|Hout2].
    + destruct (Hnum r1 c1) as (x1 & Hx1 & _); [done..|].
      destruct (Hnum r2 c2) as (x2 & Hx2 & _); [done..|].
      rewrite Hx1, Hx2. simpl. intros [= <-] _ [= ->].
      pose proof (NoDup_lookup _ _ _ _ Hnd Hx1 Hx2) as Hidx.
      apply box_index_inj in Hidx as [? ?]; [|lia..].
      apply Hne. f_equal; lia.
    + intros _ Hv0 Hv2. destruct (Hcorner _ _ _ Hv2 Hv0) as [Hlr Hlc].
      destruct Hp as [->|[->|[Hbr _]]]; [lia..|].
      rewrite (div_block _ k r1) in Hbr by done.
      pose proof (div_below (rows boxDims) k r2 rows_pos Hlr). lia.
    + intros Hv1 Hv0 _. destruct (Hcorner _ _ _ Hv1 Hv0) as [Hlr Hlc].
      destruct Hp as [->|[->|[Hbr _]]]; [lia..|].
      rewrite (div_block _ k r2) in Hbr by done.
      pose proof (div_below (rows boxDims) k r1 rows_pos Hlr). lia.
    + by apply Hcons.
  - intros r c v. rewrite Hcell. case_decide as Hin; [|by apply Hvals].
    destruct Hin as [Hir Hic]. destruct (Hnum r c) as (x & Hx & Hd & _); [done..|].
    rewrite Hx. simpl. intros [= <-]. by right.
  - intros r c v. rewrite Hcell. case_decide as Hin.
    + intros _ _. simpl. lia.
    + intros Hv Hv0. destruct (Hcorner _ _ _ Hv Hv0). simpl. lia.
Qed.

(** The inner loop of [fillDiagonalBoxes] fills the box on the diagonal
    of the box row, if there is one. *)
Lemma fillDiagonal_inner boxRow n : ∀ a g rnd,
  foldl (λ '(g, rnd) boxCol,
           if bool_decide (boxRow = boxCol) then
             fillBox g (boxRow * rows boxDims) (boxCol * cols boxDims) boxDims digits rnd
           else (g, rnd))
        (g, rnd) (seq a n)
  = if decide (a ≤ boxRow < a + n)
    then fillBox g (boxRow * rows boxDims) (boxRow * cols boxDims) boxDims digits rnd
    else (g, rnd).
Proof.
  induction n as [|n IH]; intros a g rnd.
  - simpl. by rewrite decide_False by lia.
  - cbn [seq foldl]. case_bool_decide as Ha.
    + subst a. destruct (fillBox _ _ _ _ _ _) as [g1 rnd1].
      rewrite IH. rewrite decide_False by lia. by rewrite decide_True by lia.
    + rewrite IH. destruct (decide (S a ≤ boxRow < S a + n)).
      * by rewrite decide_True by lia.
      * by rewrite decide_False by lia.
Qed.

Lemma fillDiagonal_outer boxesPerRow m : ∀ b g rnd,
  seeded b g → b + m ≤ boxesPerRow →
  boxesPerRow * rows boxDims ≤ size → boxesPerRow * cols boxDims ≤ size →
  seeded (b + m)
    (foldl (λ '(g, rnd) boxRow,
       foldl (λ '(g, rnd) boxCol,
           if bool_decide (boxRow = boxCol) then
             fillBox g (boxRow * rows boxDims) (boxCol * cols boxDims) boxDims digits rnd
           else (g, rnd))
         (g, rnd) (seq 0 boxesPerRow))
       (g, rnd) (seq b m)).1.
Proof.
  induction m as [|m IH]; intros b g rnd Hs Hm Hr Hc.
  - by rewrite Nat.add_0_r.
  - cbn [seq foldl]. rewrite fillDiagonal_inner. rewrite decide_True by lia.
    pose proof (seeded_fillBox b g rnd Hs) as Hs'.
    destruct (fillBox _ _ _ _ _ _) as [g1 rnd1]. simpl in Hs'.
    replace (b + S m) with (S b + m) by lia. apply IH; [|lia|done|done].
    apply Hs'; nia.
Qed.

Lemma fillDiagonalBoxes_seeded g rnd :
  seeded 0 g →
  seeded (size / cols boxDims) (fillDiagonalBoxes g size boxDims digits rnd).1.
Proof.
  intros Hs. unfold fillDiagonalBoxes.
  assert (size / cols boxDims = rows boxDims) as Hbpr.
  { rewrite <-box_cells. apply Nat.div_mul. lia. }
  apply (fillDiagonal_outer (size / cols boxDims) (size / cols boxDims) 0); [done|lia|..].
  - rewrite Hbpr. nia.
  - rewrite Hbpr. lia.
Qed.

Lemma wfGrid_zeroGrid g : wfGrid size g → wfGrid size (zeroGrid g).
Proof.
  intros [Hl Hr]. unfold zeroGrid. split; [by rewrite length_fmap|].
  apply Forall_fmap. eapply Forall_impl; [done|].
  intros row Hrow. simpl. by rewrite length_replicate.
Qed.

Lemma cell_zeroGrid g r c v : cell (zeroGrid g) r c = Some v → v = 0.
Proof.
  unfold cell, zeroGrid. rewrite list_lookup_fmap.
  destruct (g !! r) as [row|]; [|done]. simpl.
  by intros [-> _]%lookup_replicate.
Qed.

Lemma seeded_zeroGrid g : wfGrid size g → seeded 0 (zeroGrid g).
Proof.
  intros Hwf. split_and!.
  - by apply wfGrid_zeroGrid.
  - intros r1 c1 r2 c2 v _ _ _ _ _ _ Hv Hv0. by apply cell_zeroGrid in Hv.
  - intros r c v Hv. left. by eapply cell_zeroGrid.
  - intros r c v Hv Hv0. by apply cell_zeroGrid in Hv.
Qed.
End seeding.

(** ** Complete grids *)

(** The coordinates of the cells of a row, of a column and of a box. *)
Definition rowCells (size r : nat) : list (nat * nat) := (λ c, (r, c)) <$> seq 0 size.
Definition colCells (size c : nat) : list (nat * nat) := (λ r, (r, c)) <$> seq 0 size.
Definition boxCells (boxDims : BoxDimensions) (br bc : nat) : list (nat * nat) :=
  i ← seq 0 (rows boxDims);
  (λ j, (br * rows boxDims + i, bc * cols boxDims + j)) <$> seq 0 (cols boxDims).

(** The contents of the given cells of a grid. *)
Definition valuesAt (g : Grid) (ps : list (nat * nat)) : list nat :=
  omap (λ p, cell g p.1 p.2) ps.

(** A Solution: every row, every column and every box holds each of the
    digits [1..size] exactly once. *)
Definition validSolution (size : nat) (boxDims : BoxDimensions) (g : Grid) : Prop :=
  wfGrid size g ∧
  (∀ r, r < size → valuesAt g (rowCells size r) ≡ₚ getDigits size) ∧
  (∀ c, c < size → valuesAt g (colCells size c) ≡ₚ getDigits size) ∧
  (∀ br bc, br < size / rows boxDims → bc < size / cols boxDims →
            valuesAt g (boxCells boxDims br bc) ≡ₚ getDigits size).

Lemma getDigits_length size : length (getDigits size) = size.
Proof. unfold getDigits. by rewrite length_fmap, length_seq. Qed.

Lemma elem_of_getDigits size d : d ∈ getDigits size ↔ 1 ≤ d ≤ size.
Proof.
  unfold getDigits. rewrite list_elem_of_fmap. split.
  - intros (i & -> & Hi%elem_of_seq). lia.
  - intros Hd. exists (d - 1). split; [lia|]. apply elem_of_seq. lia.
Qed.

Lemma getDigits_NoDup size : NoDup (getDigits size).
Proof.
  unfold getDigits. apply NoDup_fmap_2; [|apply NoDup_seq].
  intros i j. lia.
Qed.

Section units.
Context (size : nat) (boxDims : BoxDimensions) (digits : list nat) (g : Grid).
Hypothesis rows_pos : 0 < rows boxDims.
Hypothesis cols_pos : 0 < cols boxDims.
Hypothesis box_cells : rows boxDims * cols boxDims = size.
Hypothesis digits_length : length digits = size.
Hypothesis digits_NoDup : NoDup digits.
Hypothesis g_wf : wfGrid size g.
Hypothesis g_consistent : consistent size boxDims g.
Hypothesis g_values : valuesIn digits g.
Hypothesis g_complete : complete size g.

Definition inGrid (p : nat * nat) : Prop := p.1 < size ∧ p.2 < size.

Lemma valuesAt_unit ps :
  NoDup ps → Forall inGrid ps →
  (∀ p q, p ∈ ps → q ∈ ps → peers boxDims p.1 p.2 q.1 q.2) →
  NoDup (valuesAt g ps) ∧ length (valuesAt g ps) = length ps ∧
  ∀ v, v ∈ valuesAt g ps → v ∈ digits.
Proof.
  induction ps as [|[r c] ps IH]; intros Hnd Hin Hpeers.
  { split_and!; [constructor|done|]. intros v Hv. by apply elem_of_nil in Hv. }
  apply NoDup_cons in Hnd as [Hnotin Hnd]. apply Forall_cons in Hin as [[Hr Hc] Hin].
  simpl in Hr, Hc. destruct IH as (IH1 & IH2 & IH3); [done|done|set_solver|].
  destruct (cell_is_Some size g r c) as [v Hv]; [done..|].
  assert (v ≠ 0) as Hv0 by (intros ->; by apply (g_complete r c)).
  unfold valuesAt in *. cbn [omap list_omap]. simpl. rewrite Hv.
  split_and!.
  - apply NoDup_cons. split; [|done].
    intros ([r' c'] & Hq & Hv')%list_elem_of_omap. simpl in Hv'.
    rewrite Forall_forall in Hin. destruct (Hin _ Hq) as [Hr' Hc']. simpl in *.
    apply (g_consistent r c r' c' v); auto.
    + intros [= -> ->]. done.
    + apply (Hpeers (r, c) (r', c')); set_solver.
  - simpl. by rewrite IH2.
  - intros w [->|Hw]%elem_of_cons; [|by apply IH3].
    destruct (g_values r c v Hv); [done|done].
Qed.

Lemma valuesAt_Permutation ps :
  NoDup ps → Forall inGrid ps → length ps = size →
  (∀ p q, p ∈ ps → q ∈ ps → peers boxDims p.1 p.2 q.1 q.2) →
  valuesAt g ps ≡ₚ digits.
Proof.
  intros Hnd Hin Hlen Hpeers.
  destruct (valuesAt_unit ps Hnd Hin Hpeers) as (H1 & H2 & H3).
  apply submseteq_length_Permutation; [by apply NoDup_submseteq|].
  rewrite H2, Hlen, digits_length. done.
Qed.

Lemma rowCells_Permutation r : r < size → valuesAt g (rowCells size r) ≡ₚ digits.
Proof.
  intros Hr. unfold rowCells. apply valuesAt_Permutation.
  - apply NoDup_fmap_2; [|apply NoDup_seq]. by intros ?? [= ->].
  - apply Forall_fmap, Forall_forall. intros c Hc%elem_of_seq. split; simpl; lia.
  - by rewrite length_fmap, length_seq.
  - intros p q (? & -> & _)%list_elem_of_fmap (? & -> & _)%list_elem_of_fmap. by left.
Qed.

Lemma colCells_Permutation c : c < size → valuesAt g (colCells size c) ≡ₚ digits.
Proof.
  intros Hc. unfold colCells. apply valuesAt_Permutation.
  - apply NoDup_fmap_2; [|apply NoDup_seq]. by intros ?? [= ->].
  - apply Forall_fmap, Forall_forall. intros r Hr%elem_of_seq. split; simpl; lia.
  - by rewrite length_fmap, length_seq.
  - intros p q (? & -> & _)%list_elem_of_fmap (? & -> & _)%list_elem_of_fmap.
    right. by left.
Qed.

Lemma elem_of_boxCells br bc p :
  p ∈ boxCells boxDims br bc ↔
    ∃ i j, i < rows boxDims ∧ j < cols boxDims ∧
           p = (br * rows boxDims + i, bc * cols boxDims + j).
Proof.
  unfold boxCells. rewrite list_elem_of_bind. split.
  - intros (i & (j & -> & Hj%elem_of_seq)%list_elem_of_fmap & Hi%elem_of_seq).
    exists i, j. split_and!; [lia|lia|done].
  - intros (i & j & Hi & Hj & ->). exists i. split.
    + apply list_elem_of_fmap. exists j. split; [done|]. apply elem_of_seq. lia.
    + apply elem_of_seq. lia.
Qed.

Lemma boxCells_Permutation br bc :
  br < size / rows boxDims → bc < size / cols boxDims →
  valuesAt g (boxCells boxDims br bc) ≡ₚ digits.
Proof.
  intros Hbr Hbc.
  assert (size / rows boxDims = cols boxDims) as Hdr.
  { rewrite <-box_cells, Nat.mul_comm. apply Nat.div_mul. lia. }
  assert (size / cols boxDims = rows boxDims) as Hdc.
  { rewrite <-box_cells. apply Nat.div_mul. lia. }
  apply valuesAt_Permutation.
  - unfold boxCells. apply NoDup_bind.
    + intros i1 i2 p _ _ (j1 & -> & _)%list_elem_of_fmap (j2 & [= ? ?] & _)%list_elem_of_fmap.
      lia.
    + intros i _. apply NoDup_fmap_2; [|apply NoDup_seq]. intros ?? [= ?]. lia.
    + apply NoDup_seq.
  - apply Forall_forall. intros p (i & j & Hi & Hj & ->)%elem_of_boxCells.
    split; simpl; nia.
  - unfold boxCells.
    assert (∀ l : list nat,
      length (l ≫= λ i, (λ j, (br * rows boxDims + i, bc * cols boxDims + j))
                          <$> seq 0 (cols boxDims)) = length l * cols boxDims) as H.
    { induction l as [|x l IH]; [done|].
      rewrite bind_cons, length_app, length_fmap, length_seq, IH. simpl. lia. }
    rewrite H, length_seq. done.
  - intros p q (i & j & Hi & Hj & ->)%elem_of_boxCells
             (i' & j' & Hi' & Hj' & ->)%elem_of_boxCells.
    right. right. simpl.
    rewrite !(div_block _ br), !(div_block _ bc) by lia. done.
Qed.
End units.

(** ** The synthesizer *)

(** A grid the search can return: complete, consistent, made of digits. *)
Definition solved (size : nat) (boxDims : BoxDimensions) (g : Grid) : Prop :=
  wfGrid size g ∧ consistent size boxDims g ∧
  valuesIn (getDigits size) g ∧ complete size g.

Section synthesis.
Context (size : nat) (boxDims : BoxDimensions).
Hypothesis rows_pos : 0 < rows boxDims.
Hypothesis cols_pos : 0 < cols boxDims.
Hypothesis box_cells : rows boxDims * cols boxDims = size.
Hypothesis box_shape : rows boxDims ≤ cols boxDims.
Hypothesis size_small : (Z.of_nat size < MAX_SAFE_INTEGER)%Z.

Lemma getDigits_nonzero : 0 ∉ getDigits size.
Proof. rewrite elem_of_getDigits. lia. Qed.

Lemma attempt_outcome g rnd :
  wfGrid size g →
  ∃ b g' rnd', attempt g size boxDims (getDigits size) rnd = Some (b, g', rnd') ∧
               wfGrid size g' ∧ (b = true → solved size boxDims g').
Proof.
  intros Hwf. unfold attempt.
  pose proof (fillDiagonalBoxes_seeded size boxDims (getDigits size) rows_pos cols_pos
    box_cells box_shape (getDigits_length size) (getDigits_NoDup size) getDigits_nonzero
    (zeroGrid g) rnd (seeded_zeroGrid size boxDims (getDigits size) g Hwf)) as Hs.
  destruct (fillDiagonalBoxes _ _ _ _ _) as [g1 rnd1]. simpl in Hs.
  destruct Hs as (Hwf1 & Hcons1 & Hvals1 & _).
  assert (Z.of_nat (length (getDigits size)) < MAX_SAFE_INTEGER)%Z as Hsmall
    by by rewrite getDigits_length.
  destruct (solveSudoku_terminates size boxDims (getDigits size) rows_pos cols_pos Hsmall
              g1 rnd1 Hwf1) as [[[b g'] rnd'] Hsolve].
  exists b, g', rnd'. split; [done|].
  pose proof (solveSudokuFuel_outcome size boxDims (getDigits size) rows_pos cols_pos Hsmall
                _ _ _ _ Hwf1 Hsolve) as Hout.
  simpl in Hout. destruct b.
  - destruct (Hout Hcons1 Hvals1) as (? & ? & ? & ?). split; [done|]. by intros _.
  - subst g'. split; [done|]. done.
Qed.

Lemma solved_validSolution g :
  solved size boxDims g → validSolution size boxDims g.
Proof.
  intros (Hwf & Hcons & Hvals & Hcomp). split_and!; [done|..].
  - intros r Hr. eapply rowCells_Permutation; eauto using getDigits_length, getDigits_NoDup.
  - intros c Hc. eapply colCells_Permutation; eauto using getDigits_length, getDigits_NoDup.
  - intros br bc Hbr Hbc.
    eapply boxCells_Permutation; eauto using getDigits_length, getDigits_NoDup.
Qed.

(** The retry loop: either some pass among the first [n] succeeds, and the
    loop returns the grid of the first one that does, or all [n] fail and
    the loop throws. *)
Lemma attemptLoop_outcome n : ∀ g rnd,
  wfGrid size g →
  (∃ k g' rnd', k < n ∧
     nthAttempt k g size boxDims (getDigits size) rnd = Some (true, g', rnd') ∧
     attemptLoop n g size boxDims (getDigits size) rnd = Some (Ok g', rnd') ∧
     solved size boxDims g') ∨
  ((∀ k, k < n →
      ∃ g' rnd', nthAttempt k g size boxDims (getDigits size) rnd = Some (false, g', rnd')) ∧
   ∃ rnd', attemptLoop n g size boxDims (getDigits size) rnd
           = Some (Throw GenerationFailure, rnd')).
Proof.
  induction n as [|n IH]; intros g rnd Hwf.
  - right. split; [lia|]. by eexists.
  - destruct (attempt_outcome g rnd Hwf) as (b & g1 & rnd1 & Ha & Hwf1 & Hsolved).
    destruct b.
    + left. exists 0, g1, rnd1. cbn [nthAttempt attemptLoop]. rewrite Ha.
      split_and!; [lia|done|done|by apply Hsolved].
    + destruct (IH g1 rnd1 Hwf1) as [(k & g' & rnd' & Hk & Hn & Hl & Hs)|[Hall [rnd' Hl]]].
      * left. exists (S k), g', rnd'. cbn [nthAttempt attemptLoop]. rewrite Ha.
        split_and!; [lia|done..].
      * right. split.
        -- intros [|k] Hk; cbn [nthAttempt]; [by eauto|]. rewrite Ha. apply Hall. lia.
        -- exists rnd'. cbn [attemptLoop]. by rewrite Ha.
Qed.
End synthesis.

Lemma wfGrid_initial size : wfGrid size (replicate size (replicate size 0)).
Proof.
  split; [by rewrite length_replicate|].
  apply Forall_replicate. by rewrite length_replicate.
Qed.

Lemma VALID_SIZES_cases size : size ∈ VALID_SIZES → size = 4 ∨ size = 6 ∨ size = 9.
Proof. unfold VALID_SIZES. set_solver. Qed.

Lemma isValidSize_spec size : isValidSize size = true ↔ size ∈ VALID_SIZES.
Proof.
  unfold isValidSize. rewrite existsb_exists. setoid_rewrite Nat.eqb_eq.
  setoid_rewrite <-list_elem_of_In. naive_solver.
Qed.

(** The facts about the box shapes that the proofs rest on. *)
Lemma supported_size size :
  size ∈ VALID_SIZES →
  ∃ boxDims, getBoxDimensions size = Ok boxDims ∧
    0 < rows boxDims ∧ 0 < cols boxDims ∧ rows boxDims * cols boxDims = size ∧
    rows boxDims ≤ cols boxDims ∧ (Z.of_nat size < MAX_SAFE_INTEGER)%Z.
Proof.
  intros H%VALID_SIZES_cases. destruct H as [H|[H|H]]; subst size;
    eexists; (split; [reflexivity|]); simpl; unfold MAX_SAFE_INTEGER; lia.
Qed.

Lemma generateSudoku_unfold size boxDims rnd :
  size ∈ VALID_SIZES → getBoxDimensions size = Ok boxDims →
  generateSudoku size rnd =
    attemptLoop maxAttempts (replicate size (replicate size 0)) size boxDims
                (getDigits size) rnd.
Proof.
  intros Hs%isValidSize_spec Hb. unfold generateSudoku, assertValidSize.
  by rewrite Hs, Hb.
Qed.

(** [generateSudoku] always returns or throws: the search never exceeds the
    recursion budget of the embedding. *)
Lemma generateSudoku_total size rnd : is_Some (generateSudoku size rnd).
Proof.
  destruct (decide (size ∈ VALID_SIZES)) as [Hin|Hout].
  - destruct (supported_size size Hin) as (bd & Hbd & ? & ? & ? & ? & ?).
    rewrite (generateSudoku_unfold size bd) by done.
    destruct (attemptLoop_outcome size bd ltac:(done) ltac:(done) ltac:(done) ltac:(done)
                ltac:(done) maxAttempts _ rnd (wfGrid_initial size))
      as [(k & g' & rnd' & _ & _ & -> & _)|[_ [rnd' ->]]]; eauto.
  - unfold generateSudoku, assertValidSize.
    destruct (isValidSize size) eqn:Hv; [by apply isValidSize_spec in Hv|eauto].
Qed.

(** C1: for every supported size and every sequence of random choices, the
    grid returned by [generateSudoku] has every row, every column and every
    box containing each digit [1..size] exactly once; in particular it has
    no empty cell. *)
Theorem generateSudoku_valid size rnd g rnd' :
  size ∈ VALID_SIZES →
  generateSudoku size rnd = Some (Ok g, rnd') →
  ∃ boxDims, getBoxDimensions size = Ok boxDims ∧
             validSolution size boxDims g ∧ complete size g.
Proof.
  intros Hin Hgen.
  destruct (supported_size size Hin) as (bd & Hbd & Hr & Hc & Hrc & Hle & Hsmall).
  exists bd. split; [done|].
  rewrite (generateSudoku_unfold size bd) in Hgen by done.
  destruct (attemptLoop_outcome size bd Hr Hc Hrc Hle Hsmall maxAttempts _ rnd
              (wfGrid_initial size))
    as [(k & g' & rnd1 & _ & _ & Hl & Hs)|[_ [rnd1 Hl]]];
    rewrite Hl in Hgen; [|done].
  injection Hgen as -> ->. split; [by apply solved_validSolution|].
  by destruct Hs as (_ & _ & _ & ?).
Qed.

Lemma generateSudoku_valid_witness :
  ∃ boxDims, getBoxDimensions 4 = Ok boxDims ∧
    validSolution 4 boxDims [[2; 3; 1; 4]; [4; 1; 3; 2]; [1; 4; 2; 3]; [3; 2; 4; 1]] ∧
    complete 4 [[2; 3; 1; 4]; [4; 1; 3; 2]; [1; 4; 2; 3]; [3; 2; 4; 1]].
Proof.
  apply (generateSudoku_valid 4 (replay [1; 2; 0; 1; 1; 3]) _
           (mkRand (draws (replay [1; 2; 0; 1; 1; 3])) 13)).
  - apply (bool_decide_unpack _). vm_compute. exact I.
  - vm_compute. reflexivity.
Defined.

(** C9: for every supported size, [generateSudoku] makes at most 5
    passes, each one zeroing the grid, seeding the diagonal boxes and
    running the search.  Either some pass [k < 5] succeeds after all
    earlier ones failed, and the grid of that pass is returned, and it is a
    valid complete grid; or all five passes, numbered 0 to 4, are made and
    fail, and the generation-failure error is thrown.  The two cases
    exclude each other: the error is thrown exactly when the five passes
    fail. *)
Theorem generateSudoku_attempts size rnd :
  size ∈ VALID_SIZES →
  ∃ boxDims, getBoxDimensions size = Ok boxDims ∧
    let pass k :=
      nthAttempt k (replicate size (replicate size 0)) size boxDims (getDigits size) rnd in
    ((∃ k g rnd', k < 5 ∧ pass k = Some (true, g, rnd') ∧
        generateSudoku size rnd = Some (Ok g, rnd') ∧
        validSolution size boxDims g ∧ complete size g) ∨
     ((∀ k, k < 5 → ∃ g rnd', pass k = Some (false, g, rnd')) ∧
      ∃ rnd', generateSudoku size rnd = Some (Throw GenerationFailure, rnd'))) ∧
    ((∃ rnd', generateSudoku size rnd = Some (Throw GenerationFailure, rnd')) ↔
     ∀ k, k < 5 → ∃ g rnd', pass k = Some (false, g, rnd')).
Proof.
  intros Hin.
  destruct (supported_size size Hin) as (bd & Hbd & Hr & Hc & Hrc & Hle & Hsmall).
  exists bd. split; [done|]. simpl.
  rewrite (generateSudoku_unfold size bd) by done.
  destruct (attemptLoop_outcome size bd Hr Hc Hrc Hle Hsmall maxAttempts _ rnd
              (wfGrid_initial size))
    as [(k & g' & rnd1 & Hk & Hn & Hl & Hs)|[Hall [rnd1 Hl]]];
    change maxAttempts with 5 in *.
  - split.
    + left. exists k, g', rnd1. split_and!; [done..| |].
      * by apply solved_validSolution.
      * by destruct Hs as (_ & _ & _ & ?).
    + rewrite Hl. split; [by intros [? ?]|].
      intros Hfail. destruct (Hfail k Hk) as (g & rnd2 & Hk'). congruence.
  - split.
    + right. split; [done|]. by exists rnd1.
    + split; [done|]. intros _. by exists rnd1.
Qed.

Lemma generateSudoku_attempts_witness :
  ∃ boxDims, getBoxDimensions 6 = Ok boxDims ∧
    let pass k :=
      nthAttempt k (replicate 6 (replicate 6 0)) 6 boxDims (getDigits 6) (replay [3; 1; 4]) in
    ((∃ k g rnd', k < 5 ∧ pass k = Some (true, g, rnd') ∧
        generateSudoku 6 (replay [3; 1; 4]) = Some (Ok g, rnd') ∧
        validSolution 6 boxDims g ∧ complete 6 g) ∨
     ((∀ k, k < 5 → ∃ g rnd', pass k = Some (false, g, rnd')) ∧
      ∃ rnd', generateSudoku 6 (replay [3; 1; 4]) = Some (Throw GenerationFailure, rnd'))) ∧
    ((∃ rnd', generateSudoku 6 (replay [3; 1; 4]) = Some (Throw GenerationFailure, rnd')) ↔
     ∀ k, k < 5 → ∃ g rnd', pass k = Some (false, g, rnd')).
Proof.
  apply (generateSudoku_attempts 6 (replay [3; 1; 4])).
  apply (bool_decide_unpack _). vm_compute. exact I.
Defined.




(** ** The order of the scan *)

(** [scansBefore p q]: the loops of [findBestCell] reach [p] before [q]. *)
Definition scansBefore (p q : nat * nat) : Prop :=
  p.1 < q.1 ∨ (p.1 = q.1 ∧ p.2 < q.2).

Lemma seq_sorted a n : StronglySorted lt (seq a n).
Proof.
  revert a. induction n as [|n IH]; intros a; simpl; constructor; [done|].
  apply Forall_forall. intros x Hx%elem_of_seq. lia.
Qed.

Lemma scanOrder_sorted size : StronglySorted scansBefore (scanOrder size).
Proof.
  unfold scanOrder.
  assert (∀ n a,
    StronglySorted scansBefore (seq a n ≫= λ r, (λ c, (r, c)) <$> seq 0 size) ∧
    ∀ p, p ∈ (seq a n ≫= λ r, (λ c, (r, c)) <$> seq 0 size) → a ≤ p.1) as H.
  { induction n as [|n IH]; intros a.
    - split; [constructor|]. intros p Hp. by apply elem_of_nil in Hp.
    - cbn [seq]. rewrite bind_cons. destruct (IH (S a)) as [IH1 IH2]. split.
      + apply StronglySorted_app_2; [| |done].
        * intros p q (c & -> & _)%list_elem_of_fmap Hq%IH2. left. simpl. lia.
        * eapply StronglySorted_fmap; [|apply seq_sorted].
          intros x y Hxy. right. simpl. lia.
      + intros p [(c & -> & _)%list_elem_of_fmap|Hp%IH2]%elem_of_app; simpl; lia. }
  apply H.
Qed.

Lemma scanOrder_before size pre post p q :
  scanOrder size = pre ++ q :: post →
  p.1 < size → p.2 < size → scansBefore p q → p ∈ pre.
Proof.
  intros Ho Hr Hc Hpq.
  assert (p ∈ scanOrder size) as Hin by (destruct p; by apply elem_of_scanOrder).
  pose proof (scanOrder_sorted size) as Hs. rewrite Ho in Hs, Hin.
  apply elem_of_app in Hin as [Hin|Hin]; [done|].
  apply StronglySorted_app_1_r, StronglySorted_cons in Hs as [Hs _].
  apply elem_of_cons in Hin as [->|Hin].
  - unfold scansBefore in Hpq. lia.
  - rewrite Forall_forall in Hs. specialize (Hs _ Hin).
    unfold scansBefore in *. lia.
Qed.

(** C8 (as amended): on a grid of a supported size, [findBestCell] returns
    no cell exactly when the grid has no empty cell.  Otherwise it returns an
    empty cell together with a permutation of that cell's legal candidates,
    and that cell is
    - the first empty cell, in the row-by-row order of the scan, that has at
      most one candidate, when there is one (an empty cell without
      candidates is returned only if no empty cell with a single candidate
      comes before it);
    - otherwise the first empty cell whose number of candidates is minimal
      among all the empty cells. *)
Theorem findBestCell_selects size boxDims g rnd :
  size ∈ VALID_SIZES →
  let digits := getDigits size in
  let count p := candidateCount size boxDims digits g p in
  match (findBestCell g size boxDims digits rnd).1 with
  | None => ∀ r c, r < size → c < size → cell g r c ≠ Some 0
  | Some b =>
      row b < size ∧ col b < size ∧ cell g (row b) (col b) = Some 0 ∧
      candidates b ≡ₚ getCandidates g (row b) (col b) size boxDims digits ∧
      (∀ r c, r < size → c < size → cell g r c = Some 0 →
              scansBefore (r, c) (row b, col b) →
              count (row b, col b) < count (r, c) ∧ 2 ≤ count (r, c)) ∧
      (2 ≤ count (row b, col b) →
       ∀ r c, r < size → c < size → cell g r c = Some 0 →
              count (row b, col b) ≤ count (r, c))
  end.
Proof.
  intros Hin digits count.
  assert (Z.of_nat (length digits) < MAX_SAFE_INTEGER)%Z as Hsmall.
  { unfold digits. rewrite getDigits_length.
    apply VALID_SIZES_cases in Hin. unfold MAX_SAFE_INTEGER. lia. }
  pose proof (findBestCell_spec size boxDims digits g Hsmall rnd) as H.
  destruct (findBestCell g size boxDims digits rnd).1 as [b|]; simpl in H.
  - destruct H as (pre & post & Ho & He & Hp & Hpre & Hpost).
    assert ((row b, col b) ∈ scanOrder size) as [Hr Hc]%elem_of_scanOrder.
    { rewrite Ho. set_solver. }
    split_and!; [done..| |].
    + intros r c Hr' Hc' He' Hbefore. apply Hpre; [|done].
      by eapply scanOrder_before.
    + intros H2 r c Hr' Hc' He'.
      assert ((r, c) ∈ scanOrder size) as Hrc by by apply elem_of_scanOrder.
      rewrite Ho in Hrc.
      apply elem_of_app in Hrc as [Hrc|[Hrc|Hrc]%elem_of_cons].
      * destruct (Hpre _ Hrc He'). unfold count. lia.
      * by rewrite Hrc.
      * by apply Hpost.
  - intros r c Hr Hc. apply (H (r, c)). by apply elem_of_scanOrder.
Qed.

Lemma findBestCell_selects_witness :
  let g : Grid := [[1; 2; 3; 0]; [0; 3; 0; 0]; [4; 0; 0; 0]; [0; 0; 0; 0]] in
  let digits := getDigits 4 in
  let count p := candidateCount 4 (mkBox 2 2) digits g p in
  match (findBestCell g 4 (mkBox 2 2) digits (replay [])).1 with
  | None => ∀ r c, r < 4 → c < 4 → cell g r c ≠ Some 0
  | Some b =>
      row b < 4 ∧ col b < 4 ∧ cell g (row b) (col b) = Some 0 ∧
      candidates b ≡ₚ getCandidates g (row b) (col b) 4 (mkBox 2 2) digits ∧
      (∀ r c, r < 4 → c < 4 → cell g r c = Some 0 →
              scansBefore (r, c) (row b, col b) →
              count (row b, col b) < count (r, c) ∧ 2 ≤ count (r, c)) ∧
      (2 ≤ count (row b, col b) →
       ∀ r c, r < 4 → c < 4 → cell g r c = Some 0 →
              count (row b, col b) ≤ count (r, c))
  end.
Proof.
  apply (findBestCell_selects 4 (mkBox 2 2)
           [[1; 2; 3; 0]; [0; 3; 0; 0]; [4; 0; 0; 0]; [0; 0; 0; 0]] (replay [])).
  apply (bool_decide_unpack _). vm_compute. exact I.
Defined.

(** C8, as stated, fails: here the cell (1,0) is empty and has no
    candidate, yet [findBestCell] returns the cell (0,3), which has one:
    the scan stops at the first empty cell with a single candidate. *)
Lemma findBestCell_passes_over_dead_cell :
  let g : Grid := [[1; 2; 3; 0]; [0; 3; 0; 0]; [4; 0; 0; 0]; [0; 0; 0; 0]] in
  cell g 1 0 = Some 0 ∧
  getCandidates g 1 0 4 (mkBox 2 2) (getDigits 4) = [] ∧
  (findBestCell g 4 (mkBox 2 2) (getDigits 4) (replay [])).1 = Some (mkCell 0 3 [4]).
Proof. vm_compute. done. Qed.

(** ** Sorting and picking *)

Lemma sortInsert_Permutation {A} (after : A → A → bool) x l :
  sortInsert after x l ≡ₚ x :: l.
Proof.
  induction l as [|y l IH]; [done|]. simpl. destruct (after x y); [|done].
  rewrite IH. apply Permutation_swap.
Qed.

Lemma jsSort_Permutation {A} (after : A → A → bool) l : jsSort after l ≡ₚ l.
Proof.
  unfold jsSort. induction l as [|x l IH]; [done|]. simpl.
  by rewrite sortInsert_Permutation, IH.
Qed.

Lemma jsSort_length {A} (after : A → A → bool) l : length (jsSort after l) = length l.
Proof. by rewrite jsSort_Permutation. Qed.

Lemma elem_of_topOptions {A} (sorted : list A) x : x ∈ topOptions sorted → x ∈ sorted.
Proof. unfold topOptions. intros (i & Hi & _)%elem_of_take. by eapply list_elem_of_lookup_2. Qed.

Lemma topOptions_length {A} (sorted : list A) :
  0 < length sorted → 0 < length (topOptions sorted).
Proof. unfold topOptions. rewrite length_take. lia. Qed.

Lemma pickTop_elem_of {A} (sorted : list A) rnd x :
  (pickTop sorted rnd).1 = Some x → x ∈ topOptions sorted.
Proof.
  unfold pickTop. destruct (randomBelow _ rnd) as [k rnd']. simpl.
  apply list_elem_of_lookup_2.
Qed.

Lemma pickTop_is_Some {A} (sorted : list A) rnd :
  0 < length sorted → is_Some (pickTop sorted rnd).1.
Proof.
  intros Hlen%topOptions_length. unfold pickTop.
  pose proof (randomBelow_lt _ rnd Hlen) as Hk.
  destruct (randomBelow _ rnd) as [k rnd']. simpl in *.
  by apply lookup_lt_is_Some_2.
Qed.

(** ** Removing cells *)

Section removing.
Context (puzzle : GridRef) (size : nat) (boxDims : BoxDimensions).

Abbreviation removeCell := (removeCell puzzle size boxDims).

(** A sequence of calls of [removeCell]. *)
Definition removeCells (cells : list (nat * nat)) (st : Removal) : Removal :=
  foldl (λ st p, removeCell p.1 p.2 st) st cells.

Lemma removedCells_removeCell r c st :
  removedCells (removeCell r c st) = {[ (r, c) ]} ∪ removedCells st.
Proof. unfold removeCell. case_bool_decide; simpl; set_solver. Qed.

Lemma removeCell_idempotent r c st :
  (r, c) ∈ removedCells st → removeCell r c st = st.
Proof. intros Hin. unfold removeCell. by rewrite bool_decide_eq_true_2. Qed.

Lemma removedCells_removeCells cells st :
  removedCells (removeCells cells st) = list_to_set cells ∪ removedCells st.
Proof.
  revert st. induction cells as [|[r c] cells IH]; intros st; simpl.
  - set_solver.
  - unfold removeCells in *. simpl. rewrite IH, removedCells_removeCell. set_solver.
Qed.

(** [reaches st cells st']: [st'] is [st] after removing [cells], one after
    the other, all of them inside the grid, distinct and not removed
    before. *)
Definition reaches (st : Removal) (cells : list (nat * nat)) (st' : Removal) : Prop :=
  st' = removeCells cells st ∧ NoDup cells ∧
  ∀ p, p ∈ cells → p.1 < size ∧ p.2 < size ∧ p ∉ removedCells st.

Lemma reaches_nil st : reaches st [] st.
Proof. split_and!; [done|constructor|]. intros p Hp. by apply elem_of_nil in Hp. Qed.

Lemma reaches_snoc st cells st' r c :
  reaches st cells st' → r < size → c < size → (r, c) ∉ removedCells st' →
  reaches st (cells ++ [(r, c)]) (removeCell r c st').
Proof.
  intros (-> & Hnd & Hall) Hr Hc Hnew.
  rewrite removedCells_removeCells in Hnew. split_and!.
  - unfold removeCells. by rewrite foldl_app.
  - apply NoDup_app. split_and!; [done| |apply NoDup_singleton].
    intros p Hp ->%list_elem_of_singleton. set_solver.
  - intros p [Hp| ->%list_elem_of_singleton]%elem_of_app; [auto|].
    split_and!; [done..|set_solver].
Qed.

Lemma reaches_trans st cells1 st1 cells2 st2 :
  reaches st cells1 st1 → reaches st1 cells2 st2 → reaches st (cells1 ++ cells2) st2.
Proof.
  intros (-> & Hnd1 & Hall1) (-> & Hnd2 & Hall2). split_and!.
  - unfold removeCells. by rewrite foldl_app.
  - apply NoDup_app. split_and!; [done| |done].
    intros p Hp1 Hp2. destruct (Hall2 p Hp2) as (_ & _ & Hn).
    rewrite removedCells_removeCells in Hn. set_solver.
  - intros p [Hp|Hp]%elem_of_app; [auto|].
    destruct (Hall2 p Hp) as (? & ? & Hn).
    rewrite removedCells_removeCells in Hn. split_and!; [done..|set_solver].
Qed.

Lemma reaches_size st cells st' :
  reaches st cells st' →
  base.size (removedCells st') = base.size (removedCells st) + length cells.
Proof.
  intros (-> & Hnd & Hall). rewrite removedCells_removeCells.
  rewrite size_union.
  - rewrite size_list_to_set by done. lia.
  - intros p Hp%elem_of_list_to_set Hp'. destruct (Hall p Hp) as (_ & _ & Hn). done.
Qed.

Lemma reaches_removedCells st cells st' :
  reaches st cells st' → removedCells st' = list_to_set cells ∪ removedCells st.
Proof. intros (-> & _). apply removedCells_removeCells. Qed.

(** A property that every in-grid removal keeps is kept along [reaches]. *)
Lemma removeCells_preserves (Inv : Removal → Prop) cells : ∀ st,
  (∀ st r c, r < size → c < size → Inv st → Inv (removeCell r c st)) →
  (∀ p, p ∈ cells → p.1 < size ∧ p.2 < size) →
  Inv st → Inv (removeCells cells st).
Proof.
  induction cells as [|[r c] cells IH]; intros st Hstep Hall Hinv; [done|].
  unfold removeCells. simpl. apply IH; [done|set_solver|].
  destruct (Hall (r, c)) as [? ?]; [set_solver|]. by apply Hstep.
Qed.

Lemma reaches_preserves (Inv : Removal → Prop) st cells st' :
  (∀ st r c, r < size → c < size → Inv st → Inv (removeCell r c st)) →
  reaches st cells st' → Inv st → Inv st'.
Proof.
  intros Hstep (-> & _ & Hall). apply removeCells_preserves; [done|].
  intros p Hp. by destruct (Hall p Hp) as (? & ? & _).
Qed.
End removing.

(** ** The coverage phases *)

Section tracking.
Context (puzzle : GridRef) (size : nat) (boxDims : BoxDimensions).

Abbreviation removeCell := (removeCell puzzle size boxDims).
Abbreviation reaches := (reaches puzzle size boxDims).

(** The bookkeeping sets agree with the set of removed cells. *)
Definition tracked (st : Removal) : Prop :=
  (∀ r c, (r, c) ∈ removedCells st →
     r < size ∧ c < size ∧ r ∈ rowsWithRemovals st ∧ c ∈ colsWithRemovals st ∧
     getBoxIndex r c boxDims size ∈ boxesWithRemovals st) ∧
  (∀ r, r ∈ rowsWithRemovals st → ∃ c, (r, c) ∈ removedCells st) ∧
  (∀ c, c ∈ colsWithRemovals st → ∃ r, (r, c) ∈ removedCells st) ∧
  (∀ b, b ∈ boxesWithRemovals st →
     ∃ r c, (r, c) ∈ removedCells st ∧ getBoxIndex r c boxDims size = b).

Lemma tracked_removeCell st r c :
  r < size → c < size → tracked st → tracked (removeCell r c st).
Proof.
  intros Hr Hc (H1 & H2 & H3 & H4). unfold removeCell.
  case_bool_decide as Hin; [done|]. split_and!; simpl.
  - intros r' c' [Heq%elem_of_singleton|Hin']%elem_of_union.
    + injection Heq as -> ->. set_solver.
    + destruct (H1 _ _ Hin') as (? & ? & ? & ? & ?). set_solver.
  - intros r' [->%elem_of_singleton|Hin']%elem_of_union.
    + exists c. set_solver.
    + destruct (H2 _ Hin') as [c' ?]. exists c'. set_solver.
  - intros c' [->%elem_of_singleton|Hin']%elem_of_union.
    + exists r. set_solver.
    + destruct (H3 _ Hin') as [r' ?]. exists r'. set_solver.
  - intros b [->%elem_of_singleton|Hin']%elem_of_union.
    + exists r, c. set_solver.
    + destruct (H4 _ Hin') as (r' & c' & ? & ?). exists r', c'. set_solver.
Qed.

Lemma tracked_reaches st cells st' : reaches st cells st' → tracked st → tracked st'.
Proof. apply (reaches_preserves puzzle size boxDims tracked), tracked_removeCell. Qed.

Lemma tracked_initial h : tracked (initialRemoval h size boxDims).
Proof. unfold tracked, initialRemoval. simpl. set_solver. Qed.

Lemma rows_removeCell st r c :
  rowsWithRemovals st ⊆ rowsWithRemovals (removeCell r c st).
Proof. unfold removeCell. case_bool_decide; simpl; set_solver. Qed.

Lemma cols_removeCell st r c :
  colsWithRemovals st ⊆ colsWithRemovals (removeCell r c st).
Proof. unfold removeCell. case_bool_decide; simpl; set_solver. Qed.

Lemma boxes_removeCell st r c :
  boxesWithRemovals st ⊆ boxesWithRemovals (removeCell r c st).
Proof. unfold removeCell. case_bool_decide; simpl; set_solver. Qed.

Lemma covered_reaches (covered : Removal → gset nat) st cells st' :
  (∀ st r c, covered st ⊆ covered (removeCell r c st)) →
  reaches st cells st' → covered st ⊆ covered st'.
Proof.
  intros Hmono Hreach.
  apply (reaches_preserves puzzle size boxDims (λ st', covered st ⊆ covered st') st cells st');
    [|done|done].
  intros st1 r c _ _ Hsub. etrans; [done|apply Hmono].
Qed.

(** One step of a coverage phase: nothing happens, or one cell of the
    grid that was not removed before is removed. *)
Definition coverStep (st st' : Removal) : Prop :=
  st' = st ∨ ∃ r c, r < size ∧ c < size ∧ ((r, c) ∉ removedCells st) ∧ st' = removeCell r c st.

Lemma coverStep_reaches st st' :
  coverStep st st' → ∃ cells, reaches st cells st' ∧ length cells ≤ 1.
Proof.
  intros [->|(r & c & Hr & Hc & Hn & ->)].
  - exists []. split; [apply reaches_nil|simpl; lia].
  - exists [(r, c)]. split; [|simpl; lia].
    by apply (reaches_snoc puzzle size boxDims st [] st); [apply reaches_nil|..].
Qed.

(** A phase is a loop of such steps, each of which covers its index. *)
Lemma cover_fold (step : nat → Removal → Rand → Removal * Rand)
    (covered : Removal → gset nat) (l : list nat) :
  (∀ st r c, covered st ⊆ covered (removeCell r c st)) →
  (∀ x st rnd, x ∈ l → tracked st →
     coverStep st (step x st rnd).1 ∧ x ∈ covered (step x st rnd).1) →
  ∀ st rnd, tracked st →
    ∃ cells, reaches st cells (foldl (λ '(st, rnd) x, step x st rnd) (st, rnd) l).1 ∧
             length cells ≤ length l ∧
             ∀ x, x ∈ l → x ∈ covered (foldl (λ '(st, rnd) x, step x st rnd) (st, rnd) l).1.
Proof.
  intros Hmono. induction l as [|x l IH]; intros Hstep st rnd Htr.
  - exists []. split_and!; [apply reaches_nil|done|]. intros x Hx. by apply elem_of_nil in Hx.
  - cbn [foldl]. destruct (Hstep x st rnd) as [Hcs Hcov]; [set_solver|done|].
    destruct (coverStep_reaches _ _ Hcs) as (cells1 & Hr1 & Hl1).
    destruct (step x st rnd) as [st1 rnd1]. simpl in *.
    destruct (IH (λ y st rnd Hy, Hstep y st rnd ltac:(set_solver)) st1 rnd1)
      as (cells2 & Hr2 & Hl2 & Hcov2); [by eapply tracked_reaches|].
    exists (cells1 ++ cells2). split_and!.
    + by eapply reaches_trans.
    + rewrite length_app. lia.
    + intros y [->|Hy]%elem_of_cons; [|by apply Hcov2].
      by apply (covered_reaches covered _ _ _ Hmono Hr2).
Qed.

End tracking.

Section coverage_phases.
Context (puzzle : GridRef) (size : nat) (boxDims : BoxDimensions).
Hypothesis size_pos : 0 < size.
Hypothesis rows_pos : 0 < rows boxDims.
Hypothesis cols_pos : 0 < cols boxDims.
Hypothesis box_cells : rows boxDims * cols boxDims = size.
Hypothesis box_shape : rows boxDims ≤ cols boxDims.

Abbreviation removeCell := (removeCell puzzle size boxDims).
Abbreviation reaches := (reaches puzzle size boxDims).
Abbreviation tracked := (tracked size boxDims).
Abbreviation coverStep := (coverStep puzzle size boxDims).

Lemma coverRow_step row st rnd :
  row < size → tracked st →
  coverStep st (coverRow puzzle size boxDims row st rnd).1 ∧
  row ∈ rowsWithRemovals (coverRow puzzle size boxDims row st rnd).1.
Proof.
  intros Hrow (Htr & _). unfold coverRow.
  case_bool_decide as Hcov; [|split; [by left|first [done|by apply dec_stable]]].
  set (availableCols := (λ col, (col, getCellPriority size boxDims st row col))
         <$> filter (λ col, (row, col) ∉ removedCells st) (seq 0 size)).
  set (sorted := jsSort _ availableCols).
  assert (0 < length sorted) as Hlen.
  { unfold sorted. rewrite jsSort_length. unfold availableCols. rewrite length_fmap.
    assert (0 ∈ filter (λ col, (row, col) ∉ removedCells st) (seq 0 size)) as Hin.
    { apply list_elem_of_filter. split; [|apply elem_of_seq; lia].
      intros Hin. destruct (Htr _ _ Hin) as (_ & _ & ? & _). done. }
    destruct (filter _ _); [by apply elem_of_nil in Hin|simpl; lia]. }
  assert (length availableCols = length sorted) as -> by (unfold sorted; by rewrite jsSort_length).
  destruct (0 <? length sorted) eqn:Hpos; [|apply Nat.ltb_ge in Hpos; lia].
  destruct (pickTop_is_Some sorted rnd Hlen) as [[randomCol prio] Hpick].
  pose proof (pickTop_elem_of _ _ _ Hpick) as Hin%elem_of_topOptions.
  destruct (pickTop sorted rnd) as [o rnd']. simpl in Hpick. subst o. simpl.
  unfold sorted in Hin. rewrite jsSort_Permutation in Hin.
  apply list_elem_of_fmap in Hin as (col & [= -> ->] & [Hfresh Hcol%elem_of_seq]%list_elem_of_filter).
  split.
  - right. exists row, col. split_and!; [done|lia|done|done].
  - unfold removeCell. rewrite bool_decide_eq_false_2 by done. simpl. set_solver.
Qed.

Lemma coverCol_step col st rnd :
  col < size → tracked st →
  coverStep st (coverCol puzzle size boxDims col st rnd).1 ∧
  col ∈ colsWithRemovals (coverCol puzzle size boxDims col st rnd).1.
Proof.
  intros Hcol (Htr & _). unfold coverCol.
  case_bool_decide as Hcov; [|split; [by left|first [done|by apply dec_stable]]].
  set (availableRows := (λ row, (row, getCellPriority size boxDims st row col))
         <$> filter (λ row, (row, col) ∉ removedCells st) (seq 0 size)).
  set (sorted := jsSort _ availableRows).
  assert (0 < length sorted) as Hlen.
  { unfold sorted. rewrite jsSort_length. unfold availableRows. rewrite length_fmap.
    assert (0 ∈ filter (λ row, (row, col) ∉ removedCells st) (seq 0 size)) as Hin.
    { apply list_elem_of_filter. split; [|apply elem_of_seq; lia].
      intros Hin. destruct (Htr _ _ Hin) as (_ & _ & _ & ? & _). done. }
    destruct (filter _ _); [by apply elem_of_nil in Hin|simpl; lia]. }
  assert (length availableRows = length sorted) as -> by (unfold sorted; by rewrite jsSort_length).
  destruct (0 <? length sorted) eqn:Hpos; [|apply Nat.ltb_ge in Hpos; lia].
  destruct (pickTop_is_Some sorted rnd Hlen) as [[randomRow prio] Hpick].
  pose proof (pickTop_elem_of _ _ _ Hpick) as Hin%elem_of_topOptions.
  destruct (pickTop sorted rnd) as [o rnd']. simpl in Hpick. subst o. simpl.
  unfold sorted in Hin. rewrite jsSort_Permutation in Hin.
  apply list_elem_of_fmap in Hin as (row & [= -> ->] & [Hfresh Hrow%elem_of_seq]%list_elem_of_filter).
  split.
  - right. exists row, col. split_and!; [lia|done|done|done].
  - unfold removeCell. rewrite bool_decide_eq_false_2 by done. simpl. set_solver.
Qed.
Lemma boxesPerRow_eq : size / cols boxDims = rows boxDims.
Proof. rewrite <-box_cells. apply Nat.div_mul. lia. Qed.

(** The cells [coverBox] looks at are the cells of the box [boxIdx]. *)
Lemma coverBox_cells boxIdx p :
  boxIdx < size / cols boxDims * (size / cols boxDims) →
  p ∈ (i ← seq 0 (rows boxDims);
       (λ j, (boxIdx / (size / cols boxDims) * rows boxDims + i,
              boxIdx `mod` (size / cols boxDims) * cols boxDims + j))
         <$> seq 0 (cols boxDims)) →
  p.1 < size ∧ p.2 < size ∧ getBoxIndex p.1 p.2 boxDims size = boxIdx.
Proof.
  rewrite boxesPerRow_eq. intros Hidx.
  intros (i & (j & -> & Hj%elem_of_seq)%list_elem_of_fmap & Hi%elem_of_seq)%list_elem_of_bind.
  simpl.
  assert (boxIdx / rows boxDims < rows boxDims) as Hbr
    by (apply Nat.Div0.div_lt_upper_bound; lia).
  assert (boxIdx `mod` rows boxDims < rows boxDims) as Hbc
    by (apply Nat.mod_upper_bound; lia).
  pose proof (Nat.div_mod_eq boxIdx (rows boxDims)) as Hdm.
  split_and!; [nia|nia|].
  unfold getBoxIndex. rewrite boxesPerRow_eq.
  rewrite (div_block (rows boxDims) (boxIdx / rows boxDims)) by lia.
  rewrite (div_block (cols boxDims) (boxIdx `mod` rows boxDims)) by lia.
  lia.
Qed.

Lemma coverBox_step boxIdx st rnd :
  boxIdx < size / cols boxDims * (size / cols boxDims) → tracked st →
  coverStep st (coverBox puzzle size boxDims boxIdx st rnd).1 ∧
  boxIdx ∈ boxesWithRemovals (coverBox puzzle size boxDims boxIdx st rnd).1.
Proof.
  intros Hidx (Htr & _). unfold coverBox.
  case_bool_decide as Hcov; [|split; [by left|first [done|by apply dec_stable]]].
  set (cells := i ← seq 0 (rows boxDims);
       (λ j, (boxIdx / (size / cols boxDims) * rows boxDims + i,
              boxIdx `mod` (size / cols boxDims) * cols boxDims + j))
         <$> seq 0 (cols boxDims)).
  set (availableCells := (λ '(row, col), (row, col, getCellPriority size boxDims st row col))
         <$> filter (λ rc, rc ∉ removedCells st) cells).
  set (sorted := jsSort _ availableCells).
  assert (0 < length sorted) as Hlen.
  { unfold sorted. rewrite jsSort_length. unfold availableCells. rewrite length_fmap.
    assert ((boxIdx / (size / cols boxDims) * rows boxDims + 0,
             boxIdx `mod` (size / cols boxDims) * cols boxDims + 0)
            ∈ filter (λ rc, rc ∉ removedCells st) cells) as Hin.
    { assert ((boxIdx / (size / cols boxDims) * rows boxDims + 0,
             boxIdx `mod` (size / cols boxDims) * cols boxDims + 0) ∈ cells) as Hc.
      { unfold cells. apply list_elem_of_bind. exists 0. split.
        - apply list_elem_of_fmap. exists 0. split; [done|]. apply elem_of_seq. lia.
        - apply elem_of_seq. lia. }
      apply list_elem_of_filter. split; [|done].
      intros Hin. destruct (coverBox_cells boxIdx _ Hidx Hc) as (_ & _ & Hb).
      destruct (Htr _ _ Hin) as (_ & _ & _ & _ & Hbox). simpl in Hb. rewrite Hb in Hbox.
      done. }
    destruct (filter _ _); [by apply elem_of_nil in Hin|simpl; lia]. }
  assert (length availableCells = length sorted) as ->
    by (unfold sorted; by rewrite jsSort_length).
  destruct (0 <? length sorted) eqn:Hpos; [|apply Nat.ltb_ge in Hpos; lia].
  destruct (pickTop_is_Some sorted rnd Hlen) as [[[randomRow randomCol] prio] Hpick].
  pose proof (pickTop_elem_of _ _ _ Hpick) as Hin%elem_of_topOptions.
  destruct (pickTop sorted rnd) as [o rnd']. simpl in Hpick. subst o. simpl.
  unfold sorted in Hin. rewrite jsSort_Permutation in Hin.
  apply list_elem_of_fmap in Hin as ([row col] & [= -> -> ->] & [Hfresh Hc]%list_elem_of_filter).
  destruct (coverBox_cells boxIdx _ Hidx Hc) as (Hr & Hcl & Hb). simpl in *.
  split.
  - right. exists row, col. split_and!; done.
  - unfold removeCell. rewrite bool_decide_eq_false_2 by done. simpl. set_solver.
Qed.

(** The three coverage phases remove at most one cell per row, per
    column and per box they look at, and leave every row, every column and
    every box they look at with a removed cell. *)
Lemma coverage_spec st rnd :
  tracked st →
  let st' := (coverage puzzle size boxDims st rnd).1 in
  ∃ cells, reaches st cells st' ∧
    length cells ≤ size + size + size / cols boxDims * (size / cols boxDims) ∧
    (∀ r, r < size → r ∈ rowsWithRemovals st') ∧
    (∀ c, c < size → c ∈ colsWithRemovals st') ∧
    (∀ b, b < size / cols boxDims * (size / cols boxDims) → b ∈ boxesWithRemovals st').
Proof.
  intros Htr. unfold coverage, coverRows, coverCols, coverBoxes.
  destruct (cover_fold puzzle size boxDims (coverRow puzzle size boxDims) rowsWithRemovals (seq 0 size)
              (rows_removeCell puzzle size boxDims)) with (st := st) (rnd := rnd)
    as (cells1 & Hr1 & Hl1 & Hc1); [|done|].
  { intros x st0 rnd0 Hx%elem_of_seq Ht. apply coverRow_step; [lia|done]. }
  destruct (foldl _ (st, rnd) (seq 0 size)) as [st1 rnd1]. simpl in *.
  pose proof (tracked_reaches puzzle size boxDims _ _ _ Hr1 Htr) as Htr1.
  destruct (cover_fold puzzle size boxDims (coverCol puzzle size boxDims) colsWithRemovals (seq 0 size)
              (cols_removeCell puzzle size boxDims)) with (st := st1) (rnd := rnd1)
    as (cells2 & Hr2 & Hl2 & Hc2); [|done|].
  { intros x st0 rnd0 Hx%elem_of_seq Ht. apply coverCol_step; [lia|done]. }
  destruct (foldl _ (st1, rnd1) (seq 0 size)) as [st2 rnd2]. simpl in *.
  pose proof (tracked_reaches puzzle size boxDims _ _ _ Hr2 Htr1) as Htr2.
  destruct (cover_fold puzzle size boxDims (coverBox puzzle size boxDims) boxesWithRemovals
              (seq 0 (size / cols boxDims * (size / cols boxDims)))
              (boxes_removeCell puzzle size boxDims)) with (st := st2) (rnd := rnd2)
    as (cells3 & Hr3 & Hl3 & Hc3); [|done|].
  { intros x st0 rnd0 Hx%elem_of_seq Ht. apply coverBox_step; [lia|done]. }
  destruct (foldl _ (st2, rnd2) (seq 0 _)) as [st3 rnd3]. simpl in *.
  rewrite length_seq in Hl1, Hl2, Hl3.
  exists (cells1 ++ cells2 ++ cells3). split_and!.
  - eapply reaches_trans; [done|]. by eapply reaches_trans.
  - rewrite !length_app. lia.
  - intros r Hr.
    apply (covered_reaches puzzle size boxDims rowsWithRemovals _ _ _ (rows_removeCell puzzle size boxDims) Hr3).
    apply (covered_reaches puzzle size boxDims rowsWithRemovals _ _ _ (rows_removeCell puzzle size boxDims) Hr2).
    apply Hc1, elem_of_seq. lia.
  - intros c Hc.
    apply (covered_reaches puzzle size boxDims colsWithRemovals _ _ _ (cols_removeCell puzzle size boxDims) Hr3).
    apply Hc2, elem_of_seq. lia.
  - intros b Hb. apply Hc3, elem_of_seq. lia.
Qed.
End coverage_phases.

(** ** The quota phase *)

(** The sum of the lengths of the lists of a map, as [createPuzzle]
    computes it. *)
Definition totalPositions (m : gmap nat (list Position)) : nat :=
  map_fold (λ _ arr sum, sum + length arr) 0 m.

Lemma totalPositions_insert_fresh m j l :
  m !! j = None → totalPositions (<[j := l]> m) = totalPositions m + length l.
Proof.
  intros Hj. unfold totalPositions. rewrite map_fold_insert_L; [done| |done].
  intros. lia.
Qed.

Lemma totalPositions_insert m j l :
  totalPositions (<[j := l]> m) + length (default [] (m !! j))
  = totalPositions m + length l.
Proof.
  destruct (m !! j) as [old|] eqn:Hj; simpl.
  - rewrite <-(insert_delete_id m j old) at 2 by done.
    rewrite <-(insert_delete_eq m).
    rewrite !totalPositions_insert_fresh by apply lookup_delete_eq. lia.
  - rewrite totalPositions_insert_fresh by done. lia.
Qed.

Lemma totalPositions_fmap (f : list Position → list Position) m :
  (∀ l, length (f l) = length l) → totalPositions (f <$> m) = totalPositions m.
Proof.
  intros Hf. induction m as [|i x m Hi IH] using map_ind.
  - by rewrite fmap_empty.
  - rewrite fmap_insert.
    rewrite !totalPositions_insert_fresh by (by rewrite ?lookup_fmap, ?Hi).
    by rewrite IH, Hf.
Qed.

Lemma unremoved_count (cells : list (nat * nat)) (X : gset (nat * nat)) :
  NoDup cells → (∀ p, p ∈ X → p ∈ cells) →
  length (filter (λ p, p ∉ X) cells) + base.size X = length cells.
Proof.
  intros Hnd Hsub.
  assert (NoDup (filter (λ p, p ∉ X) cells)) as Hnd' by by apply NoDup_filter.
  rewrite <-(size_list_to_set (C:=gset (nat * nat)) (filter _ cells)) by done.
  rewrite <-(size_list_to_set (C:=gset (nat * nat)) cells) by done.
  assert (list_to_set (filter (λ p, p ∉ X) cells) = (list_to_set cells ∖ X : gset _)) as ->.
  { apply set_eq. intros p. rewrite elem_of_list_to_set, list_elem_of_filter,
      elem_of_difference, elem_of_list_to_set. naive_solver. }
  rewrite size_difference.
  - assert (base.size X ≤ base.size (list_to_set cells : gset (nat * nat))); [|lia].
    apply subseteq_size. intros p Hp. apply elem_of_list_to_set. auto.
  - intros p Hp. apply elem_of_list_to_set. auto.
Qed.

Lemma scanOrder_NoDup size : NoDup (scanOrder size).
Proof.
  unfold scanOrder. apply NoDup_bind.
  - intros r1 r2 p _ _ (c1 & -> & _)%list_elem_of_fmap (c2 & [= ? ?] & _)%list_elem_of_fmap.
    done.
  - intros r _. apply NoDup_fmap_2; [|apply NoDup_seq]. by intros ?? [= ?].
  - apply NoDup_seq.
Qed.

Section quota.
Context (puzzle : GridRef) (size : nat) (boxDims : BoxDimensions).

Abbreviation removeCell := (removeCell puzzle size boxDims).
Abbreviation reaches := (reaches puzzle size boxDims).

(** The lists of [positionsByColumn] hold cells of their column that are
    inside the grid and not removed, each of them once. *)
Definition positionsOK (st : Removal) (m : gmap nat (list Position)) : Prop :=
  ∀ col l, m !! col = Some l →
    NoDup (posRow <$> l) ∧
    ∀ p, p ∈ l → posCol p = col ∧ posRow p < size ∧ col < size ∧
                 (posRow p, col) ∉ removedCells st.

(** What the round-robin loop maintains: the cells removed since the
    state [st0] are as many as [removedCount] says, and no more than [n]. *)
Definition roundRobinInv (st0 : Removal) (n : nat) (rr : RoundRobin) : Prop :=
  (∃ cells, reaches st0 cells (removal rr) ∧ length cells = removedCount rr) ∧
  removedCount rr ≤ n ∧
  positionsOK (removal rr) (positionsByColumn rr).

Lemma positionsOK_remove st m col l i p :
  positionsOK st m → m !! col = Some l → l !! i = Some p →
  positionsOK (removeCell (posRow p) (posCol p) st) (<[col := delete i l]> m).
Proof.
  intros Hok Hl Hp col' l'. destruct (Hok col l Hl) as [Hnd Hall].
  destruct (Hall p) as (Hpc & _); [by eapply list_elem_of_lookup_2|].
  rewrite removedCells_removeCell, Hpc.
  destruct (decide (col = col')) as [<-|Hne].
  - rewrite lookup_insert_eq. intros [= <-].
    rewrite <-(take_drop_middle l i p Hp) in Hnd.
    rewrite delete_take_drop. rewrite fmap_app in *. rewrite fmap_cons in Hnd.
    apply NoDup_app in Hnd as (Hn1 & Hn12 & [Hn2 Hn3]%NoDup_cons). split.
    + apply NoDup_app. split_and!; [done| |done]. intros x Hx Hx'.
      apply (Hn12 x Hx). by right.
    + intros q Hq. destruct (Hall q) as (? & ? & ? & ?).
      { rewrite <-(take_drop_middle l i p Hp). set_solver. }
      split_and!; [done..|].
      intros [Heq%elem_of_singleton|?]%elem_of_union; [|done].
      injection Heq as Heq.
      apply elem_of_app in Hq as [Hq|Hq].
      * apply (Hn12 (posRow q)); [by apply list_elem_of_fmap_2|]. rewrite Heq. by left.
      * apply Hn2. rewrite <-Heq. by apply list_elem_of_fmap_2.
  - rewrite lookup_insert_ne by done. intros Hl'.
    destruct (Hok col' l' Hl') as [Hnd' Hall']. split; [done|].
    intros q Hq. destruct (Hall' q Hq) as (? & ? & ? & ?). split_and!; [done..|].
    intros [[= ? ?]%elem_of_singleton|?]%elem_of_union; done.
Qed.

(** One visit of a column keeps the invariant; it removes a cell exactly
    when it sets [foundAny]. *)
Lemma visitColumn_inv st0 n k rr rr' :
  visitColumn puzzle size boxDims n k rr = Some rr' →
  roundRobinInv st0 n rr →
  roundRobinInv st0 n rr' ∧
  (rr' = rr ∨ (removedCount rr' = removedCount rr + 1 ∧ foundAny rr' = true)).
Proof.
  intros Hv Hinv. unfold visitColumn in Hv.
  destruct (columnOrder rr !! k) as [col|]; [|injection Hv as <-; auto].
  case_bool_decide as Hbreak; [done|].
  destruct (positionsByColumn rr !! col) as [[|p0 l]|] eqn:Hcol;
    [injection Hv as <-; auto| |injection Hv as <-; auto].
  destruct ((p0 :: l) !! bestPosition (removal rr) (p0 :: l)) as [p|] eqn:Hp;
    [|injection Hv as <-; auto].
  injection Hv as <-. destruct Hinv as ((cells & Hreach & Hlen) & Hle & Hok).
  destruct (Hok col _ Hcol) as [_ Hall].
  destruct (Hall p) as (Hpc & Hpr & Hc & Hfresh); [by eapply list_elem_of_lookup_2|].
  split; [|right; done]. split_and!; simpl.
  - exists (cells ++ [(posRow p, posCol p)]). split.
    + apply reaches_snoc; [done|done|by rewrite Hpc|by rewrite Hpc].
    + rewrite length_app. simpl. lia.
  - lia.
  - by eapply positionsOK_remove.
Qed.

Lemma visitColumns_inv st0 n ks : ∀ rr,
  roundRobinInv st0 n rr →
  let rr' := visitColumns puzzle size boxDims n ks rr in
  roundRobinInv st0 n rr' ∧ removedCount rr ≤ removedCount rr' ∧
  (foundAny rr' = true → foundAny rr = true ∨ removedCount rr < removedCount rr').
Proof.
  induction ks as [|k ks IH]; intros rr Hinv; simpl; [auto|].
  destruct (visitColumn puzzle size boxDims n k rr) as [rr1|] eqn:Hv; [|auto].
  destruct (visitColumn_inv st0 n k rr rr1 Hv Hinv) as [Hinv1 Hcase].
  destruct (IH rr1 Hinv1) as (Hinv' & Hle & Hfound). simpl in *.
  split; [done|]. destruct Hcase as [->|[Hcnt _]]; [auto|].
  split; [lia|]. intros _. right. lia.
Qed.

Lemma roundRobin_inv st0 n fuel : ∀ rr rr',
  roundRobin puzzle size boxDims fuel n rr = Some rr' →
  roundRobinInv st0 n rr → roundRobinInv st0 n rr'.
Proof.
  induction fuel as [|fuel IH]; intros rr rr'; simpl.
  - case_bool_decide; [done|]. by intros [= <-].
  - case_bool_decide; [|by intros [= <-]].
    set (rr0 := {| removal := removal rr; positionsByColumn := positionsByColumn rr;
                   columnOrder := columnOrder rr; removedCount := removedCount rr;
                   foundAny := false |}).
    intros Hr Hinv.
    assert (roundRobinInv st0 n rr0) as Hinv0 by done.
    destruct (visitColumns_inv st0 n (seq 0 (length (columnOrder rr))) rr0 Hinv0)
      as (Hinv1 & _ & _).
    destruct (negb (foundAny _)); [by injection Hr as <-|by eapply IH].
Qed.

Lemma roundRobin_terminates st0 n fuel : ∀ rr,
  roundRobinInv st0 n rr → n - removedCount rr < fuel →
  is_Some (roundRobin puzzle size boxDims fuel n rr).
Proof.
  induction fuel as [|fuel IH]; intros rr Hinv Hfuel; [lia|]. simpl.
  case_bool_decide as Hlt; [|eauto].
  set (rr0 := {| removal := removal rr; positionsByColumn := positionsByColumn rr;
                 columnOrder := columnOrder rr; removedCount := removedCount rr;
                 foundAny := false |}).
  assert (roundRobinInv st0 n rr0) as Hinv0 by done.
  destruct (visitColumns_inv st0 n (seq 0 (length (columnOrder rr))) rr0 Hinv0)
    as (Hinv1 & Hle & Hfound).
  destruct (foundAny (visitColumns _ _ _ _ _ rr0)) eqn:Hf; simpl; [|eauto].
  apply IH; [done|]. destruct Hfound as [?|?]; [done|done|]. simpl in *. lia.
Qed.

(** The grouping of step 4, over the cells still to look at. *)
Lemma groupByColumn_fold st cells : ∀ m,
  NoDup cells → (∀ p, p ∈ cells → p.1 < size ∧ p.2 < size) →
  positionsOK st m →
  (∀ col l p, m !! col = Some l → p ∈ l → (posRow p, col) ∉ cells) →
  let m' :=
    foldl (λ m '(i, j),
             if bool_decide ((i, j) ∉ removedCells st) then
               let priority := getCellPriority size boxDims st i j in
               let spatialRegion := getSpatialRegion i j size in
               <[j := default [] (m !! j) ++ [mkPosition i j priority spatialRegion]]> m
             else m) m cells in
  positionsOK st m' ∧
  totalPositions m' = totalPositions m + length (filter (λ p, p ∉ removedCells st) cells).
Proof.
  induction cells as [|[i j] cells IH]; intros m Hnd Hin Hok Hdisj; simpl.
  { split; [done|]. lia. }
  apply NoDup_cons in Hnd as [Hnotin Hnd].
  destruct (Hin (i, j)) as [Hi Hj]; [set_solver|]. simpl in Hi, Hj.
  rewrite filter_cons. case_bool_decide as Hrem.
  - rewrite decide_True by done.
    set (pos := mkPosition i j _ _).
    set (m1 := <[j := default [] (m !! j) ++ [pos]]> m).
    assert (positionsOK st m1) as Hok1.
    { intros col l. unfold m1. destruct (decide (j = col)) as [<-|Hne].
      - rewrite lookup_insert_eq. intros [= <-].
        assert (NoDup (posRow <$> default [] (m !! j)) ∧
                ∀ p, p ∈ default [] (m !! j) →
                  (posCol p = j ∧ posRow p < size ∧ j < size ∧
                   (posRow p, j) ∉ removedCells st) ∧ posRow p ≠ i) as [Hnd0 Hall0].
        { destruct (m !! j) as [l0|] eqn:Hl0; simpl.
          - destruct (Hok j l0 Hl0) as [? Hall]. split; [done|].
            intros p Hp. split; [by apply Hall|].
            intros <-. apply (Hdisj j l0 p Hl0 Hp). by left.
          - split; [constructor|]. intros p Hp. by apply elem_of_nil in Hp. }
        split.
        + rewrite fmap_app. apply NoDup_app. split_and!; [done| |apply NoDup_singleton].
          intros x (q & -> & Hq)%list_elem_of_fmap Hx.
          apply list_elem_of_singleton in Hx. simpl in Hx.
          destruct (Hall0 q Hq) as [_ Hne]. done.
        + intros p [Hp|Hp%list_elem_of_singleton]%elem_of_app.
          * by destruct (Hall0 p Hp).
          * subst p. simpl. done.
      - rewrite lookup_insert_ne by done. apply Hok. }
    destruct (IH m1 Hnd) as [Hok' Htot']; [set_solver|done| |].
    { intros col l p. unfold m1. destruct (decide (j = col)) as [<-|Hne].
      - rewrite lookup_insert_eq. intros [= <-].
        intros [Hp|Hp%list_elem_of_singleton]%elem_of_app.
        + destruct (m !! j) as [l0|] eqn:Hl0; simpl in Hp;
            [|by apply elem_of_nil in Hp].
          pose proof (Hdisj j l0 p Hl0 Hp). set_solver.
        + subst p. done.
      - rewrite lookup_insert_ne by done. intros Hl Hp.
        pose proof (Hdisj col l p Hl Hp). set_solver. }
    split; [exact Hok'|]. etrans; [exact Htot'|]. simpl.
    pose proof (totalPositions_insert m j (default [] (m !! j) ++ [pos])) as Hins.
    rewrite length_app in Hins. simpl in Hins. fold m1 in Hins. lia.
  - rewrite decide_False by (intros ?; done).
    apply IH; [done|set_solver|done|]. intros col l p Hl Hp.
    pose proof (Hdisj col l p Hl Hp). set_solver.
Qed.

Lemma groupByColumn_spec st :
  positionsOK st (groupByColumn size boxDims st) ∧
  totalPositions (groupByColumn size boxDims st)
  = length (filter (λ p, p ∉ removedCells st) (scanOrder size)).
Proof.
  unfold groupByColumn.
  destruct (groupByColumn_fold st (scanOrder size) ∅) as [Hok Htot].
  - apply scanOrder_NoDup.
  - intros [r c] Hp%elem_of_scanOrder. done.
  - intros col l Hl. by rewrite lookup_empty in Hl.
  - intros col l p Hl. by rewrite lookup_empty in Hl.
  - split; [exact Hok|]. etrans; [exact Htot|].
    unfold totalPositions. by rewrite map_fold_empty.
Qed.

Lemma positionsOK_sort st m (after : Position → Position → bool) :
  positionsOK st m → positionsOK st (jsSort after <$> m).
Proof.
  intros Hok col l. rewrite lookup_fmap.
  destruct (m !! col) as [l0|] eqn:Hl0; [|done]. simpl. intros [= <-].
  destruct (Hok col l0 Hl0) as [Hnd Hall]. split.
  - by rewrite jsSort_Permutation.
  - intros p Hp. rewrite jsSort_Permutation in Hp. by apply Hall.
Qed.

Lemma removeCells_foldl (l : list (nat * nat * float)) st :
  foldl (λ st '(row, col, _), removeCell row col st) st l
  = removeCells puzzle size boxDims ((λ x, x.1) <$> l) st.
Proof.
  unfold removeCells. revert st. induction l as [|[[r c] prio] l IH]; intros st; [done|].
  simpl. apply IH.
Qed.

(** The fallback removes the first [stillNeed] cells of its ranking of the
    cells that are left, or all of them if they are fewer. *)
Lemma removeRemaining_reaches stillNeed st :
  (∀ p, p ∈ removedCells st → p.1 < size ∧ p.2 < size) →
  ∃ cells, reaches st cells (removeRemaining puzzle size boxDims stillNeed st) ∧
           length cells = stillNeed `min` (size * size - base.size (removedCells st)).
Proof.
  intros Hin. unfold removeRemaining.
  set (remaining := filter (λ rc, rc ∉ removedCells st) (scanOrder size)).
  set (sorted := jsSort _ _).
  assert ((λ x : nat * nat * float, x.1) <$> sorted ≡ₚ remaining) as Hperm.
  { unfold sorted. rewrite jsSort_Permutation, <-list_fmap_compose.
    erewrite (list_fmap_ext _ id); [by rewrite list_fmap_id|]. by intros _ [i j] _. }
  assert (length sorted = size * size - base.size (removedCells st)) as Hlen.
  { rewrite <-(length_fmap (λ x : nat * nat * float, x.1)), Hperm.
    pose proof (unremoved_count (scanOrder size) (removedCells st)
                  (scanOrder_NoDup size)) as Hcount.
    rewrite length_scanOrder in Hcount. unfold remaining. rewrite <-Hcount; [lia|].
    intros [r c] Hp. apply elem_of_scanOrder. by apply (Hin (r, c)). }
  exists ((λ x : nat * nat * float, x.1) <$> take (stillNeed `min` length sorted) sorted).
  split; [split_and!|].
  - by rewrite <-removeCells_foldl.
  - rewrite fmap_take. eapply sublist_NoDup; [|apply sublist_take].
    rewrite Hperm. apply NoDup_filter, scanOrder_NoDup.
  - intros p (x & -> & (i & Hx%list_elem_of_lookup_2 & _)%elem_of_take)%list_elem_of_fmap.
    assert (x.1 ∈ remaining) as [Hfresh Hscan]%list_elem_of_filter.
    { rewrite <-Hperm. by apply list_elem_of_fmap_2. }
    destruct x.1 as [r c] eqn:Hx1. apply elem_of_scanOrder in Hscan.
    simpl. by destruct Hscan.
  - rewrite length_fmap, length_take, Hlen. lia.
Qed.
End quota.

(** Step 4 always completes, and removes exactly as many cells as are
    missing to reach the target (none if the coverage phases already
    removed that many or more). *)
Lemma fillQuota_spec puzzle size boxDims target st :
  tracked size boxDims st → target ≤ size * size →
  ∃ st' cells, fillQuota puzzle size boxDims target st = Some st' ∧
    reaches puzzle size boxDims st cells st' ∧
    length cells = target - base.size (removedCells st).
Proof.
  intros Htr Htarget. unfold fillQuota.
  set (cur := base.size (removedCells st)).
  replace (0 `max` (target - cur)) with (target - cur) by lia.
  destruct (0 <? target - cur) eqn:Hpos.
  2:{ apply Nat.ltb_ge in Hpos. exists st, []. split_and!; [done|apply reaches_nil|simpl; lia]. }
  apply Nat.ltb_lt in Hpos.
  set (positions := jsSort positionAfter <$> groupByColumn size boxDims st).
  change (map_fold (λ _ arr sum, sum + length arr) 0 positions)
    with (totalPositions positions).
  destruct (groupByColumn_spec size boxDims st) as [Hok Htot].
  assert (∀ p, p ∈ removedCells st → p.1 < size ∧ p.2 < size) as Hin.
  { intros [r c] Hp. destruct Htr as [Htr _]. by destruct (Htr r c Hp) as (? & ? & _). }
  assert (totalPositions positions = size * size - cur) as Htotal.
  { unfold positions. rewrite totalPositions_fmap by apply jsSort_length.
    rewrite Htot.
    pose proof (unremoved_count (scanOrder size) (removedCells st)
                  (scanOrder_NoDup size)) as Hcount.
    rewrite length_scanOrder in Hcount. fold cur in Hcount. rewrite <-Hcount; [lia|].
    intros [r c] Hp. apply elem_of_scanOrder. by apply (Hin (r, c)). }
  rewrite Htotal.
  replace ((target - cur) `min` (size * size - cur)) with (target - cur) by lia.
  set (n := target - cur).
  set (rr0 := mkRoundRobin st positions _ 0 false).
  assert (roundRobinInv puzzle size boxDims st n rr0) as Hinv0.
  { split_and!; simpl.
    - exists []. split; [apply reaches_nil|done].
    - lia.
    - by apply positionsOK_sort. }
  destruct (roundRobin_terminates puzzle size boxDims st n (n + 1) rr0 Hinv0) as [rr Hrr].
  { simpl. lia. }
  rewrite Hrr.
  destruct (roundRobin_inv puzzle size boxDims st n (n + 1) rr0 rr Hrr Hinv0)
    as ((cells1 & Hreach1 & Hlen1) & Hle & _).
  destruct (removedCount rr <? n) eqn:Hshort.
  - apply Nat.ltb_lt in Hshort.
    pose proof (tracked_reaches puzzle size boxDims _ _ _ Hreach1 Htr) as Htr1.
    destruct (removeRemaining_reaches puzzle size boxDims (n - removedCount rr) (removal rr))
      as (cells2 & Hreach2 & Hlen2).
    { intros [r c] Hp. destruct Htr1 as [Htr1 _]. by destruct (Htr1 r c Hp) as (? & ? & _). }
    exists (removeRemaining puzzle size boxDims (n - removedCount rr) (removal rr)),
           (cells1 ++ cells2).
    split_and!; [done|by eapply reaches_trans|].
    rewrite length_app, Hlen1, Hlen2.
    rewrite (reaches_size puzzle size boxDims _ _ _ Hreach1), Hlen1. fold cur. lia.
  - apply Nat.ltb_ge in Hshort. exists (removal rr), cells1.
    split_and!; [done|done|lia].
Qed.

(** ** The store *)

Lemma copyGrid_fold grid : ∀ puzzle h1,
  ∃ copies,
    foldl (λ '(puzzle, h) l,
             let '(l', h) := alloc (default [] (h !! l)) h in (puzzle ++ [l'], h))
          (puzzle, h1) grid
    = (puzzle ++ seq (length h1) (length grid), h1 ++ copies) ∧
    length copies = length grid ∧
    ∀ h0, h0 `prefix_of` h1 → Forall (λ l, l < length h0) grid →
          copies = (λ l, default [] (h0 !! l)) <$> grid.
Proof.
  induction grid as [|l grid IH]; intros puzzle h1.
  - exists []. simpl. rewrite !app_nil_r. split_and!; [done..|]. by intros.
  - cbn [foldl alloc].
    destruct (IH (puzzle ++ [length h1]) (h1 ++ [default [] (h1 !! l)]))
      as (copies & Hf & Hlen & Hcopies).
    exists (default [] (h1 !! l) :: copies). split_and!.
    + etrans; [exact Hf|]. rewrite length_app, <-!app_assoc. simpl.
      by rewrite Nat.add_1_r.
    + simpl. by rewrite Hlen.
    + intros h0 Hpre [Hl Hvalid]%Forall_cons. simpl.
      destruct Hpre as [k ->]. f_equal.
      * by rewrite lookup_app_l.
      * apply Hcopies; [|done]. exists (k ++ [default [] ((h0 ++ k) !! l)]).
        by rewrite app_assoc.
Qed.

(** [copyGrid] appends one fresh row per row of the grid, holding the same
    digits, and changes nothing else. *)
Lemma copyGrid_spec h grid :
  ∃ copies, copyGrid h grid = (seq (length h) (length grid), h ++ copies) ∧
            length copies = length grid ∧
            (Forall (λ l, l < length h) grid → copies = gridAt h grid).
Proof.
  unfold copyGrid. destruct (copyGrid_fold grid [] h) as (copies & Hf & Hlen & Hc).
  exists copies. split_and!; [done|done|]. intros Hvalid. by apply Hc.
Qed.

Lemma gridAt_fresh h copies :
  gridAt (h ++ copies) (seq (length h) (length copies)) = copies.
Proof.
  unfold gridAt. apply list_eq. intros i. rewrite list_lookup_fmap.
  destruct (decide (i < length copies)) as [Hi|Hi].
  - rewrite lookup_seq_lt by done. simpl.
    rewrite lookup_app_r by lia. replace (length h + i - length h) with i by lia.
    destruct (lookup_lt_is_Some_2 copies i Hi) as [x Hx]. by rewrite Hx.
  - rewrite lookup_seq_ge by lia. simpl. symmetry. apply lookup_ge_None. lia.
Qed.

Section store.
Context (h : Heap) (copies : Grid) (size : nat) (boxDims : BoxDimensions).

(** The rows of the puzzle are the fresh rows that [copyGrid] made. *)
Abbreviation puzzleRows := (seq (length h) (length copies)).

(** What the removal run maintains of the store: the rows that were there
    before the call are untouched, and the puzzle is the copy with zeros at
    the removed cells. *)
Definition storeInv (st : Removal) : Prop :=
  ∃ rows, heap st = h ++ rows ∧ length rows = length copies ∧
    ∀ r c, cell rows r c =
           if decide ((r, c) ∈ removedCells st ∧ is_Some (cell copies r c))
           then Some 0 else cell copies r c.

Lemma storeInv_initial : storeInv (initialRemoval (h ++ copies) size boxDims).
Proof.
  exists copies. split_and!; [done..|]. intros r c. simpl.
  rewrite decide_False; [done|]. set_solver.
Qed.

Lemma storeInv_removeCell st r c :
  storeInv st → storeInv (removeCell puzzleRows size boxDims r c st).
Proof.
  intros (rows' & Hh & Hlen & Hcells). unfold removeCell.
  case_bool_decide as Hin; [by exists rows'|]. simpl.
  assert (is_Some (cell rows' r c) ↔ is_Some (cell copies r c)) as Hsome.
  { rewrite Hcells. case_decide as Hd; [|done]. destruct Hd. split; eauto. }
  exists (setCell rows' r c 0). simpl. split_and!.
  - unfold writeCell. rewrite Hh.
    destruct (decide (r < length copies)) as [Hr|Hr].
    + rewrite lookup_seq_lt by done. unfold setCell.
      rewrite alter_app_r_alt by lia. do 2 f_equal. lia.
    + rewrite lookup_seq_ge by lia. unfold setCell. f_equal.
      apply list_eq. intros i. destruct (decide (r = i)) as [<-|].
      * rewrite list_lookup_alter_eq. by rewrite (lookup_ge_None_2 rows' r) by lia.
      * by rewrite list_lookup_alter_ne.
  - unfold setCell. by rewrite length_alter.
  - intros r' c'. rewrite cell_setCell.
    destruct (decide (r = r' ∧ c = c')) as [[<- <-]|Hne].
    + destruct (decide (is_Some (cell copies r c))) as [Hs|Hs].
      * rewrite decide_True by (split_and!; [done..|by apply Hsome]).
        rewrite decide_True; [done|]. split; [set_solver|done].
      * rewrite decide_False by (intros (_ & _ & ?); by apply Hs, Hsome).
        rewrite Hcells. rewrite !decide_False by (by intros [_ ?]). done.
    + rewrite decide_False by (intros (? & ? & _); by apply Hne).
      rewrite Hcells.
      destruct (decide ((r', c') ∈ removedCells st ∧ is_Some (cell copies r' c')))
        as [[? ?]|Hd].
      * rewrite decide_True; [done|]. split; [set_solver|done].
      * rewrite decide_False; [done|]. intros [[Heq%elem_of_singleton|?]%elem_of_union ?].
        -- injection Heq as -> ->. by apply Hne.
        -- by apply Hd.
Qed.

Lemma storeInv_reaches st cells st' :
  reaches puzzleRows size boxDims st cells st' → storeInv st → storeInv st'.
Proof.
  apply (reaches_preserves puzzleRows size boxDims storeInv).
  intros st0 r c _ _. apply storeInv_removeCell.
Qed.
End store.

(** ** The whole of [createPuzzle] *)

(** The percentage of filled cells of a difficulty label. *)
Definition fillPercent (difficulty : Difficulty) : nat :=
  match difficulty with
  | easy => 65
  | medium => 40
  | hard => 34
  | extremely_hard => 28
  end.

(** On the supported sizes the floating-point target is the exact
    [floor (size^2 * (1 - percent / 100))]. *)
Lemma targetCellsToRemove_exact size difficulty :
  size ∈ VALID_SIZES →
  targetCellsToRemove size difficulty = size * size * (100 - fillPercent difficulty) / 100 ∧
  targetCellsToRemove size difficulty ≤ size * size.
Proof.
  intros H%VALID_SIZES_cases.
  destruct H as [H|[H|H]]; subst size; destruct difficulty; vm_compute; split; (done || lia).
Qed.

(** The number of empty cells of a puzzle is the number of removed cells,
    when the grid it was copied from was complete. *)
Lemma emptyCount_removed (size : nat) (copies rows : Grid) (removed : gset (nat * nat)) :
  wfGrid size copies → complete size copies →
  (∀ p, p ∈ removed → p.1 < size ∧ p.2 < size) →
  (∀ r c, cell rows r c =
          if decide ((r, c) ∈ removed ∧ is_Some (cell copies r c))
          then Some 0 else cell copies r c) →
  emptyCount size rows = base.size removed.
Proof.
  intros Hwf Hcomp Hin Hcells. unfold emptyCount.
  assert (filter (λ p, cell rows p.1 p.2 = Some 0) (scanOrder size)
          ≡ₚ elements removed) as ->; [|done].
  apply NoDup_Permutation.
  - apply NoDup_filter, scanOrder_NoDup.
  - apply NoDup_elements.
  - intros [r c]. rewrite list_elem_of_filter, elem_of_elements, elem_of_scanOrder. simpl.
    rewrite Hcells. split.
    + intros [H0 [Hr Hc]]. case_decide as Hd; [by destruct Hd|].
      by destruct (Hcomp r c Hr Hc).
    + intros Hp. destruct (Hin _ Hp) as [Hr Hc]. simpl in *. split; [|done].
      rewrite decide_True; [done|]. split; [done|]. by apply (cell_is_Some size).
Qed.

(** The course of a call of [createPuzzle] on a supported size. *)
Lemma createPuzzle_run h grid size difficulty rnd :
  size ∈ VALID_SIZES →
  ∃ boxDims copies st3 rnd3 cells0 st4 cells1,
    let puzzle := seq (length h) (length grid) in
    let target := targetCellsToRemove size difficulty in
    getBoxDimensions size = Ok boxDims ∧
    copyGrid h grid = (puzzle, h ++ copies) ∧
    length copies = length grid ∧
    (Forall (λ l, l < length h) grid → copies = gridAt h grid) ∧
    coverage puzzle size boxDims (initialRemoval (h ++ copies) size boxDims) rnd = (st3, rnd3) ∧
    reaches puzzle size boxDims (initialRemoval (h ++ copies) size boxDims) cells0 st3 ∧
    length cells0 ≤ size + size + size / cols boxDims * (size / cols boxDims) ∧
    (∀ r, r < size → r ∈ rowsWithRemovals st3) ∧
    (∀ c, c < size → c ∈ colsWithRemovals st3) ∧
    (∀ b, b < size / cols boxDims * (size / cols boxDims) → b ∈ boxesWithRemovals st3) ∧
    fillQuota puzzle size boxDims target st3 = Some st4 ∧
    reaches puzzle size boxDims st3 cells1 st4 ∧
    length cells1 = target - base.size (removedCells st3) ∧
    createPuzzle h grid size difficulty rnd = Some (Ok puzzle, heap st4, rnd3).
Proof.
  intros Hin.
  destruct (supported_size size Hin) as (bd & Hbd & Hr & Hc & Hrc & Hle & _).
  destruct (copyGrid_spec h grid) as (copies & Hcopy & Hlen & Hcopies).
  set (puzzle := seq (length h) (length grid)) in *.
  set (st0 := initialRemoval (h ++ copies) size bd).
  assert (0 < size) as Hpos by (apply VALID_SIZES_cases in Hin; lia).
  pose proof (tracked_initial size bd (h ++ copies)) as Htr0.
  pose proof (coverage_spec puzzle size bd Hpos Hr Hc Hrc Hle st0 rnd Htr0) as Hcov.
  destruct (coverage puzzle size bd st0 rnd) as [st3 rnd3] eqn:Hcoverage.
  simpl in Hcov. destruct Hcov as (cells0 & Hreach0 & Hlen0 & Hrows & Hcols & Hboxes).
  pose proof (tracked_reaches puzzle size bd _ _ _ Hreach0 Htr0) as Htr3.
  destruct (targetCellsToRemove_exact size difficulty Hin) as [_ Htarget].
  destruct (fillQuota_spec puzzle size bd (targetCellsToRemove size difficulty) st3 Htr3 Htarget)
    as (st4 & cells1 & Hfill & Hreach1 & Hlen1).
  exists bd, copies, st3, rnd3, cells0, st4, cells1. simpl.
  split_and!; try done.
  unfold createPuzzle, assertValidSize.
  apply isValidSize_spec in Hin. rewrite Hin, Hcopy, Hbd.
  fold st0. fold puzzle. rewrite Hcoverage. fold puzzle. by rewrite Hfill.
Qed.

(** [createPuzzle] always returns or throws: the round-robin loop never
    exceeds the bound of the embedding. *)
Lemma createPuzzle_total h grid size difficulty rnd :
  is_Some (createPuzzle h grid size difficulty rnd).
Proof.
  destruct (decide (size ∈ VALID_SIZES)) as [Hin|Hout].
  - destruct (createPuzzle_run h grid size difficulty rnd Hin)
      as (? & ? & ? & ? & ? & ? & ? & H). simpl in H.
    destruct H as (_ & _ & _ & _ & _ & _ & _ & _ & _ & _ & _ & _ & _ & ->). eauto.
  - unfold createPuzzle, assertValidSize.
    destruct (isValidSize size) eqn:Hv; [by apply isValidSize_spec in Hv|eauto].
Qed.

(** ** All the outcomes of the coverage phases

    The coverage phases make at most one random choice per row, column and
    box, among at most three options.  [coverageAll] follows every choice,
    so that a property of all its states holds whatever the random source
    yields. *)
Section outcomes.
Context (puzzle : GridRef) (size : nat) (boxDims : BoxDimensions).

Definition coverRowAll (row : nat) (st : Removal) : list Removal :=
  if bool_decide (row ∉ rowsWithRemovals st) then
    let availableCols :=
      (λ col, (col, getCellPriority size boxDims st row col))
        <$> filter (λ col, (row, col) ∉ removedCells st) (seq 0 size) in
    if 0 <? length availableCols then
      (λ x, removeCell puzzle size boxDims row x.1 st)
        <$> topOptions (jsSort (λ a b, 0 <? a.2 - b.2)%float availableCols)
    else [st]
  else [st].

Definition coverColAll (col : nat) (st : Removal) : list Removal :=
  if bool_decide (col ∉ colsWithRemovals st) then
    let availableRows :=
      (λ row, (row, getCellPriority size boxDims st row col))
        <$> filter (λ row, (row, col) ∉ removedCells st) (seq 0 size) in
    if 0 <? length availableRows then
      (λ x, removeCell puzzle size boxDims x.1 col st)
        <$> topOptions (jsSort (λ a b, 0 <? a.2 - b.2)%float availableRows)
    else [st]
  else [st].

Definition coverBoxAll (boxIdx : nat) (st : Removal) : list Removal :=
  let boxesPerRow := size / cols boxDims in
  if bool_decide (boxIdx ∉ boxesWithRemovals st) then
    let boxRow := boxIdx / boxesPerRow in
    let boxCol := boxIdx `mod` boxesPerRow in
    let startRow := boxRow * rows boxDims in
    let startCol := boxCol * cols boxDims in
    let availableCells :=
      (λ '(row, col), (row, col, getCellPriority size boxDims st row col))
        <$> filter (λ rc, rc ∉ removedCells st)
              (i ← seq 0 (rows boxDims);
               (λ j, (startRow + i, startCol + j)) <$> seq 0 (cols boxDims)) in
    if 0 <? length availableCells then
      (λ x, removeCell puzzle size boxDims x.1.1 x.1.2 st)
        <$> topOptions (jsSort (λ a b, 0 <? a.2 - b.2)%float availableCells)
    else [st]
  else [st].

Definition coverageAll (st : Removal) : list Removal :=
  let boxesPerRow := size / cols boxDims in
  let sts := foldl (λ sts row, sts ≫= coverRowAll row) [st] (seq 0 size) in
  let sts := foldl (λ sts col, sts ≫= coverColAll col) sts (seq 0 size) in
  foldl (λ sts boxIdx, sts ≫= coverBoxAll boxIdx) sts (seq 0 (boxesPerRow * boxesPerRow)).

Lemma pickTop_cases {A} (sorted : list A) rnd :
  0 < length sorted →
  ∃ x, (pickTop sorted rnd).1 = Some x ∧ x ∈ topOptions sorted.
Proof.
  intros Hlen. destruct (pickTop_is_Some sorted rnd Hlen) as [x Hx].
  exists x. split; [done|]. by eapply pickTop_elem_of.
Qed.

Lemma coverRow_in row st rnd :
  (coverRow puzzle size boxDims row st rnd).1 ∈ coverRowAll row st.
Proof.
  unfold coverRow, coverRowAll. case_bool_decide; [|set_solver].
  destruct (0 <? length _) eqn:Hpos; [|set_solver]. apply Nat.ltb_lt in Hpos.
  rewrite <-(jsSort_length (λ a b, 0 <? a.2 - b.2)%float) in Hpos.
  destruct (pickTop_cases _ rnd Hpos) as ([col prio] & Hpick & Hin).
  destruct (pickTop _ rnd) as [o rnd']. simpl in Hpick. subst o. simpl.
  apply list_elem_of_fmap. by exists (col, prio).
Qed.

Lemma coverCol_in col st rnd :
  (coverCol puzzle size boxDims col st rnd).1 ∈ coverColAll col st.
Proof.
  unfold coverCol, coverColAll. case_bool_decide; [|set_solver].
  destruct (0 <? length _) eqn:Hpos; [|set_solver]. apply Nat.ltb_lt in Hpos.
  rewrite <-(jsSort_length (λ a b, 0 <? a.2 - b.2)%float) in Hpos.
  destruct (pickTop_cases _ rnd Hpos) as ([row prio] & Hpick & Hin).
  destruct (pickTop _ rnd) as [o rnd']. simpl in Hpick. subst o. simpl.
  apply list_elem_of_fmap. by exists (row, prio).
Qed.

Lemma coverBox_in boxIdx st rnd :
  (coverBox puzzle size boxDims boxIdx st rnd).1 ∈ coverBoxAll boxIdx st.
Proof.
  unfold coverBox, coverBoxAll. case_bool_decide; [|set_solver].
  destruct (0 <? length _) eqn:Hpos; [|set_solver]. apply Nat.ltb_lt in Hpos.
  rewrite <-(jsSort_length (λ a b, 0 <? a.2 - b.2)%float) in Hpos.
  destruct (pickTop_cases _ rnd Hpos) as ([[row col] prio] & Hpick & Hin).
  destruct (pickTop _ rnd) as [o rnd']. simpl in Hpick. subst o. simpl.
  apply list_elem_of_fmap. by exists (row, col, prio).
Qed.

Lemma fold_in (step : nat → Removal → Rand → Removal * Rand)
    (stepAll : nat → Removal → list Removal) (l : list nat) :
  (∀ x st rnd, (step x st rnd).1 ∈ stepAll x st) →
  ∀ st rnd sts, st ∈ sts →
    (foldl (λ '(st, rnd) x, step x st rnd) (st, rnd) l).1
    ∈ foldl (λ sts x, sts ≫= stepAll x) sts l.
Proof.
  intros Hstep. induction l as [|x l IH]; intros st rnd sts Hin; [done|].
  cbn [foldl]. pose proof (Hstep x st rnd) as Hx.
  destruct (step x st rnd) as [st1 rnd1]. apply IH.
  apply list_elem_of_bind. by exists st.
Qed.

Lemma coverage_in st rnd :
  (coverage puzzle size boxDims st rnd).1 ∈ coverageAll st.
Proof.
  unfold coverage, coverageAll, coverRows, coverCols, coverBoxes.
  pose proof (fold_in (coverRow puzzle size boxDims) coverRowAll (seq 0 size) coverRow_in
                st rnd [st] ltac:(set_solver)) as H1.
  destruct (foldl _ (st, rnd) (seq 0 size)) as [st1 rnd1].
  pose proof (fold_in (coverCol puzzle size boxDims) coverColAll (seq 0 size) coverCol_in
                st1 rnd1 _ H1) as H2.
  destruct (foldl _ (st1, rnd1) (seq 0 size)) as [st2 rnd2].
  apply (fold_in (coverBox puzzle size boxDims) coverBoxAll _ coverBox_in st2 rnd2 _ H2).
Qed.
End outcomes.

(** On the 4 by 4 grid the coverage phases remove at most 7 cells, and on
    the 6 by 6 grid at most 10, whatever the random choices. *)
Lemma coverage_outcomes_4 h puzzle :
  forallb (λ st, bool_decide (base.size (removedCells st) ≤ 7))
    (coverageAll puzzle 4 (mkBox 2 2) (initialRemoval h 4 (mkBox 2 2))) = true.
Proof. vm_compute. reflexivity. Qed.

Lemma coverage_outcomes_6 h puzzle :
  forallb (λ st, bool_decide (base.size (removedCells st) ≤ 10))
    (coverageAll puzzle 6 (mkBox 2 3) (initialRemoval h 6 (mkBox 2 3))) = true.
Proof. vm_compute. reflexivity. Qed.

(** On the 6 by 6 grid the coverage phases do not look at the boxes 4 and
    5 (the loop of step 3 stops at [boxesPerRow * boxesPerRow = 4]), but
    the quota phase always reaches them. *)
Lemma quota_outcomes_6 h puzzle difficulty :
  forallb (λ st,
    match fillQuota puzzle 6 (mkBox 2 3) (targetCellsToRemove 6 difficulty) st with
    | Some st' => bool_decide (4 ∈ boxesWithRemovals st' ∧ 5 ∈ boxesWithRemovals st')
    | None => false
    end)
    (coverageAll puzzle 6 (mkBox 2 3) (initialRemoval h 6 (mkBox 2 3))) = true.
Proof. destruct difficulty; vm_compute; reflexivity. Qed.

(** The grid lives in the store: its rows are allocated, and it is a
    [size] by [size] grid. *)
Definition storedGrid (size : nat) (h : Heap) (grid : GridRef) : Prop :=
  Forall (λ l, l < length h) grid ∧ wfGrid size (gridAt h grid).

(** The number of cells that the coverage phases (steps 1 to 3) remove in
    the call [createPuzzle(grid, size, _)] with the random source [rnd]. *)
Definition coverageRemovals (h : Heap) (grid : GridRef) (size : nat) (rnd : Rand) : nat :=
  match getBoxDimensions size with
  | Ok boxDims =>
      let '(puzzle, h1) := copyGrid h grid in
      base.size (removedCells (coverage puzzle size boxDims (initialRemoval h1 size boxDims) rnd).1)
  | Throw _ => 0
  end.

(** What a call of [createPuzzle] that returns a puzzle has done. *)
Lemma createPuzzle_result h grid size difficulty rnd puzzle h' rnd' :
  size ∈ VALID_SIZES →
  createPuzzle h grid size difficulty rnd = Some (Ok puzzle, h', rnd') →
  ∃ boxDims copies st3 st4 rows,
    let target := targetCellsToRemove size difficulty in
    getBoxDimensions size = Ok boxDims ∧
    puzzle = seq (length h) (length grid) ∧
    (Forall (λ l, l < length h) grid → copies = gridAt h grid) ∧
    (* the coverage phases *)
    st3 = (coverage puzzle size boxDims (initialRemoval (h ++ copies) size boxDims) rnd).1 ∧
    coverageRemovals h grid size rnd = base.size (removedCells st3) ∧
    base.size (removedCells st3) ≤ size + size + size / cols boxDims * (size / cols boxDims) ∧
    (* the quota phase *)
    fillQuota puzzle size boxDims target st3 = Some st4 ∧
    base.size (removedCells st4) = target `max` base.size (removedCells st3) ∧
    tracked size boxDims st4 ∧
    (∀ r, r < size → r ∈ rowsWithRemovals st4) ∧
    (∀ c, c < size → c ∈ colsWithRemovals st4) ∧
    (∀ b, b < size / cols boxDims * (size / cols boxDims) → b ∈ boxesWithRemovals st4) ∧
    (* the store *)
    h' = h ++ rows ∧ length rows = length grid ∧ gridAt h' puzzle = rows ∧
    ∀ r c, cell rows r c =
           if decide ((r, c) ∈ removedCells st4 ∧ is_Some (cell copies r c))
           then Some 0 else cell copies r c.
Proof.
  intros Hin Hcreate.
  destruct (createPuzzle_run h grid size difficulty rnd Hin)
    as (bd & copies & st3 & rnd3 & cells0 & st4 & cells1 & Hrun). simpl in Hrun.
  destruct Hrun as (Hbd & Hcopy & Hlen & Hcopies & Hcov & Hreach0 & Hlen0 & Hrows & Hcols
                    & Hboxes & Hfill & Hreach1 & Hlen1 & Hres).
  rewrite Hres in Hcreate. injection Hcreate as <- <- <-.
  pose proof (tracked_initial size bd (h ++ copies)) as Htr0.
  pose proof (tracked_reaches _ size bd _ _ _ Hreach0 Htr0) as Htr3.
  pose proof (tracked_reaches _ size bd _ _ _ Hreach1 Htr3) as Htr4.
  pose proof (reaches_size _ size bd _ _ _ Hreach0) as Hsize0.
  pose proof (reaches_size _ size bd _ _ _ Hreach1) as Hsize1.
  change (base.size (removedCells (initialRemoval (h ++ copies) size bd)))
    with (base.size (∅ : gset (nat * nat))) in Hsize0.
  rewrite size_empty in Hsize0.
  rewrite <-Hlen in Hreach0, Hreach1.
  pose proof (storeInv_reaches h copies size bd _ _ _ Hreach0
                (storeInv_initial h copies size bd)) as Hst3.
  destruct (storeInv_reaches h copies size bd _ _ _ Hreach1 Hst3)
    as (rows' & Hheap & Hlen' & Hcells).
  rewrite Hlen in Hreach0, Hreach1.
  exists bd, copies, st3, st4, rows'. simpl. split_and!; try done.
  - by rewrite Hcov.
  - unfold coverageRemovals. by rewrite Hbd, Hcopy, Hcov.
  - lia.
  - lia.
  - intros r Hr.
    by apply (covered_reaches _ size bd rowsWithRemovals _ _ _
                (rows_removeCell _ size bd) Hreach1), Hrows.
  - intros c Hc.
    by apply (covered_reaches _ size bd colsWithRemovals _ _ _
                (cols_removeCell _ size bd) Hreach1), Hcols.
  - intros b Hb.
    by apply (covered_reaches _ size bd boxesWithRemovals _ _ _
                (boxes_removeCell _ size bd) Hreach1), Hboxes.
  - lia.
  - rewrite Hheap, <-Hlen, <-Hlen'. apply gridAt_fresh.
Qed.

Lemma isValidSize_unsupported size : size ∉ VALID_SIZES → isValidSize size = false.
Proof.
  intros Hout. destruct (isValidSize size) eqn:Hv; [|done]. by apply isValidSize_spec in Hv.
Qed.

(** C6: for every size other than 4, 6 and 9, [generateSudoku] and
    [createPuzzle] throw the unsupported-size error, whatever the grid and
    the difficulty label, before doing anything else: no random draw is
    made and the store is as it was (no copy, no removal); with the cache
    of digits in the picture, no grid is allocated and the cache is as it
    was. *)
Theorem unsupported_size_rejected size :
  size ∉ VALID_SIZES →
  (∀ rnd, generateSudoku size rnd = Some (Throw UnsupportedSize, rnd)) ∧
  (∀ h grid difficulty rnd,
     createPuzzle h grid size difficulty rnd = Some (Throw UnsupportedSize, h, rnd)) ∧
  (∀ w rnd, Store.generateSudoku size w rnd = Some (Throw UnsupportedSize, w, rnd)) ∧
  (∀ grid difficulty w rnd,
     Store.createPuzzle grid size difficulty w rnd = Some (Throw UnsupportedSize, w, rnd)).
Proof.
  intros Hv%isValidSize_unsupported.
  split_and!; intros;
    unfold Store.generateSudoku, Store.createPuzzle, generateSudoku, createPuzzle,
      assertValidSize; rewrite Hv; [done|done|done|by destruct w].
Qed.

Lemma unsupported_size_rejected_witness :
  (∀ rnd, generateSudoku 5 rnd = Some (Throw UnsupportedSize, rnd)) ∧
  (∀ h grid difficulty rnd,
     createPuzzle h grid 5 difficulty rnd = Some (Throw UnsupportedSize, h, rnd)) ∧
  (∀ w rnd, Store.generateSudoku 5 w rnd = Some (Throw UnsupportedSize, w, rnd)) ∧
  (∀ grid difficulty w rnd,
     Store.createPuzzle grid 5 difficulty w rnd = Some (Throw UnsupportedSize, w, rnd)).
Proof.
  apply (unsupported_size_rejected 5).
  apply (bool_decide_unpack _). vm_compute. exact I.
Defined.

(** C5: [createPuzzle] never changes its argument.  Every array that was in
    the store before the call is the same after it, so the grid passed in
    denotes the same digits; the rows of the returned puzzle are arrays
    allocated by the call, distinct from each other and from the rows of
    the argument.  When the call throws, the store is untouched. *)
Theorem createPuzzle_leaves_solution h grid size difficulty rnd res h' rnd' :
  Forall (λ l, l < length h) grid →
  createPuzzle h grid size difficulty rnd = Some (res, h', rnd') →
  (∀ l, l < length h → h' !! l = h !! l) ∧
  gridAt h' grid = gridAt h grid ∧
  match res with
  | Ok puzzle => NoDup puzzle ∧ ∀ l, l ∈ puzzle → length h ≤ l ∧ l ∉ grid
  | Throw _ => h' = h
  end.
Proof.
  intros Hvalid Hcreate.
  destruct (decide (size ∈ VALID_SIZES)) as [Hin|Hout].
  - destruct (createPuzzle_run h grid size difficulty rnd Hin)
      as (? & ? & ? & ? & ? & ? & ? & Hrun). simpl in Hrun.
    destruct Hrun as (_ & _ & _ & _ & _ & _ & _ & _ & _ & _ & _ & _ & _ & Hres).
    rewrite Hres in Hcreate. injection Hcreate as <- <- <-.
    destruct (createPuzzle_result h grid size difficulty rnd _ _ _ Hin Hres)
      as (bd & copies & st3 & st4 & rows' & Hr). simpl in Hr.
    destruct Hr as (_ & _ & _ & _ & _ & _ & _ & _ & _ & _ & _ & _ & Hh' & _).
    rewrite Hh'.
    assert (∀ l, l < length h → (h ++ rows') !! l = h !! l) as Hframe.
    { intros l Hl. by rewrite lookup_app_l. }
    split_and!; [done| |apply NoDup_seq|].
    + unfold gridAt. apply list_fmap_ext. intros i l Hl.
      rewrite Forall_lookup in Hvalid. by rewrite Hframe by eauto.
    + intros l Hl%elem_of_seq. split; [lia|]. intros Hg.
      rewrite Forall_forall in Hvalid. specialize (Hvalid l Hg). lia.
  - apply isValidSize_unsupported in Hout.
    unfold createPuzzle, assertValidSize in Hcreate. rewrite Hout in Hcreate.
    by injection Hcreate as <- <- <-.
Qed.

Lemma createPuzzle_leaves_solution_witness :
  let h : Heap := [[2; 3; 1; 4]; [4; 1; 3; 2]; [1; 4; 2; 3]; [3; 2; 4; 1]] in
  let h' : Heap := h ++ [[0; 3; 0; 4]; [4; 0; 3; 2]; [0; 4; 2; 0]; [3; 0; 4; 1]] in
  (∀ l, l < length h → h' !! l = h !! l) ∧
  gridAt h' [0; 1; 2; 3] = gridAt h [0; 1; 2; 3] ∧
  NoDup [4; 5; 6; 7] ∧ ∀ l, l ∈ [4; 5; 6; 7] → length h ≤ l ∧ l ∉ [0; 1; 2; 3].
Proof.
  apply (createPuzzle_leaves_solution
           [[2; 3; 1; 4]; [4; 1; 3; 2]; [1; 4; 2; 3]; [3; 2; 4; 1]] [0; 1; 2; 3] 4 easy
           (replay [0; 2; 2; 2; 0; 0]) (Ok [4; 5; 6; 7]) _
           (mkRand (draws (replay [0; 2; 2; 2; 0; 0])) 6)).
  - apply (bool_decide_unpack _). vm_compute. exact I.
  - vm_compute. reflexivity.
Defined.

(** ** Containment *)

(** Every cell of the puzzle is 0 or the digit of the solution. *)
Definition containedIn (h : Heap) (grid : GridRef) (hp : Heap) (puzzle : GridRef) : Prop :=
  ∀ r c, cell (gridAt hp puzzle) r c = Some 0 ∨
         cell (gridAt hp puzzle) r c = cell (gridAt h grid) r c.

Lemma writeCell_zero hp puzzle r c r' c' :
  cell (gridAt (writeCell hp puzzle r c 0) puzzle) r' c' = Some 0 ∨
  cell (gridAt (writeCell hp puzzle r c 0) puzzle) r' c' = cell (gridAt hp puzzle) r' c'.
Proof.
  unfold writeCell. destruct (puzzle !! r) as [l|]; [|by right].
  unfold cell, gridAt. rewrite !list_lookup_fmap.
  destruct (puzzle !! r') as [l'|]; [|by right]. simpl.
  destruct (decide (l = l')) as [<-|Hne].
  - rewrite list_lookup_alter_eq. destruct (hp !! l) as [row|]; [|by right]. simpl.
    destruct (decide (c = c')) as [<-|Hc].
    + destruct (row !! c) as [v|] eqn:Hv.
      * left. apply list_lookup_insert_eq. by eapply lookup_lt_Some.
      * right. rewrite list_insert_ge; [done|]. by apply lookup_ge_None.
    + right. by rewrite list_lookup_insert_ne.
  - right. by rewrite list_lookup_alter_ne.
Qed.

(** C4: the puzzle that [createPuzzle] returns holds, in every cell, 0 or
    the digit of the solution.  This holds from the copy on and is kept by
    every call of [removeCell], the only place where the puzzle is written,
    and which only writes 0. *)
Theorem puzzle_containment h grid size difficulty rnd puzzle h' rnd' :
  size ∈ VALID_SIZES →
  Forall (λ l, l < length h) grid →
  createPuzzle h grid size difficulty rnd = Some (Ok puzzle, h', rnd') →
  containedIn h grid (copyGrid h grid).2 puzzle ∧
  (∀ boxDims st r c,
     containedIn h grid (heap st) puzzle →
     containedIn h grid (heap (removeCell puzzle size boxDims r c st)) puzzle) ∧
  containedIn h grid h' puzzle.
Proof.
  intros Hin Hvalid Hcreate.
  destruct (createPuzzle_result h grid size difficulty rnd _ _ _ Hin Hcreate)
    as (bd & copies & st3 & st4 & rows' & Hr). simpl in Hr.
  destruct Hr as (_ & Hpuzzle & Hcopies & _ & _ & _ & _ & _ & _ & _ & _ & _ & Hh' & Hlen
                  & Hgrid & Hcells).
  specialize (Hcopies Hvalid). subst copies.
  split_and!.
  - destruct (copyGrid_spec h grid) as (copies & -> & Hlenc & Hc). simpl.
    rewrite (Hc Hvalid), Hpuzzle. intros r c. right.
    rewrite <-(length_fmap (λ l, default [] (h !! l)) grid). fold (gridAt h grid).
    by rewrite gridAt_fresh.
  - intros boxDims st r c Hcont r' c'. unfold removeCell.
    case_bool_decide; [apply Hcont|]. simpl.
    destruct (writeCell_zero (heap st) puzzle r c r' c') as [-> | ->]; [by left|apply Hcont].
  - intros r c. rewrite Hgrid, Hcells. case_decide; [by left|by right].
Qed.

Lemma puzzle_containment_witness :
  let h : Heap := [[2; 3; 1; 4]; [4; 1; 3; 2]; [1; 4; 2; 3]; [3; 2; 4; 1]] in
  let h' : Heap := h ++ [[0; 3; 0; 4]; [4; 0; 3; 2]; [0; 4; 2; 0]; [3; 0; 4; 1]] in
  containedIn h [0; 1; 2; 3] (copyGrid h [0; 1; 2; 3]).2 [4; 5; 6; 7] ∧
  (∀ boxDims st r c,
     containedIn h [0; 1; 2; 3] (heap st) [4; 5; 6; 7] →
     containedIn h [0; 1; 2; 3] (heap (removeCell [4; 5; 6; 7] 4 boxDims r c st)) [4; 5; 6; 7]) ∧
  containedIn h [0; 1; 2; 3] h' [4; 5; 6; 7].
Proof.
  apply (puzzle_containment
           [[2; 3; 1; 4]; [4; 1; 3; 2]; [1; 4; 2; 3]; [3; 2; 4; 1]] [0; 1; 2; 3] 4 easy
           (replay [0; 2; 2; 2; 0; 0]) [4; 5; 6; 7] _
           (mkRand (draws (replay [0; 2; 2; 2; 0; 0])) 6)).
  - apply (bool_decide_unpack _). vm_compute. exact I.
  - apply (bool_decide_unpack _). vm_compute. exact I.
  - vm_compute. reflexivity.
Defined.

(** ** Density and coverage *)

Ltac target_value :=
  match goal with
  | |- context [targetCellsToRemove ?s ?d] =>
      let v := eval vm_compute in (targetCellsToRemove s d) in
      change (targetCellsToRemove s d) with v
  end.

(** The coverage phases never remove more than the target, except on the
    4 by 4 grid at the easy level. *)
Lemma coverage_within_target h puzzle size boxDims difficulty rnd :
  size ∈ VALID_SIZES → getBoxDimensions size = Ok boxDims →
  let st3 := (coverage puzzle size boxDims (initialRemoval h size boxDims) rnd).1 in
  base.size (removedCells st3) ≤ size + size + size / cols boxDims * (size / cols boxDims) →
  (size = 4 → base.size (removedCells st3) ≤ 7) ∧
  ((size, difficulty) ≠ (4, easy) →
   base.size (removedCells st3) ≤ targetCellsToRemove size difficulty).
Proof.
  intros Hin Hbd st3 Hcrude.
  pose proof (coverage_in puzzle size boxDims (initialRemoval h size boxDims) rnd) as Hall.
  fold st3 in Hall. apply VALID_SIZES_cases in Hin.
  destruct Hin as [Hs|[Hs|Hs]]; subst size; injection Hbd as <-.
  - pose proof (coverage_outcomes_4 h puzzle) as Henum.
    rewrite forallb_forall in Henum. apply list_elem_of_In, Henum, bool_decide_eq_true in Hall.
    clear Henum. clearbody st3. split; [done|]. intros Hne.
    destruct difficulty; [done|..]; target_value; lia.
  - pose proof (coverage_outcomes_6 h puzzle) as Henum.
    rewrite forallb_forall in Henum. apply list_elem_of_In, Henum, bool_decide_eq_true in Hall.
    clear Henum. clearbody st3. split; [done|]. intros _.
    destruct difficulty; target_value; lia.
  - clearbody st3. split; [done|]. intros _. simpl in Hcrude.
    destruct difficulty; target_value; lia.
Qed.

(** C3 (as amended): [createPuzzle] returns a puzzle, and the number of
    zero cells of that puzzle is the larger of the target
    [floor (size^2 * (1 - fillFraction))] and of the number of cells that
    the coverage phases removed.  It is exactly the target for every
    supported size and difficulty except size 4 at the easy level, where
    the target is 5 and the coverage phases can remove 6 or 7 cells: there
    the count is between 5 and 7. *)
Theorem puzzle_zero_count h grid size difficulty rnd :
  size ∈ VALID_SIZES →
  storedGrid size h grid → complete size (gridAt h grid) →
  ∃ puzzle h' rnd',
    createPuzzle h grid size difficulty rnd = Some (Ok puzzle, h', rnd') ∧
    let target := size * size * (100 - fillPercent difficulty) / 100 in
    let zeros := emptyCount size (gridAt h' puzzle) in
    targetCellsToRemove size difficulty = target ∧
    zeros = target `max` coverageRemovals h grid size rnd ∧
    ((size, difficulty) ≠ (4, easy) → zeros = target) ∧
    ((size, difficulty) = (4, easy) → 5 ≤ zeros ≤ 7).
Proof.
  intros Hin [Hvalid Hwf] Hcomplete.
  destruct (createPuzzle_run h grid size difficulty rnd Hin)
    as (? & ? & ? & rnd' & ? & st & ? & Hrun). simpl in Hrun.
  destruct Hrun as (_ & _ & _ & _ & _ & _ & _ & _ & _ & _ & _ & _ & _ & Hcreate).
  exists (seq (length h) (length grid)), (heap st), rnd'. split; [done|].
  set (puzzle := seq (length h) (length grid)) in *. set (h' := heap st) in *.
  clearbody puzzle h'. intros target zeros.
  destruct (createPuzzle_result h grid size difficulty rnd _ _ _ Hin Hcreate)
    as (bd & copies & st3 & st4 & rows' & Hr). simpl in Hr.
  destruct Hr as (Hbd & Hpuzzle & Hcopies & Hst3 & Hcov & Hcrude & _ & Hsize & Htr & _ & _ & _
                  & _ & _ & Hgrid & Hcells).
  specialize (Hcopies Hvalid). subst copies.
  destruct (targetCellsToRemove_exact size difficulty Hin) as [Htarget _].
  fold target in Htarget.
  assert (zeros = base.size (removedCells st4)) as Hzeros.
  { unfold zeros. rewrite Hgrid.
    apply (emptyCount_removed size (gridAt h grid)); [done|done| |done].
    intros [r c] Hp. destruct Htr as [Htr _]. by destruct (Htr r c Hp) as (? & ? & _). }
  rewrite Hzeros, Hsize, Hcov, Htarget.
  rewrite Hst3 in Hcrude |- *.
  destruct (coverage_within_target (h ++ gridAt h grid) puzzle size bd difficulty rnd
              Hin Hbd Hcrude) as [H4 Hothers].
  rewrite Htarget in Hothers.
  split_and!; [done|done|..].
  - intros Hne. specialize (Hothers Hne). lia.
  - intros [= -> ->]. specialize (H4 eq_refl). clear Hothers.
    change target with 5. lia.
Qed.

Lemma puzzle_zero_count_witness :
  let h : Heap := [[2; 3; 1; 4]; [4; 1; 3; 2]; [1; 4; 2; 3]; [3; 2; 4; 1]] in
  ∃ puzzle h' rnd',
    createPuzzle h [0; 1; 2; 3] 4 medium (replay [1; 0; 2]) = Some (Ok puzzle, h', rnd') ∧
    let target := 4 * 4 * (100 - fillPercent medium) / 100 in
    let zeros := emptyCount 4 (gridAt h' puzzle) in
    targetCellsToRemove 4 medium = target ∧
    zeros = target `max` coverageRemovals h [0; 1; 2; 3] 4 (replay [1; 0; 2]) ∧
    ((4, medium) ≠ (4, easy) → zeros = target) ∧
    ((4, medium) = (4, easy) → 5 ≤ zeros ≤ 7).
Proof.
  apply (puzzle_zero_count
           [[2; 3; 1; 4]; [4; 1; 3; 2]; [1; 4; 2; 3]; [3; 2; 4; 1]] [0; 1; 2; 3] 4 medium
           (replay [1; 0; 2])).
  - apply (bool_decide_unpack _). vm_compute. exact I.
  - split; [apply (bool_decide_unpack _); vm_compute; exact I|].
    split; [reflexivity|]. apply (bool_decide_unpack _). vm_compute. exact I.
  - intros r c Hr Hc.
    do 4 (destruct r as [|r]; [do 4 (destruct c as [|c]; [discriminate|]); lia|]). lia.
Defined.

(** C3, as stated, fails: on a 4 by 4 solution at the easy level, with the
    random choices 0, 2, 2, 2, 0, 0, the coverage phases alone remove 6
    cells, one more than the target [floor (16 * 0.35) = 5], and the puzzle
    has 6 zero cells. *)
Lemma puzzle_zero_count_exceeds_target :
  let h : Heap := [[2; 3; 1; 4]; [4; 1; 3; 2]; [1; 4; 2; 3]; [3; 2; 4; 1]] in
  createPuzzle h [0; 1; 2; 3] 4 easy (replay [0; 2; 2; 2; 0; 0])
  = Some (Ok [4; 5; 6; 7],
          h ++ [[0; 3; 0; 4]; [4; 0; 3; 2]; [0; 4; 2; 0]; [3; 0; 4; 1]],
          mkRand (draws (replay [0; 2; 2; 2; 0; 0])) 6) ∧
  emptyCount 4 [[0; 3; 0; 4]; [4; 0; 3; 2]; [0; 4; 2; 0]; [3; 0; 4; 1]] = 6 ∧
  targetCellsToRemove 4 easy = 5 ∧
  4 * 4 * (100 - fillPercent easy) / 100 = 5 ∧
  emptyCount 4 [[0; 3; 0; 4]; [4; 0; 3; 2]; [0; 4; 2; 0]; [3; 0; 4; 1]]
    ≠ targetCellsToRemove 4 easy.
Proof. vm_compute. split_and!; done. Qed.

(** Every box of the grid has a removed cell at the end of [createPuzzle]:
    the boxes that step 3 looks at because of step 3, and the last two
    boxes of the 6 by 6 grid because of step 4. *)
Lemma all_boxes_covered h puzzle size boxDims difficulty rnd st3 st4 :
  size ∈ VALID_SIZES → getBoxDimensions size = Ok boxDims →
  st3 = (coverage puzzle size boxDims (initialRemoval h size boxDims) rnd).1 →
  fillQuota puzzle size boxDims (targetCellsToRemove size difficulty) st3 = Some st4 →
  (∀ b, b < size / cols boxDims * (size / cols boxDims) → b ∈ boxesWithRemovals st4) →
  ∀ b, b < size / rows boxDims * (size / cols boxDims) → b ∈ boxesWithRemovals st4.
Proof.
  intros Hin Hbd Hst3 Hfill Hcov b Hb. apply VALID_SIZES_cases in Hin.
  destruct Hin as [Hs|[Hs|Hs]]; subst size; injection Hbd as <-;
    cbn [rows cols] in *.
  - apply Hcov. exact Hb.
  - change (6 / 2 * (6 / 3)) with 6 in Hb. change (6 / 3 * (6 / 3)) with 4 in Hcov.
    destruct (decide (b < 4)) as [Hlt|Hge]; [by apply Hcov|].
    pose proof (coverage_in puzzle 6 (mkBox 2 3) (initialRemoval h 6 (mkBox 2 3)) rnd) as Hall.
    rewrite <-Hst3 in Hall.
    pose proof (quota_outcomes_6 h puzzle difficulty) as Henum.
    rewrite forallb_forall in Henum. apply list_elem_of_In, Henum in Hall.
    rewrite Hfill in Hall. apply bool_decide_eq_true in Hall as [H4 H5].
    assert (b = 4 ∨ b = 5) as [-> | ->] by lia; done.
  - apply Hcov. exact Hb.
Qed.

(** C2: for every supported size, every difficulty label, every stored
    grid and every sequence of random choices, [createPuzzle] returns a
    puzzle, and that puzzle has a zero cell in every row, in every column
    and in every box. *)
Theorem puzzle_coverage h grid size difficulty rnd :
  size ∈ VALID_SIZES →
  storedGrid size h grid →
  ∃ puzzle h' rnd',
    createPuzzle h grid size difficulty rnd = Some (Ok puzzle, h', rnd') ∧
    ∃ boxDims, getBoxDimensions size = Ok boxDims ∧
      let g := gridAt h' puzzle in
      (∀ r, r < size → ∃ c, c < size ∧ cell g r c = Some 0) ∧
      (∀ c, c < size → ∃ r, r < size ∧ cell g r c = Some 0) ∧
      (∀ br bc, br < size / rows boxDims → bc < size / cols boxDims →
         ∃ r c, r < size ∧ c < size ∧
                r / rows boxDims = br ∧ c / cols boxDims = bc ∧ cell g r c = Some 0).
Proof.
  intros Hin [Hvalid Hwf].
  destruct (createPuzzle_run h grid size difficulty rnd Hin)
    as (? & ? & ? & rnd' & ? & st & ? & Hrun). simpl in Hrun.
  destruct Hrun as (_ & _ & _ & _ & _ & _ & _ & _ & _ & _ & _ & _ & _ & Hcreate).
  exists (seq (length h) (length grid)), (heap st), rnd'. split; [done|].
  set (puzzle := seq (length h) (length grid)) in *. set (h' := heap st) in *.
  clearbody puzzle h'.
  destruct (createPuzzle_result h grid size difficulty rnd _ _ _ Hin Hcreate)
    as (bd & copies & st3 & st4 & rows' & Hr). simpl in Hr.
  destruct Hr as (Hbd & Hpuzzle & Hcopies & Hst3 & _ & _ & Hfill & _ & Htr & Hrows & Hcols
                  & Hboxes & _ & _ & Hgrid & Hcells).
  specialize (Hcopies Hvalid). subst copies.
  pose proof (all_boxes_covered _ _ _ _ _ _ _ _ Hin Hbd Hst3 Hfill Hboxes) as Hallboxes.
  destruct (supported_size size Hin) as (bd' & Hbd' & Hrp & Hcp & Hrc & Hle & _).
  rewrite Hbd in Hbd'. injection Hbd' as <-.
  destruct Htr as (Hin1 & Hin2 & Hin3 & Hin4).
  assert (∀ r c, (r, c) ∈ removedCells st4 →
                 r < size ∧ c < size ∧ cell rows' r c = Some 0) as Hzero.
  { intros r c Hp. destruct (Hin1 r c Hp) as (Hr & Hc & _). split_and!; [done..|].
    rewrite Hcells. rewrite decide_True; [done|]. split; [done|].
    by apply (cell_is_Some size). }
  exists bd. split; [done|]. simpl. rewrite Hgrid. split_and!.
  - intros r Hr. destruct (Hin2 r (Hrows r Hr)) as [c Hp].
    destruct (Hzero r c Hp) as (_ & ? & ?). eauto.
  - intros c Hc. destruct (Hin3 c (Hcols c Hc)) as [r Hp].
    destruct (Hzero r c Hp) as (? & _ & ?). eauto.
  - intros br bc Hbr Hbc.
    assert (size / cols bd = rows bd) as Hbpr by (rewrite <-Hrc; apply Nat.div_mul; lia).
    destruct (Hin4 (br * (size / cols bd) + bc)) as (r & c & Hp & Hidx).
    { apply Hallboxes. rewrite Hbpr in *. nia. }
    destruct (Hzero r c Hp) as (Hr & Hc & H0).
    exists r, c. unfold getBoxIndex in Hidx.
    apply box_index_inj in Hidx as [? ?]; [done|..|done].
    rewrite Hbpr. apply Nat.Div0.div_lt_upper_bound. lia.
Qed.

Lemma puzzle_coverage_witness :
  let h : Heap := [[2; 3; 1; 4]; [4; 1; 3; 2]; [1; 4; 2; 3]; [3; 2; 4; 1]] in
  ∃ puzzle h' rnd',
    createPuzzle h [0; 1; 2; 3] 4 medium (replay [1; 0; 2]) = Some (Ok puzzle, h', rnd') ∧
    ∃ boxDims, getBoxDimensions 4 = Ok boxDims ∧
      let g := gridAt h' puzzle in
      (∀ r, r < 4 → ∃ c, c < 4 ∧ cell g r c = Some 0) ∧
      (∀ c, c < 4 → ∃ r, r < 4 ∧ cell g r c = Some 0) ∧
      (∀ br bc, br < 4 / rows boxDims → bc < 4 / cols boxDims →
         ∃ r c, r < 4 ∧ c < 4 ∧
                r / rows boxDims = br ∧ c / cols boxDims = bc ∧ cell g r c = Some 0).
Proof.
  apply (puzzle_coverage
           [[2; 3; 1; 4]; [4; 1; 3; 2]; [1; 4; 2; 3]; [3; 2; 4; 1]] [0; 1; 2; 3] 4 medium
           (replay [1; 0; 2])).
  - apply (bool_decide_unpack _). vm_compute. exact I.
  - split; [apply (bool_decide_unpack _); vm_compute; exact I|].
    split; [reflexivity|]. apply (bool_decide_unpack _). vm_compute. exact I.
Defined.

(** ** The generator on the store *)

(** What a call may do to the store it starts from: allocate, and write
    into the rows of the grid it works on. *)
Definition frames (grid : GridRef) (h h' : Heap) : Prop :=
  length h ≤ length h' ∧ ∀ l, l < length h → l ∉ grid → h' !! l = h !! l.

Lemma frames_refl grid h : frames grid h h.
Proof. by split. Qed.

Lemma frames_trans grid h1 h2 h3 :
  frames grid h1 h2 → frames grid h2 h3 → frames grid h1 h3.
Proof.
  intros [Hl1 Hf1] [Hl2 Hf2]. split; [lia|].
  intros l Hl Hg. rewrite Hf2 by (done || lia). by apply Hf1.
Qed.

Lemma frames_app grid h extra : frames grid h (h ++ extra).
Proof.
  split; [rewrite length_app; lia|]. intros l Hl _. by rewrite lookup_app_l.
Qed.

Lemma frames_alter grid h f l : l ∈ grid → frames grid h (alter f l h).
Proof.
  intros Hin. split; [by rewrite length_alter|].
  intros l' _ Hout. apply list_lookup_alter_ne. by intros ->.
Qed.

Lemma frames_writeCell grid h r c v : frames grid h (writeCell h grid r c v).
Proof.
  unfold writeCell. destruct (grid !! r) as [l|] eqn:Hl; [|apply frames_refl].
  apply frames_alter. by eapply list_elem_of_lookup_2.
Qed.

(** Reading a grid through its reference. *)
Lemma gridAt_frame (grid : GridRef) h h' :
  (∀ l, l ∈ grid → h' !! l = h !! l) → gridAt h' grid = gridAt h grid.
Proof.
  intros Heq. unfold gridAt. apply list_fmap_ext. intros i l Hl.
  rewrite Heq; [done|]. by eapply list_elem_of_lookup_2.
Qed.

Lemma gridAt_app (grid : GridRef) h extra :
  Forall (λ l, l < length h) grid → gridAt (h ++ extra) grid = gridAt h grid.
Proof.
  intros Hvalid. apply gridAt_frame. intros l Hl.
  rewrite Forall_forall in Hvalid. by rewrite lookup_app_l by auto.
Qed.

Lemma gridAt_writeCell (grid : GridRef) h r c v :
  NoDup grid → Forall (λ l, l < length h) grid →
  gridAt (writeCell h grid r c v) grid = setCell (gridAt h grid) r c v.
Proof.
  intros Hnd Hvalid. unfold writeCell, setCell, gridAt. apply list_eq. intros i.
  destruct (grid !! r) as [l|] eqn:Hr.
  - rewrite list_lookup_fmap. destruct (decide (r = i)) as [<-|Hne].
    + rewrite list_lookup_alter_eq, list_lookup_fmap, Hr. simpl.
      rewrite list_lookup_alter_eq.
      rewrite Forall_lookup in Hvalid.
      destruct (lookup_lt_is_Some_2 h l (Hvalid _ _ Hr)) as [row ->]. done.
    + rewrite list_lookup_alter_ne, list_lookup_fmap by done.
      destruct (grid !! i) as [l'|] eqn:Hi; [|done]. simpl.
      rewrite list_lookup_alter_ne; [done|]. intros ->.
      apply Hne. by eapply NoDup_lookup.
  - destruct (decide (r = i)) as [<-|Hne].
    + rewrite list_lookup_alter_eq, !list_lookup_fmap, Hr. done.
    + by rewrite list_lookup_alter_ne.
Qed.

Lemma readArray_app h extra a : a < length h → Store.readArray (h ++ extra) a = Store.readArray h a.
Proof. intros Ha. unfold Store.readArray. by rewrite lookup_app_l. Qed.

Lemma readArray_fresh h a : Store.readArray (h ++ [a]) (length h) = a.
Proof. unfold Store.readArray. by rewrite list_lookup_middle. Qed.

Lemma readArray_frames grid h h' a :
  frames grid h h' → a < length h → a ∉ grid → Store.readArray h' a = Store.readArray h a.
Proof. intros [_ Hf] Ha Hg. unfold Store.readArray. by rewrite Hf. Qed.

Lemma alter_fresh (h : Heap) a f : alter f (length h) (h ++ [a]) = h ++ [f a].
Proof.
  rewrite alter_app_r_alt by lia. by replace (length h - length h) with 0 by lia.
Qed.

(** *** The shuffle on the store *)

Lemma shuffleLoop_store i arr h rnd a :
  Store.shuffleLoop i arr (h ++ [a]) rnd =
  (h ++ [(shuffleLoop i a rnd).1], (shuffleLoop i a rnd).2) ∨ arr ≠ length h.
Proof.
  destruct (decide (arr = length h)) as [->|]; [left|by right].
  revert a rnd. induction i as [|i IH]; intros a rnd; [done|].
  cbn [Store.shuffleLoop shuffleLoop].
  destruct (randomBelow (S i + 1) rnd) as [j rnd1].
  by rewrite alter_fresh, IH.
Qed.

Lemma shuffleArray_store array h rnd :
  Store.shuffleArray array h rnd =
  (length h, h ++ [(shuffleArray (Store.readArray h array) rnd).1],
   (shuffleArray (Store.readArray h array) rnd).2).
Proof.
  unfold Store.shuffleArray, alloc, shuffleArray. rewrite readArray_fresh.
  destruct (shuffleLoop_store (length (Store.readArray h array) - 1) (length h) h rnd
              (Store.readArray h array)) as [->|]; done.
Qed.

(** *** Candidates on the store *)

Lemma getCandidates_fold grid row col size boxDims h ds acc :
  Forall (λ l, l < length h) grid →
  foldl (λ h' num,
           if isValid (gridAt h' grid) row col num size boxDims
           then alter (λ a, a ++ [num]) (length h) h'
           else h')
        (h ++ [acc]) ds
  = h ++ [acc ++ getCandidates (gridAt h grid) row col size boxDims ds].
Proof.
  intros Hvalid. unfold getCandidates. revert acc.
  induction ds as [|num ds IH]; intros acc.
  - simpl. by rewrite app_nil_r.
  - cbn [foldl]. rewrite gridAt_app by done. rewrite filter_cons.
    destruct (isValid (gridAt h grid) row col num size boxDims) eqn:Hv.
    + rewrite decide_True by done. rewrite alter_fresh, IH.
      by rewrite <-app_assoc.
    + rewrite decide_False by (by intros ?). apply IH.
Qed.

Lemma getCandidates_store grid row col size boxDims digits h :
  Forall (λ l, l < length h) grid →
  Store.getCandidates grid row col size boxDims digits h =
  (length h, h ++ [getCandidates (gridAt h grid) row col size boxDims
                                 (Store.readArray h digits)]).
Proof.
  intros Hvalid. unfold Store.getCandidates, alloc. f_equal.
  assert (Store.readArray (h ++ [[]]) digits = Store.readArray h digits) as ->.
  { unfold Store.readArray. destruct (decide (digits < length h)).
    - by rewrite lookup_app_l.
    - rewrite (lookup_ge_None_2 h) by lia.
      destruct (decide (digits = length h)) as [->|].
      + by rewrite list_lookup_middle.
      + rewrite lookup_ge_None_2; [done|]. rewrite length_app. simpl. lia. }
  by rewrite getCandidates_fold.
Qed.

(** *** Cell selection on the store *)

(** The candidate cell that a cell of the store denotes. *)
Definition cellAt (h : Heap) (c : Store.CandidateCell) : CandidateCell :=
  mkCell (Store.row c) (Store.col c) (Store.readArray h (Store.candidates c)).

Definition cellBound (h : Heap) (bc : option Store.CandidateCell) : Prop :=
  ∀ c, bc = Some c → Store.candidates c < length h.

Lemma cellAt_app h extra bc :
  cellBound h bc → cellAt (h ++ extra) <$> bc = cellAt h <$> bc.
Proof.
  intros Hb. destruct bc as [c|]; [|done]. simpl. unfold cellAt.
  by rewrite readArray_app by auto.
Qed.

Lemma scanCells_store grid size boxDims digits todo :
  ∀ h bestCell bestCount rnd,
    Forall (λ l, l < length h) grid → digits < length h → cellBound h bestCell →
    ∃ extra bestCell',
      Store.scanCells grid size boxDims digits todo bestCell bestCount h rnd =
        (bestCell', h ++ extra,
         (scanCells (gridAt h grid) size boxDims (Store.readArray h digits) todo
                    (cellAt h <$> bestCell) bestCount rnd).2) ∧
      (scanCells (gridAt h grid) size boxDims (Store.readArray h digits) todo
                 (cellAt h <$> bestCell) bestCount rnd).1 = cellAt (h ++ extra) <$> bestCell' ∧
      cellBound (h ++ extra) bestCell'.
Proof.
  induction todo as [|[row col] todo IH]; intros h bestCell bestCount rnd Hvalid Hdigits Hb.
  { exists [], bestCell. rewrite app_nil_r. done. }
  cbn [Store.scanCells scanCells]. case_bool_decide as Hcell; [by apply IH|].
  rewrite getCandidates_store by done. rewrite readArray_fresh.
  set (cands := getCandidates (gridAt h grid) row col size boxDims (Store.readArray h digits)).
  assert (Forall (λ l, l < length (h ++ [cands])) grid) as Hvalid1.
  { eapply Forall_impl; [done|]. intros l Hl. rewrite length_app. simpl in *. lia. }
  assert (length (h ++ [cands]) = S (length h)) as Hlen1
    by (rewrite length_app; simpl; lia).
  destruct (length cands =? 0) eqn:Hzero.
  { exists [cands], (Some (Store.mkCell row col (length h))). split_and!; [done| |].
    - simpl. unfold cellAt. simpl. by rewrite readArray_fresh.
    - intros c [= <-]. simpl. lia. }
  destruct (Z.of_nat (length cands) <? bestCount)%Z eqn:Hless.
  - rewrite shuffleArray_store, readArray_fresh.
    destruct (shuffleArray cands rnd) as [shuffled rnd1] eqn:Hsh. simpl.
    assert (cellBound ((h ++ [cands]) ++ [shuffled])
              (Some (Store.mkCell row col (length (h ++ [cands]))))) as Hb2.
    { intros c [= <-]. simpl. rewrite (length_app (h ++ [cands])). simpl. lia. }
    assert (cellAt ((h ++ [cands]) ++ [shuffled])
              (Store.mkCell row col (length (h ++ [cands]))) = mkCell row col shuffled) as Hc2.
    { unfold cellAt. simpl. by rewrite readArray_fresh. }
    destruct (Z.of_nat (length cands) =? 1)%Z eqn:Hone.
    + exists [cands; shuffled], (Some (Store.mkCell row col (length (h ++ [cands])))).
      replace (h ++ [cands; shuffled]) with ((h ++ [cands]) ++ [shuffled])
        by (by rewrite <-app_assoc).
      split_and!; [done| |done]. simpl. by rewrite Hc2.
    + destruct (IH ((h ++ [cands]) ++ [shuffled])
                  (Some (Store.mkCell row col (length (h ++ [cands]))))
                  (Z.of_nat (length cands)) rnd1) as (extra & best' & Hrun & Hval & Hb').
      { eapply Forall_impl; [exact Hvalid1|]. intros l Hl. rewrite length_app. simpl in *. lia. }
      { rewrite length_app, Hlen1. lia. }
      { done. }
      rewrite !gridAt_app in Hrun, Hval by done.
      rewrite !readArray_app in Hrun, Hval by lia.
      simpl in Hrun, Hval. rewrite Hc2 in Hrun, Hval.
      exists ([cands; shuffled] ++ extra), best'.
      replace (h ++ [cands; shuffled] ++ extra) with (((h ++ [cands]) ++ [shuffled]) ++ extra)
        by (by rewrite <-!app_assoc).
      done.
  - destruct (IH (h ++ [cands]) bestCell bestCount rnd) as (extra & best' & Hrun & Hval & Hb').
    { done. }
    { lia. }
    { intros c Hc. specialize (Hb c Hc). lia. }
    rewrite gridAt_app, readArray_app, cellAt_app in Hrun, Hval by done.
    exists ([cands] ++ extra), best'. rewrite app_assoc. done.
Qed.

Lemma findBestCell_store grid size boxDims digits h rnd :
  Forall (λ l, l < length h) grid → digits < length h →
  ∃ extra bestCell',
    Store.findBestCell grid size boxDims digits h rnd =
      (bestCell', h ++ extra,
       (findBestCell (gridAt h grid) size boxDims (Store.readArray h digits) rnd).2) ∧
    (findBestCell (gridAt h grid) size boxDims (Store.readArray h digits) rnd).1
      = cellAt (h ++ extra) <$> bestCell'.
Proof.
  intros Hvalid Hdigits.
  destruct (scanCells_store grid size boxDims digits (scanOrder size) h None
              MAX_SAFE_INTEGER rnd Hvalid Hdigits) as (extra & best' & Hrun & Hval & _).
  { by intros c. }
  by exists extra, best'.
Qed.

(** *** The search on the store *)

Section on_store.
Context (grid : GridRef) (size : nat) (boxDims : BoxDimensions) (digits : loc) (ds : list nat).
Hypothesis grid_NoDup : NoDup grid.
Hypothesis digits_apart : digits ∉ grid.

(** The rows of the grid and the array of digits are allocated, and the
    array of digits holds [ds]. *)
Definition storeOK (h : Heap) : Prop :=
  Forall (λ l, l < length h) grid ∧ digits < length h ∧ Store.readArray h digits = ds.

Lemma storeOK_frames h h' : frames grid h h' → storeOK h → storeOK h'.
Proof.
  intros Hf (Hvalid & Hd & Hds). split_and!.
  - eapply Forall_impl; [done|]. intros l Hl. destruct Hf. simpl in *. lia.
  - destruct Hf. lia.
  - by rewrite (readArray_frames grid h h').
Qed.

(** An outcome of the search on grid values is matched by the search on
    the store: same boolean, same random source, and the grid that the
    reference denotes afterwards is the grid value. *)
Definition simulates (h : Heap) (out : option (bool * Grid * Rand))
    (out' : option (bool * Heap * Rand)) : Prop :=
  match out with
  | None => out' = None
  | Some (b, g, rnd) => ∃ h', out' = Some (b, h', rnd) ∧ gridAt h' grid = g ∧ frames grid h h'
  end.

Lemma simulates_frames h h1 out out' :
  frames grid h h1 → simulates h1 out out' → simulates h out out'.
Proof.
  intros Hf. unfold simulates. destruct out as [[[b g] rnd]|]; [|done].
  intros (h' & -> & Hg & Hf'). exists h'. split_and!; [done..|]. by eapply frames_trans.
Qed.

Lemma storeOK_writeCell h r c v :
  storeOK h →
  storeOK (writeCell h grid r c v) ∧
  gridAt (writeCell h grid r c v) grid = setCell (gridAt h grid) r c v.
Proof.
  intros Hok. split.
  - eapply storeOK_frames; [apply frames_writeCell|done].
  - apply gridAt_writeCell; [done|]. by destruct Hok.
Qed.

Lemma tryCandidates_store solve solve' row col cands :
  (∀ h rnd, storeOK h → simulates h (solve (gridAt h grid) rnd) (solve' h rnd)) →
  ∀ h rnd, storeOK h →
    simulates h (tryCandidates solve row col cands (gridAt h grid) rnd)
                (Store.tryCandidates solve' grid row col cands h rnd).
Proof.
  intros Hsolve. induction cands as [|num cands IH]; intros h rnd Hok.
  { exists h. split_and!; [done..|]. apply frames_refl. }
  cbn [tryCandidates Store.tryCandidates].
  destruct (storeOK_writeCell h row col num Hok) as [Hok1 Hg1].
  rewrite <-Hg1. specialize (Hsolve _ rnd Hok1). unfold simulates in Hsolve.
  destruct (solve _ rnd) as [[[b g] rnd1]|]; [|by rewrite Hsolve].
  destruct Hsolve as (h2 & -> & Hg2 & Hf2).
  pose proof (frames_trans _ _ _ _ (frames_writeCell grid h row col num) Hf2) as Hf.
  destruct b.
  - exists h2. done.
  - assert (storeOK h2) as Hok2 by (by eapply storeOK_frames).
    destruct (storeOK_writeCell h2 row col 0 Hok2) as [Hok3 Hg3].
    rewrite <-Hg2, <-Hg3. eapply simulates_frames; [|by apply IH].
    eapply frames_trans; [exact Hf|apply frames_writeCell].
Qed.

Lemma solveSudokuFuel_store fuel :
  ∀ h rnd, storeOK h →
    simulates h (solveSudokuFuel fuel size boxDims ds (gridAt h grid) rnd)
                (Store.solveSudokuFuel fuel grid size boxDims digits h rnd).
Proof.
  induction fuel as [|fuel IH]; intros h rnd Hok; [done|].
  cbn [solveSudokuFuel Store.solveSudokuFuel].
  destruct Hok as (Hvalid & Hd & Hds).
  destruct (findBestCell_store grid size boxDims digits h rnd Hvalid Hd)
    as (extra & best' & Hrun & Hval).
  rewrite Hds in Hrun, Hval. rewrite Hrun.
  destruct (findBestCell (gridAt h grid) size boxDims ds rnd) as [best rnd1].
  simpl in Hval. subst best. simpl.
  assert (storeOK (h ++ extra)) as Hok1.
  { eapply storeOK_frames; [apply frames_app|done]. }
  destruct best' as [c|]; simpl.
  - rewrite <-(gridAt_app grid h extra) by done.
    eapply simulates_frames; [apply frames_app|].
    by apply tryCandidates_store.
  - exists (h ++ extra). split_and!; [done| |apply frames_app]. by apply gridAt_app.
Qed.

(** A loop that writes the grid, on grid values and on the store. *)
Lemma foldl_store {A B} (inv : Heap → Prop)
    (F : Grid * A → B → Grid * A) (F' : Heap * A → B → Heap * A) :
  (∀ h h', frames grid h h' → inv h → inv h') →
  (∀ h a x, inv h →
     ∃ h', F' (h, a) x = (h', (F (gridAt h grid, a) x).2) ∧
           gridAt h' grid = (F (gridAt h grid, a) x).1 ∧ frames grid h h') →
  ∀ xs h a, inv h →
    ∃ h', foldl F' (h, a) xs = (h', (foldl F (gridAt h grid, a) xs).2) ∧
          gridAt h' grid = (foldl F (gridAt h grid, a) xs).1 ∧ frames grid h h'.
Proof.
  intros Hinv Hstep. induction xs as [|x xs IH]; intros h a Hh.
  { exists h. split_and!; [done..|]. apply frames_refl. }
  cbn [foldl]. destruct (Hstep h a x Hh) as (h1 & -> & Hg1 & Hf1).
  destruct (F (gridAt h grid, a) x) as [g1 a1]. simpl in *. subst g1.
  destruct (IH h1 a1) as (h2 & -> & Hg2 & Hf2); [by eapply Hinv|].
  exists h2. split_and!; [done..|]. by eapply frames_trans.
Qed.

Lemma fillBox_store row col h rnd :
  storeOK h →
  ∃ h', Store.fillBox grid row col boxDims digits h rnd =
          (h', (fillBox (gridAt h grid) row col boxDims ds rnd).2) ∧
        gridAt h' grid = (fillBox (gridAt h grid) row col boxDims ds rnd).1 ∧
        frames grid h h'.
Proof.
  intros Hok. unfold Store.fillBox, fillBox. rewrite shuffleArray_store.
  destruct Hok as (Hvalid & Hd & Hds). rewrite Hds.
  destruct (shuffleArray ds rnd) as [numbers rnd1]. simpl.
  set (inv := λ h', length h < length h' ∧ Store.readArray h' (length h) = numbers).
  assert (∀ h1 h2, frames grid h1 h2 → inv h1 → inv h2) as Hinv.
  { intros h1 h2 Hf [Hl Hr]. split; [destruct Hf; lia|].
    rewrite (readArray_frames grid h1 h2); [done..|].
    intros Hin. rewrite Forall_forall in Hvalid. specialize (Hvalid _ Hin). lia. }
  destruct (foldl_store inv
    (λ '(g, numIndex) i,
      foldl (λ '(g, numIndex) j,
        (setCell g (row + i) (col + j) (default 0 (numbers !! numIndex)), S numIndex))
        (g, numIndex) (seq 0 (cols boxDims)))
    (λ '(h0, numIndex) i,
      foldl (λ '(h0, numIndex) j,
        (writeCell h0 grid (row + i) (col + j)
                   (default 0 (Store.readArray h0 (length h) !! numIndex)), S numIndex))
        (h0, numIndex) (seq 0 (cols boxDims)))
    Hinv) with (xs := seq 0 (rows boxDims)) (h := h ++ [numbers]) (a := 0)
    as (h' & Hrun & Hg & Hf).
  - intros h1 k i Hh1.
    apply (foldl_store inv
      (λ '(g, numIndex) j,
        (setCell g (row + i) (col + j) (default 0 (numbers !! numIndex)), S numIndex))
      (λ '(h0, numIndex) j,
        (writeCell h0 grid (row + i) (col + j)
                   (default 0 (Store.readArray h0 (length h) !! numIndex)), S numIndex))
      Hinv); [|done].
    intros h2 k2 j [Hl2 Hr2]. exists (writeCell h2 grid (row + i) (col + j)
                                        (default 0 (numbers !! k2))).
    simpl. rewrite Hr2. split_and!; [done| |apply frames_writeCell].
    apply gridAt_writeCell; [done|].
    eapply Forall_impl; [done|]. intros l Hl. simpl in *. lia.
  - split; [rewrite length_app; simpl; lia|apply readArray_fresh].
  - rewrite gridAt_app in Hrun, Hg by done.
    exists h'. rewrite Hrun.
    destruct (foldl _ (gridAt h grid, 0) (seq 0 (rows boxDims))) as [g' k'].
    simpl in *. split_and!; [done..|].
    eapply frames_trans; [apply frames_app|done].
Qed.
Lemma fillDiagonalBoxes_store h rnd :
  storeOK h →
  ∃ h', Store.fillDiagonalBoxes grid size boxDims digits h rnd =
          (h', (fillDiagonalBoxes (gridAt h grid) size boxDims ds rnd).2) ∧
        gridAt h' grid = (fillDiagonalBoxes (gridAt h grid) size boxDims ds rnd).1 ∧
        frames grid h h'.
Proof.
  unfold Store.fillDiagonalBoxes, fillDiagonalBoxes.
  apply (foldl_store storeOK
    (λ '(g, rnd) boxRow,
      foldl (λ '(g, rnd) boxCol,
        if bool_decide (boxRow = boxCol)
        then fillBox g (boxRow * rows boxDims) (boxCol * cols boxDims) boxDims ds rnd
        else (g, rnd))
        (g, rnd) (seq 0 (size / cols boxDims)))
    (λ '(h, rnd) boxRow,
      foldl (λ '(h, rnd) boxCol,
        if bool_decide (boxRow = boxCol)
        then Store.fillBox grid (boxRow * rows boxDims) (boxCol * cols boxDims)
                           boxDims digits h rnd
        else (h, rnd))
        (h, rnd) (seq 0 (size / cols boxDims)))
    storeOK_frames).
  intros h1 rnd1 boxRow Hh1.
  apply (foldl_store storeOK
    (λ '(g, rnd) boxCol,
      if bool_decide (boxRow = boxCol)
      then fillBox g (boxRow * rows boxDims) (boxCol * cols boxDims) boxDims ds rnd
      else (g, rnd))
    (λ '(h, rnd) boxCol,
      if bool_decide (boxRow = boxCol)
      then Store.fillBox grid (boxRow * rows boxDims) (boxCol * cols boxDims)
                         boxDims digits h rnd
      else (h, rnd))
    storeOK_frames); [|done].
  intros h2 rnd2 boxCol Hh2. case_bool_decide.
  - destruct (fillBox_store (boxRow * rows boxDims) (boxCol * cols boxDims) h2 rnd2 Hh2)
      as (h' & Hrun & Hg & Hf).
    exists h'. by rewrite Hrun.
  - exists h2. split_and!; [done..|]. apply frames_refl.
Qed.

Lemma zeroGrid_lookup (rows : GridRef) : ∀ h l,
  NoDup rows →
  Store.zeroGrid rows h !! l =
    if decide (l ∈ rows) then (λ row, replicate (length row) 0) <$> h !! l else h !! l.
Proof.
  unfold Store.zeroGrid. induction rows as [|l0 rows IH]; intros h l Hnd; [done|].
  apply NoDup_cons in Hnd as [Hout Hnd]. cbn [foldl]. rewrite IH by done.
  destruct (decide (l = l0)) as [->|Hne].
  - rewrite decide_False by done. rewrite decide_True by set_solver.
    apply list_lookup_alter_eq.
  - rewrite list_lookup_alter_ne by done.
    destruct (decide (l ∈ rows)).
    + by rewrite decide_True by set_solver.
    + by rewrite decide_False by set_solver.
Qed.

Lemma zeroGrid_length (rows : GridRef) : ∀ h, length (Store.zeroGrid rows h) = length h.
Proof.
  unfold Store.zeroGrid. induction rows as [|l0 rows IH]; intros h; [done|].
  cbn [foldl]. by rewrite IH, length_alter.
Qed.

Lemma zeroGrid_store h :
  gridAt (Store.zeroGrid grid h) grid = zeroGrid (gridAt h grid) ∧
  frames grid h (Store.zeroGrid grid h).
Proof.
  split.
  - unfold gridAt, zeroGrid. rewrite <-list_fmap_compose. apply list_fmap_ext.
    intros i l Hl. simpl. rewrite zeroGrid_lookup by done.
    rewrite decide_True by (by eapply list_elem_of_lookup_2).
    by destruct (h !! l).
  - split; [by rewrite zeroGrid_length|].
    intros l _ Hout. rewrite zeroGrid_lookup by done. by rewrite decide_False.
Qed.

Lemma attempt_store h rnd :
  storeOK h →
  simulates h (attempt (gridAt h grid) size boxDims ds rnd)
              (Store.attempt grid size boxDims digits h rnd).
Proof.
  intros Hok. unfold attempt, Store.attempt.
  destruct (zeroGrid_store h) as [Hg0 Hf0]. rewrite <-Hg0.
  assert (storeOK (Store.zeroGrid grid h)) as Hok0 by (by eapply storeOK_frames).
  destruct (fillDiagonalBoxes_store _ rnd Hok0) as (h1 & -> & Hg1 & Hf1).
  destruct (fillDiagonalBoxes _ size boxDims ds rnd) as [g1 rnd1]. simpl in *. subst g1.
  eapply simulates_frames; [by eapply frames_trans|].
  apply solveSudokuFuel_store. by eapply storeOK_frames.
Qed.

(** The retry loop on the store returns the reference it was given, which
    then denotes the grid that the loop on grid values returns. *)
Definition simulatesResult (h : Heap) (out : option (Result Grid * Rand))
    (out' : option (Result GridRef * Heap * Rand)) : Prop :=
  match out with
  | None => out' = None
  | Some (res, rnd) =>
      ∃ res' h', out' = Some (res', h', rnd) ∧ frames grid h h' ∧
        match res with
        | Ok g => res' = Ok grid ∧ gridAt h' grid = g
        | Throw e => res' = Throw e
        end
  end.

Lemma attemptLoop_store n : ∀ h rnd,
  storeOK h →
  simulatesResult h (attemptLoop n (gridAt h grid) size boxDims ds rnd)
                    (Store.attemptLoop n grid size boxDims digits h rnd).
Proof.
  induction n as [|n IH]; intros h rnd Hok.
  { exists (Throw GenerationFailure), h. split_and!; [done| |done]. apply frames_refl. }
  cbn [attemptLoop Store.attemptLoop].
  pose proof (attempt_store h rnd Hok) as Hsim. unfold simulates in Hsim.
  destruct (attempt (gridAt h grid) size boxDims ds rnd) as [[[b g] rnd1]|];
    [|by rewrite Hsim].
  destruct Hsim as (h1 & -> & Hg1 & Hf1). destruct b.
  - exists (Ok grid), h1. done.
  - subst g. specialize (IH h1 rnd1 (storeOK_frames _ _ Hf1 Hok)).
    unfold simulatesResult in *.
    destruct (attemptLoop n (gridAt h1 grid) size boxDims ds rnd1) as [[res rnd2]|];
      [|done].
    destruct IH as (res' & h2 & -> & Hf2 & Hres).
    exists res', h2. split_and!; [done| |done]. by eapply frames_trans.
Qed.
End on_store.

Lemma newGrid_fold size (xs : list nat) : ∀ (grid : GridRef) (h : Heap),
  foldl (λ '(grid, h) _, let '(l, h) := alloc (replicate size 0) h in (grid ++ [l], h))
        (grid, h) xs
  = (grid ++ seq (length h) (length xs), h ++ replicate (length xs) (replicate size 0)).
Proof.
  induction xs as [|x xs IH]; intros grid h.
  { simpl. by rewrite !app_nil_r. }
  cbn [foldl]. unfold alloc at 2. rewrite IH.
  rewrite length_app. simpl. rewrite <-!app_assoc. simpl.
  by replace (length h + 1) with (S (length h)) by lia.
Qed.

Lemma newGrid_store size h :
  Store.newGrid size h = (seq (length h) size, h ++ replicate size (replicate size 0)).
Proof. unfold Store.newGrid. by rewrite newGrid_fold, length_seq. Qed.

(** *** The cache *)

(** Every array in the cache holds the digits of its size, in order. *)
Definition cacheOK (w : Store.World) : Prop :=
  ∀ size digits, Store.digitsCache w !! size = Some digits →
                 Store.store w !! digits = Some (getDigits size).

Lemma cacheOK_initial : cacheOK (Store.mkWorld [] ∅).
Proof. intros size digits Hc. simpl in Hc. by rewrite lookup_empty in Hc. Qed.

Lemma getDigits_seq size : getDigits size = seq 1 size.
Proof.
  unfold getDigits. rewrite <-fmap_S_seq. apply list_fmap_ext. intros; simpl; lia.
Qed.

(** [getDigits] returns the array of the cache if there is one for the
    size, and otherwise a fresh array that it adds to the cache; either
    way the array holds the digits. *)
Lemma getDigits_store size w :
  cacheOK w →
  ∃ digits w',
    Store.getDigits size w = (digits, w') ∧ cacheOK w' ∧
    Store.store w' !! digits = Some (getDigits size) ∧
    Store.digitsCache w' !! size = Some digits ∧
    ((Store.digitsCache w !! size = Some digits ∧ w' = w) ∨
     (Store.digitsCache w !! size = None ∧ digits = length (Store.store w) ∧
      w' = Store.mkWorld (Store.store w ++ [getDigits size])
                         (<[size := digits]> (Store.digitsCache w)))).
Proof.
  intros Hc. unfold Store.getDigits.
  destruct (Store.digitsCache w !! size) as [digits|] eqn:Hsize.
  - exists digits, w. split_and!; [done|done|by apply Hc|done|by left].
  - eexists _, _. split_and!; [done| | | |by right].
    + intros n l. simpl. destruct (decide (n = size)) as [->|Hne].
      * rewrite lookup_insert_eq. intros [= <-]. by apply list_lookup_middle.
      * rewrite lookup_insert_ne by done. intros Hl%Hc.
        by apply lookup_app_l_Some.
    + by apply list_lookup_middle.
    + simpl. apply lookup_insert_eq.
Qed.

Lemma cacheOK_frames grid w h' :
  frames grid (Store.store w) h' →
  (∀ size digits, Store.digitsCache w !! size = Some digits → digits ∉ grid) →
  cacheOK w → cacheOK (Store.mkWorld h' (Store.digitsCache w)).
Proof.
  intros [_ Hf] Hapart Hc size digits Hd. simpl in *.
  rewrite Hf; [by apply Hc|by eapply lookup_lt_Some, Hc|by eapply Hapart].
Qed.

(** [generateSudoku] on the store does what [generateSudoku] on grid values
    does.  It leaves every array that existed before the call as it was,
    and the cache too, apart from adding the array of its size to the
    cache if it was not there. *)
Lemma generateSudoku_store size w rnd :
  cacheOK w →
  ∃ res rnd' res' w',
    generateSudoku size rnd = Some (res, rnd') ∧
    Store.generateSudoku size w rnd = Some (res', w', rnd') ∧
    match res with
    | Ok g => ∃ grid, res' = Ok grid ∧ gridAt (Store.store w') grid = g
    | Throw e => res' = Throw e
    end ∧
    (∀ l, l < length (Store.store w) → Store.store w' !! l = Store.store w !! l) ∧
    Store.digitsCache w ⊆ Store.digitsCache w' ∧
    cacheOK w'.
Proof.
  intros Hc. destruct (generateSudoku_total size rnd) as [[res rnd'] Hgen].
  exists res, rnd'. rewrite Hgen.
  unfold generateSudoku, Store.generateSudoku in *.
  destruct (assertValidSize size) as [[]|e].
  2:{ injection Hgen as <- <-. exists (Throw e), w. done. }
  rewrite newGrid_store.
  set (h0 := Store.store w) in *.
  set (h1 := h0 ++ replicate size (replicate size 0)).
  set (grid := seq (length h0) size).
  assert (length h1 = length h0 + size) as Hlen1.
  { unfold h1. by rewrite length_app, length_replicate. }
  assert (cacheOK (Store.mkWorld h1 (Store.digitsCache w))) as Hc1.
  { intros n l Hl. simpl in *. apply lookup_app_l_Some. by apply Hc. }
  destruct (getBoxDimensions size) as [boxDims|e].
  2:{ injection Hgen as <- <-. eexists (Throw e), _. split_and!; [done..| | |done].
      - intros l Hl. simpl. unfold h1. by rewrite lookup_app_l.
      - done. }
  destruct (getDigits_store size _ Hc1) as (digits & w2 & -> & Hc2 & Hd & Hd2 & Hcase).
  simpl in Hcase.
  assert ((digits ∉ grid) ∧ Store.digitsCache w ⊆ Store.digitsCache w2 ∧
          (∃ extra, Store.store w2 = h1 ++ extra)) as (Hapart & Hsub & extra & Hw2).
  { destruct Hcase as [[Hhit ->]|(Hmiss & -> & ->)]; simpl.
    - split_and!; [|done|by exists []; rewrite app_nil_r].
      unfold grid. rewrite elem_of_seq. apply Hc, lookup_lt_Some in Hhit.
      fold h0 in Hhit. lia.
    - split_and!; [|by apply insert_subseteq|by eexists].
      unfold grid. rewrite elem_of_seq. lia. }
  assert (storeOK grid digits (getDigits size) (Store.store w2)) as Hok.
  { split_and!.
    - apply Forall_forall. intros l Hl%elem_of_seq. rewrite Hw2, length_app. lia.
    - by eapply lookup_lt_Some.
    - unfold Store.readArray. by rewrite Hd. }
  pose proof (attemptLoop_store grid size boxDims digits (getDigits size)
                (NoDup_seq _ _) Hapart maxAttempts _ rnd Hok) as Hsim.
  assert (gridAt (Store.store w2) grid = replicate size (replicate size 0)) as Hg.
  { rewrite Hw2, gridAt_app.
    - pose proof (gridAt_fresh h0 (replicate size (replicate size 0))) as Hfresh.
      by rewrite length_replicate in Hfresh.
    - apply Forall_forall. intros l Hl%elem_of_seq. lia. }
  rewrite Hg, Hgen in Hsim. destruct Hsim as (res' & h' & -> & Hf & Hres).
  exists res', (Store.mkWorld h' (Store.digitsCache w2)). simpl.
  split_and!; [done|done| | |done|].
  - destruct res; [by exists grid|done].
  - intros l Hl. destruct Hf as [_ Hf]. rewrite Hf.
    + rewrite Hw2. unfold h1. by rewrite <-app_assoc, lookup_app_l.
    + rewrite Hw2, length_app. lia.
    + unfold grid. rewrite elem_of_seq. lia.
  - apply (cacheOK_frames grid w2 h'); [done| |done].
    intros n d Hn.
    destruct Hcase as [[_ ->]|(_ & _ & ->)]; simpl in *.
    + apply Hc, lookup_lt_Some in Hn. fold h0 in Hn.
      unfold grid. rewrite elem_of_seq. lia.
    + destruct (decide (n = size)) as [->|Hne].
      * rewrite lookup_insert_eq in Hn. by injection Hn as <-.
      * rewrite lookup_insert_ne in Hn by done.
        apply Hc, lookup_lt_Some in Hn. fold h0 in Hn.
        unfold grid. rewrite elem_of_seq. lia.
Qed.

(** A first call on the empty store: the rows of the grid are the arrays 0
    to 3, and the array of digits, allocated next, is in the cache under
    size 4. *)
Example generateSudoku_store_run :
  match Store.generateSudoku 4 (Store.mkWorld [] ∅) (replay [1; 2; 0; 1; 1; 3]) with
  | Some (res, w, rnd) =>
      res = Ok [0; 1; 2; 3] ∧
      gridAt (Store.store w) [0; 1; 2; 3]
        = [[2; 3; 1; 4]; [4; 1; 3; 2]; [1; 4; 2; 3]; [3; 2; 4; 1]] ∧
      Store.digitsCache w !! 4 = Some 4 ∧
      Store.store w !! 4 = Some [1; 2; 3; 4] ∧
      cursor rnd = 13
  | None => False
  end.
Proof. vm_compute. done. Qed.

(** [createPuzzle] only adds arrays to the store. *)
Lemma createPuzzle_extends h grid size difficulty rnd res h' rnd' :
  createPuzzle h grid size difficulty rnd = Some (res, h', rnd') →
  ∃ rows, h' = h ++ rows.
Proof.
  intros Hcreate. destruct (decide (size ∈ VALID_SIZES)) as [Hin|Hout].
  - destruct (createPuzzle_run h grid size difficulty rnd Hin)
      as (? & ? & ? & ? & ? & ? & ? & Hrun). simpl in Hrun.
    destruct Hrun as (_ & _ & _ & _ & _ & _ & _ & _ & _ & _ & _ & _ & _ & Hres).
    rewrite Hres in Hcreate. injection Hcreate as <- <- <-.
    destruct (createPuzzle_result h grid size difficulty rnd _ _ _ Hin Hres)
      as (bd & copies & st3 & st4 & rows' & Hr). simpl in Hr.
    destruct Hr as (_ & _ & _ & _ & _ & _ & _ & _ & _ & _ & _ & _ & Hh' & _).
    by exists rows'.
  - apply isValidSize_unsupported in Hout.
    unfold createPuzzle, assertValidSize in Hcreate. rewrite Hout in Hcreate.
    injection Hcreate as <- <- <-. exists []. by rewrite app_nil_r.
Qed.

Lemma createPuzzle_store grid size difficulty w rnd :
  cacheOK w →
  ∃ res w' rnd',
    Store.createPuzzle grid size difficulty w rnd = Some (res, w', rnd') ∧
    Store.digitsCache w' = Store.digitsCache w ∧ cacheOK w'.
Proof.
  intros Hc. unfold Store.createPuzzle.
  destruct (createPuzzle_total (Store.store w) grid size difficulty rnd)
    as [[[res h'] rnd'] Hcreate].
  rewrite Hcreate. destruct (createPuzzle_extends _ _ _ _ _ _ _ _ Hcreate) as [rows' ->].
  eexists _, _, _. split_and!; [done..|].
  intros n l Hl. simpl in *. apply lookup_app_l_Some. by apply Hc.
Qed.

(** Any sequence of calls of the two exported functions runs to its end,
    keeps the cache sound and never drops or replaces an array of the
    cache. *)
Lemma runCalls_cache calls : ∀ w rnd,
  cacheOK w →
  ∃ w' rnd', Store.runCalls calls w rnd = Some (w', rnd') ∧
             cacheOK w' ∧ Store.digitsCache w ⊆ Store.digitsCache w'.
Proof.
  induction calls as [|[size|grid size difficulty] calls IH]; intros w rnd Hc.
  - by exists w, rnd.
  - cbn [Store.runCalls].
    destruct (generateSudoku_store size w rnd Hc)
      as (res & rnd1 & res' & w1 & _ & -> & _ & _ & Hsub & Hc1).
    destruct (IH w1 rnd1 Hc1) as (w' & rnd' & -> & Hc' & Hsub').
    exists w', rnd'. split_and!; [done..|]. by etrans.
  - cbn [Store.runCalls].
    destruct (createPuzzle_store grid size difficulty w rnd Hc)
      as (res & w1 & rnd1 & -> & Heq & Hc1).
    destruct (IH w1 rnd1 Hc1) as (w' & rnd' & -> & Hc' & Hsub').
    exists w', rnd'. split_and!; [done..|]. by rewrite <-Heq.
Qed.

(** C10: [shuffleArray] never writes into the array it is given: it returns
    a new array, which holds a permutation of the given one, and every
    array that existed before the call is as it was.  Consequently, from
    any state in which every array of [digitsCache] holds the digits of its
    size (the initial, empty cache is one), any sequence of calls of
    [generateSudoku] and [createPuzzle] runs to its end in such a state
    again, with the arrays that were in the cache still in it; there,
    [getDigits] returns an array holding [1; ...; size] for every size. *)
Theorem cached_digits_unchanged calls w rnd :
  cacheOK w →
  (∀ array h rnd0,
     ∃ arr h' rnd', Store.shuffleArray array h rnd0 = (arr, h', rnd') ∧
       arr = length h ∧
       (∀ l, l < length h → h' !! l = h !! l) ∧
       Store.readArray h' arr ≡ₚ Store.readArray h array) ∧
  ∃ w' rnd', Store.runCalls calls w rnd = Some (w', rnd') ∧
    cacheOK w' ∧
    Store.digitsCache w ⊆ Store.digitsCache w' ∧
    ∀ size, ∃ digits w'', Store.getDigits size w' = (digits, w'') ∧
                          Store.store w'' !! digits = Some (seq 1 size).
Proof.
  intros Hc. split.
  - intros array h rnd0. rewrite shuffleArray_store. eexists _, _, _.
    split_and!; [done|done| |].
    + intros l Hl. by rewrite lookup_app_l.
    + rewrite readArray_fresh. apply shuffleArray_Permutation.
  - destruct (runCalls_cache calls w rnd Hc) as (w' & rnd' & Hrun & Hc' & Hsub).
    exists w', rnd'. split_and!; [done..|].
    intros size. destruct (getDigits_store size w' Hc') as (digits & w'' & -> & _ & Hd & _).
    exists digits, w''. by rewrite <-getDigits_seq.
Qed.

Lemma cached_digits_unchanged_witness :
  (∀ array h rnd0,
     ∃ arr h' rnd', Store.shuffleArray array h rnd0 = (arr, h', rnd') ∧
       arr = length h ∧
       (∀ l, l < length h → h' !! l = h !! l) ∧
       Store.readArray h' arr ≡ₚ Store.readArray h array) ∧
  ∃ w' rnd',
    Store.runCalls [Store.Generate 4; Store.Create [0; 1; 2; 3] 4 easy; Store.Generate 4]
                   (Store.mkWorld [] ∅) (replay [1; 2; 0; 1; 1; 3]) = Some (w', rnd') ∧
    cacheOK w' ∧
    Store.digitsCache (Store.mkWorld [] ∅) ⊆ Store.digitsCache w' ∧
    ∀ size, ∃ digits w'', Store.getDigits size w' = (digits, w'') ∧
                          Store.store w'' !! digits = Some (seq 1 size).
Proof.
  apply (cached_digits_unchanged
           [Store.Generate 4; Store.Create [0; 1; 2; 3] 4 easy; Store.Generate 4]
           (Store.mkWorld [] ∅) (replay [1; 2; 0; 1; 1; 3])).
  intros size digits Hcached. simpl in Hcached. discriminate Hcached.
Defined.

(** * More about the generator *)

(** ** What the search decides *)

(** [extends g g']: [g'] keeps every digit that [g] holds. *)
Definition extends (g g' : Grid) : Prop :=
  ∀ r c v, cell g r c = Some v → v ≠ 0 → cell g' r c = Some v.

(** A completion of [g]: a grid without empty cells, with the digits of
    [g] where [g] has digits, and no digit twice in a row, a column or a
    box. *)
Definition completion (size : nat) (boxDims : BoxDimensions) (digits : list nat)
    (g g' : Grid) : Prop :=
  wfGrid size g' ∧ consistent size boxDims g' ∧ valuesIn digits g' ∧
  complete size g' ∧ extends g g'.

Lemma extends_refl g : extends g g.
Proof. by intros r c v. Qed.

Lemma extends_trans g1 g2 g3 : extends g1 g2 → extends g2 g3 → extends g1 g3.
Proof. intros H12 H23 r c v Hv Hn. apply H23; [|done]. by apply H12. Qed.

Lemma extends_setCell g row col num :
  cell g row col = Some 0 → extends g (setCell g row col num).
Proof.
  intros H0 r c v Hv Hn. rewrite cell_setCell.
  case_decide as Hd; [|done]. destruct Hd as (-> & -> & _). congruence.
Qed.

Section deciding.
Context (size : nat) (boxDims : BoxDimensions) (digits : list nat).
Hypothesis rows_pos : 0 < rows boxDims.
Hypothesis cols_pos : 0 < cols boxDims.
Hypothesis box_cells : rows boxDims * cols boxDims = size.
Hypothesis digits_small : (Z.of_nat (length digits) < MAX_SAFE_INTEGER)%Z.

(** The digit that a completion has in an empty cell is a candidate of
    that cell. *)
Lemma completion_candidate g g' row col v :
  wfGrid size g → completion size boxDims digits g g' →
  row < size → col < size → cell g row col = Some 0 → cell g' row col = Some v →
  v ∈ getCandidates g row col size boxDims digits.
Proof.
  intros Hwf (Hwf' & Hcons & Hvals & Hcomp & Hext) Hr Hc H0 Hv.
  assert (v ≠ 0) as Hv0 by (intros ->; by apply (Hcomp row col)).
  apply getCandidates_spec. split; [|by destruct (Hvals _ _ _ Hv)].
  assert (∀ r c, r < size → c < size → peers boxDims row col r c → cell g r c ≠ Some v)
    as Hpeers.
  { intros r c Hr' Hc' Hp Hg.
    destruct (decide ((row, col) = (r, c))) as [[= <- <-]|Hne]; [congruence|].
    by apply (Hcons row col r c v), Hext. }
  assert (∀ k n, 0 < n → k < size → n * (size / n) = size →
                 ∀ i, k / n * n ≤ i < k / n * n + n → i < size) as Hbox.
  { intros k n Hn Hk Hdiv i Hi.
    assert (k / n < size / n) by (apply Nat.Div0.div_lt_upper_bound; lia). nia. }
  apply isValid_spec. split_and!.
  - intros j Hj. apply Hpeers; [done..|]. by left.
  - intros i Hi. apply Hpeers; [done..|]. right. by left.
  - intros i j Hi Hj. apply Hpeers.
    + apply (Hbox row (rows boxDims)); [done..| |done].
      symmetry. apply Nat.Div0.div_exact. rewrite <-box_cells, Nat.mul_comm.
      apply Nat.Div0.mod_mul.
    + apply (Hbox col (cols boxDims)); [done..| |done].
      symmetry. apply Nat.Div0.div_exact. rewrite <-box_cells.
      apply Nat.Div0.mod_mul.
    + right. right. split; symmetry; by apply box_range.
Qed.

Lemma completion_setCell g g' row col v :
  wfGrid size g → completion size boxDims digits g g' →
  cell g row col = Some 0 → cell g' row col = Some v →
  completion size boxDims digits (setCell g row col v) g'.
Proof.
  intros Hwf (Hwf' & Hcons & Hvals & Hcomp & Hext) H0 Hv.
  split_and!; [done..|]. intros r c w. rewrite cell_setCell.
  case_decide as Hd; [|by apply Hext]. destruct Hd as (-> & -> & _). by intros [= <-].
Qed.

(** What a successful call leaves is a completion of the grid it got. *)
Definition successOutcome (g : Grid) (res : bool * Grid * Rand) : Prop :=
  let '(b, g', _) := res in if b then extends g g' else True.

Lemma tryCandidates_extends solve row col cands : ∀ g rnd res,
  (∀ g rnd res, wfGrid size g → solve g rnd = Some res →
                solveOutcome size boxDims digits g res ∧ successOutcome g res) →
  wfGrid size g → cell g row col = Some 0 →
  tryCandidates solve row col cands g rnd = Some res → successOutcome g res.
Proof.
  induction cands as [|num cands IH]; intros g rnd res Hsolve Hwf H0.
  - by intros [= <-].
  - cbn [tryCandidates].
    destruct (solve (setCell g row col num) rnd) as [[[b g1] rnd1]|] eqn:Hs; [|done].
    destruct (Hsolve _ _ _ (wfGrid_setCell _ _ _ _ _ Hwf) Hs) as [Hout Hext].
    destruct b.
    + intros [= <-]. simpl in *. eapply extends_trans; [|done]. by apply extends_setCell.
    + simpl in Hout. subst g1. rewrite (setCell_restore size) by done. by apply IH.
Qed.

Lemma solveSudokuFuel_extends fuel : ∀ g rnd res,
  wfGrid size g →
  solveSudokuFuel fuel size boxDims digits g rnd = Some res → successOutcome g res.
Proof.
  induction fuel as [|fuel IH]; intros g rnd res Hwf; [done|].
  cbn [solveSudokuFuel].
  destruct (findBestCell g size boxDims digits rnd) as [[b|] rnd1] eqn:Hf.
  - apply (findBestCell_Some size boxDims digits rows_pos cols_pos digits_small) in Hf as (Hr & Hc & H0 & Hcands).
    apply tryCandidates_extends; [|done..].
    intros g1 rnd2 res1 Hwf1 Hs. split; [|by eapply IH].
    by eapply (solveSudokuFuel_outcome size boxDims digits rows_pos cols_pos digits_small).
  - intros [= <-]. apply extends_refl.
Qed.

(** The loop over the candidates succeeds if one of them is the digit of a
    completion, given that the recursive calls find the completions of
    grids with fewer empty cells. *)
Lemma tryCandidates_complete solve row col cands : ∀ g rnd,
  (∀ g rnd res, wfGrid size g → solve g rnd = Some res →
                solveOutcome size boxDims digits g res) →
  (∀ g1 rnd1, wfGrid size g1 → emptyCount size g1 < emptyCount size g →
              is_Some (solve g1 rnd1)) →
  (∀ g1 rnd1 g', wfGrid size g1 → emptyCount size g1 < emptyCount size g →
                 completion size boxDims digits g1 g' →
                 ∃ g2 rnd2, solve g1 rnd1 = Some (true, g2, rnd2)) →
  wfGrid size g → row < size → col < size → cell g row col = Some 0 →
  (∀ num, num ∈ cands → isValid g row col num size boxDims = true ∧ num ∈ digits) →
  (∃ g' v, completion size boxDims digits g g' ∧ cell g' row col = Some v ∧ v ∈ cands) →
  ∃ g2 rnd2, tryCandidates solve row col cands g rnd = Some (true, g2, rnd2).
Proof.
  induction cands as [|num cands IH];
    intros g rnd Hout Hterm Hfind Hwf Hr Hc H0 Hcands (g' & v & Hcompl & Hv & Hin).
  { by apply elem_of_nil in Hin. }
  cbn [tryCandidates]. destruct (Hcands num) as [Hvalid Hd]; [set_solver|].
  assert (num ≠ 0) as Hn by (by eapply isValid_nonzero).
  assert (emptyCount size (setCell g row col num) < emptyCount size g) as Hless
    by (by apply emptyCount_setCell).
  destruct (Hterm (setCell g row col num) rnd) as [[[b g1] rnd1] Hs];
    [by apply wfGrid_setCell|done|].
  rewrite Hs. destruct b; [by eauto|].
  pose proof (Hout _ _ _ (wfGrid_setCell _ _ _ _ _ Hwf) Hs) as Hg1.
  simpl in Hg1. subst g1. rewrite (setCell_restore size) by done.
  apply IH; [done..| |].
  - intros n Hn'. apply Hcands. set_solver.
  - exists g', v. split_and!; [done..|].
    apply elem_of_cons in Hin as [->|Hin]; [|done].
    destruct (Hfind (setCell g row col num) rnd g') as (g2 & rnd2 & Hs');
      [by apply wfGrid_setCell|done|by apply completion_setCell|].
    congruence.
Qed.

Lemma solveSudokuFuel_complete fuel : ∀ g rnd g',
  wfGrid size g → emptyCount size g < fuel →
  completion size boxDims digits g g' →
  ∃ g2 rnd2, solveSudokuFuel fuel size boxDims digits g rnd = Some (true, g2, rnd2).
Proof.
  induction fuel as [|fuel IH]; intros g rnd g' Hwf Hlt Hcompl; [lia|].
  cbn [solveSudokuFuel].
  destruct (findBestCell g size boxDims digits rnd) as [[b|] rnd1] eqn:Hf; [|by eauto].
  pose proof (findBestCell_spec size boxDims digits g digits_small rnd) as Hspec.
  rewrite Hf in Hspec. simpl in Hspec. destruct Hspec as (pre & post & _ & _ & Hperm & _).
  apply (findBestCell_Some size boxDims digits rows_pos cols_pos digits_small) in Hf as (Hr & Hc & H0 & Hcands).
  destruct Hcompl as (Hwf' & Hrest).
  destruct (cell_is_Some size g' (row b) (col b) Hwf' Hr Hc) as [v Hv].
  apply tryCandidates_complete; [| | |done..| ].
  - intros. by eapply (solveSudokuFuel_outcome size boxDims digits rows_pos cols_pos digits_small).
  - intros g1 rnd2 Hwf1 Hlt1.
    apply (solveSudokuFuel_terminates size boxDims digits rows_pos cols_pos digits_small);
      [done|lia].
  - intros g1 rnd2 g'' Hwf1 Hlt1 Hc1. eapply IH; [done|lia|done].
  - exists g', v. split_and!; [done|done|]. rewrite Hperm.
    by eapply completion_candidate.
Qed.
End deciding.

(** *** Checking a concrete grid *)

(** [consistent] and [valuesIn], as computations. *)
Definition consistentb (size : nat) (boxDims : BoxDimensions) (g : Grid) : bool :=
  forallb (λ p : nat * nat,
    forallb (λ q : nat * nat,
      bool_decide (p = q)
      || negb (bool_decide (p.1 = q.1 ∨ p.2 = q.2 ∨
                            (p.1 / rows boxDims = q.1 / rows boxDims ∧
                             p.2 / cols boxDims = q.2 / cols boxDims)))
      || match cell g p.1 p.2 with
         | Some v => (v =? 0) || negb (bool_decide (cell g q.1 q.2 = Some v))
         | None => true
         end)
      (scanOrder size))
    (scanOrder size).

Definition valuesInb (digits : list nat) (g : Grid) : bool :=
  forallb (forallb (λ v, (v =? 0) || bool_decide (v ∈ digits))) g.

Lemma consistentb_spec size boxDims g :
  consistentb size boxDims g = true → consistent size boxDims g.
Proof.
  unfold consistentb. rewrite forallb_forall. intros Hall r1 c1 r2 c2 v Hr1 Hc1 Hr2 Hc2 Hne Hp Hv Hv0.
  specialize (Hall (r1, c1)). rewrite forallb_forall in Hall.
  specialize (Hall ltac:(by apply list_elem_of_In, elem_of_scanOrder) (r2, c2)
                   ltac:(by apply list_elem_of_In, elem_of_scanOrder)).
  simpl in Hall. rewrite Hv in Hall.
  rewrite bool_decide_eq_false_2 in Hall by done.
  rewrite (bool_decide_eq_true_2 _ Hp) in Hall. simpl in Hall.
  apply orb_true_iff in Hall as [H0%Nat.eqb_eq|Hn]; [done|].
  by apply negb_true_iff, bool_decide_eq_false in Hn.
Qed.

Lemma valuesInb_spec digits g : valuesInb digits g = true → valuesIn digits g.
Proof.
  unfold valuesInb. rewrite forallb_forall. intros Hall r c v Hv.
  unfold cell in Hv. destruct (g !! r) as [row|] eqn:Hrow; [|done]. simpl in Hv.
  specialize (Hall row ltac:(by eapply list_elem_of_In, list_elem_of_lookup_2)).
  rewrite forallb_forall in Hall.
  specialize (Hall v ltac:(by eapply list_elem_of_In, list_elem_of_lookup_2)).
  apply orb_true_iff in Hall as [H0%Nat.eqb_eq|Hin%bool_decide_eq_true]; auto.
Qed.

(** *** The search decides whether the grid has a completion *)

(** The outcome of the search: it always returns; it succeeds exactly when
    the grid has a completion, and then leaves one; otherwise it leaves
    the grid as it found it. *)
Lemma solveSudoku_outcome size boxDims digits g rnd :
  0 < rows boxDims → 0 < cols boxDims → rows boxDims * cols boxDims = size →
  (Z.of_nat (length digits) < MAX_SAFE_INTEGER)%Z →
  wfGrid size g → consistent size boxDims g → valuesIn digits g →
  ∃ b g' rnd', solveSudoku g size boxDims digits rnd = Some (b, g', rnd') ∧
    (b = true ↔ ∃ g'', completion size boxDims digits g g'') ∧
    if b then completion size boxDims digits g g' else g' = g.
Proof.
  intros Hrows Hcols Hbox Hsmall Hwf Hcons Hvals.
  destruct (solveSudoku_terminates size boxDims digits Hrows Hcols Hsmall g rnd Hwf)
    as [[[b g'] rnd'] Hs].
  exists b, g', rnd'. split; [done|].
  pose proof (solveSudokuFuel_outcome size boxDims digits Hrows Hcols Hsmall _ _ _ _ Hwf Hs)
    as Hout.
  pose proof (solveSudokuFuel_extends size boxDims digits Hrows Hcols Hsmall _ _ _ _ Hwf Hs)
    as Hext.
  simpl in Hout, Hext.
  assert (b = true → completion size boxDims digits g g') as Hsucc.
  { intros ->. destruct (Hout Hcons Hvals) as (? & ? & ? & ?). by split_and!. }
  split; [split|].
  - intros Hb. exists g'. by apply Hsucc.
  - intros [g'' Hcompl].
    destruct (solveSudokuFuel_complete size boxDims digits Hrows Hcols Hbox Hsmall
                (size * size + 1) g rnd g'' Hwf) as (g2 & rnd2 & Hs'); [|done|].
    { pose proof (emptyCount_le size g). lia. }
    unfold solveSudoku in Hs. congruence.
  - destruct b; [by apply Hsucc|done].
Qed.

(** [solveSudoku] always returns, and whether it succeeds does not depend
    on the random choices: it returns [true] exactly when the grid it is
    given (with no digit twice in a row, column or box) has a completion. *)
Theorem solveSudoku_decides size boxDims digits g rnd :
  0 < rows boxDims → 0 < cols boxDims → rows boxDims * cols boxDims = size →
  (Z.of_nat (length digits) < MAX_SAFE_INTEGER)%Z →
  wfGrid size g → consistent size boxDims g → valuesIn digits g →
  ∃ b g' rnd', solveSudoku g size boxDims digits rnd = Some (b, g', rnd') ∧
    (b = true ↔ ∃ g'', completion size boxDims digits g g'').
Proof.
  intros Hrows Hcols Hbox Hsmall Hwf Hcons Hvals.
  destruct (solveSudoku_outcome size boxDims digits g rnd) as (b & g' & rnd' & ? & ? & _);
    [done..|].
  by exists b, g', rnd'.
Qed.

Lemma solveSudoku_decides_witness :
  let g := [[1; 2; 0; 0]; [3; 4; 0; 0]; [0; 0; 3; 1]; [0; 0; 4; 2]] in
  ∃ b g' rnd', solveSudoku g 4 (mkBox 2 2) [1; 2; 3; 4] (replay []) = Some (b, g', rnd') ∧
    (b = true ↔ ∃ g'', completion 4 (mkBox 2 2) [1; 2; 3; 4] g g'').
Proof.
  apply (solveSudoku_decides 4 (mkBox 2 2) [1; 2; 3; 4]
           [[1; 2; 0; 0]; [3; 4; 0; 0]; [0; 0; 3; 1]; [0; 0; 4; 2]] (replay [])).
  - simpl. lia.
  - simpl. lia.
  - reflexivity.
  - vm_compute. reflexivity.
  - split; [reflexivity|]. apply (bool_decide_unpack _). vm_compute. exact I.
  - apply consistentb_spec. vm_compute. reflexivity.
  - apply valuesInb_spec. vm_compute. reflexivity.
Defined.

(** What [solveSudoku] leaves in the grid.  When it returns [true], the
    grid is complete, has no digit twice in a row, a column or a box, and
    still has every digit it had on entry; when it returns [false], the
    grid is exactly as it was on entry: every cell the search wrote is
    back to 0. *)
Theorem solveSudoku_result size boxDims digits g rnd b g' rnd' :
  0 < rows boxDims → 0 < cols boxDims →
  (Z.of_nat (length digits) < MAX_SAFE_INTEGER)%Z →
  wfGrid size g → consistent size boxDims g → valuesIn digits g →
  solveSudoku g size boxDims digits rnd = Some (b, g', rnd') →
  if b then completion size boxDims digits g g' else g' = g.
Proof.
  intros Hrows Hcols Hsmall Hwf Hcons Hvals Hs.
  pose proof (solveSudokuFuel_outcome size boxDims digits Hrows Hcols Hsmall _ _ _ _ Hwf Hs)
    as Hout.
  pose proof (solveSudokuFuel_extends size boxDims digits Hrows Hcols Hsmall _ _ _ _ Hwf Hs)
    as Hext.
  simpl in Hout, Hext. destruct b; [|done].
  destruct (Hout Hcons Hvals) as (? & ? & ? & ?). by split_and!.
Qed.

Lemma solveSudoku_result_witness :
  completion 4 (mkBox 2 2) [1; 2; 3; 4]
    [[1; 2; 0; 0]; [3; 4; 0; 0]; [0; 0; 1; 2]; [0; 0; 4; 3]]
    [[1; 2; 3; 4]; [3; 4; 2; 1]; [4; 3; 1; 2]; [2; 1; 4; 3]].
Proof.
  apply (solveSudoku_result 4 (mkBox 2 2) [1; 2; 3; 4]
           [[1; 2; 0; 0]; [3; 4; 0; 0]; [0; 0; 1; 2]; [0; 0; 4; 3]] (replay []) true
           _ (mkRand (draws (replay [])) 0)).
  - simpl. lia.
  - simpl. lia.
  - vm_compute. reflexivity.
  - split; [reflexivity|]. apply (bool_decide_unpack _). vm_compute. exact I.
  - apply consistentb_spec. vm_compute. reflexivity.
  - apply valuesInb_spec. vm_compute. reflexivity.
  - vm_compute. reflexivity.
Defined.

(** One pass of the retry loop of [generateSudoku] succeeds exactly when
    the diagonal boxes it has just seeded can be completed; when they
    cannot, the pass leaves the seeded grid, zeros included, and the next
    pass starts over. *)
Theorem attempt_succeeds_iff size boxDims g rnd :
  size ∈ VALID_SIZES → getBoxDimensions size = Ok boxDims → wfGrid size g →
  let seed := (fillDiagonalBoxes (zeroGrid g) size boxDims (getDigits size) rnd).1 in
  ∃ b g' rnd', attempt g size boxDims (getDigits size) rnd = Some (b, g', rnd') ∧
    (b = true ↔ ∃ g'', completion size boxDims (getDigits size) seed g'') ∧
    (b = false → g' = seed).
Proof.
  intros Hin Hbd Hwf seed.
  destruct (supported_size size Hin) as (bd & Hbd' & Hrows & Hcols & Hbox & Hshape & Hsmall).
  rewrite Hbd in Hbd'. injection Hbd' as <-.
  assert (seeded size boxDims (getDigits size) (size / cols boxDims) seed)
    as (Hwf' & Hcons & Hvals & _).
  { apply fillDiagonalBoxes_seeded;
      [done..|apply getDigits_length|apply getDigits_NoDup| |by apply seeded_zeroGrid].
    by apply (getDigits_nonzero size boxDims). }
  unfold attempt. subst seed.
  destruct (fillDiagonalBoxes (zeroGrid g) size boxDims (getDigits size) rnd) as [g1 rnd1].
  simpl in *.
  destruct (solveSudoku_outcome size boxDims (getDigits size) g1 rnd1)
    as (b & g' & rnd' & Hs & Hiff & Hres); [done..| |done|done|done|].
  { by rewrite getDigits_length. }
  exists b, g', rnd'. split_and!; [done|done|]. by intros ->.
Qed.

Lemma attempt_succeeds_iff_witness :
  let seed := (fillDiagonalBoxes (zeroGrid (replicate 4 (replicate 4 0))) 4 (mkBox 2 2)
                                 (getDigits 4) (replay [3; 2; 1; 1; 0; 0])).1 in
  ∃ b g' rnd', attempt (replicate 4 (replicate 4 0)) 4 (mkBox 2 2) (getDigits 4)
                       (replay [3; 2; 1; 1; 0; 0]) = Some (b, g', rnd') ∧
    (b = true ↔ ∃ g'', completion 4 (mkBox 2 2) (getDigits 4) seed g'') ∧
    (b = false → g' = seed).
Proof.
  apply (attempt_succeeds_iff 4 (mkBox 2 2) (replicate 4 (replicate 4 0))
           (replay [3; 2; 1; 1; 0; 0])).
  - apply (bool_decide_unpack _). vm_compute. exact I.
  - reflexivity.
  - split; [reflexivity|]. apply (bool_decide_unpack _). vm_compute. exact I.
Defined.

(** ** The shuffle *)

(** The values that [j] takes in the loop of [shuffleArray], entered with
    the loop variable equal to [i], in the order they are drawn. *)
Fixpoint loopOutcomes (i : nat) (rnd : Rand) : list nat :=
  match i with
  | 0 => []
  | S i' => let '(j, rnd) := randomBelow (i + 1) rnd in j :: loopOutcomes i' rnd
  end.

(** The swaps of the loop, for given values of [j]. *)
Fixpoint swaps {A} (i : nat) (js : list nat) (arr : list A) : list A :=
  match i, js with
  | S i', j :: js => swaps i' js (swap arr i j)
  | _, _ => arr
  end.

(** The values of [j] that the loop can draw: the first is at most [i],
    the next at most [i - 1], and so on. *)
Fixpoint inRange (i : nat) (js : list nat) : Prop :=
  match i, js with
  | 0, [] => True
  | S i', j :: js => j ≤ i ∧ inRange i' js
  | _, _ => False
  end.

Lemma shuffleLoop_swaps {A} i : ∀ (arr : list A) rnd,
  (shuffleLoop i arr rnd).1 = swaps i (loopOutcomes i rnd) arr.
Proof.
  induction i as [|i IH]; intros arr rnd; [done|].
  cbn [shuffleLoop loopOutcomes].
  destruct (randomBelow (S i + 1) rnd) as [j rnd1]. cbn [swaps]. apply IH.
Qed.

Lemma shuffleLoop_rnd {A} i : ∀ (arr : list A) rnd,
  draws (shuffleLoop i arr rnd).2 = draws rnd ∧
  cursor (shuffleLoop i arr rnd).2 = cursor rnd + i.
Proof.
  induction i as [|i IH]; intros arr rnd; [simpl; split; [done|lia]|].
  cbn [shuffleLoop]. unfold randomBelow.
  destruct (IH (swap arr (S i) (draws rnd (cursor rnd) `mod` (S i + 1)))
               (mkRand (draws rnd) (S (cursor rnd)))) as [Hd Hc].
  replace (S i + 1) with (S (S i)) in * by lia. cbn [fst snd] in *.
  rewrite Hd, Hc. simpl. split; [done|lia].
Qed.

Lemma loopOutcomes_inRange i : ∀ rnd, inRange i (loopOutcomes i rnd).
Proof.
  induction i as [|i IH]; intros rnd; [done|].
  cbn [loopOutcomes].
  pose proof (randomBelow_lt (S i + 1) rnd ltac:(lia)) as Hlt.
  destruct (randomBelow (S i + 1) rnd) as [j rnd1]. simpl in *. split; [lia|apply IH].
Qed.

(** A source that replays outcomes in range draws exactly them. *)
Lemma loopOutcomes_replay i : ∀ js pre,
  inRange i js →
  loopOutcomes i (mkRand (λ k, default 0 ((pre ++ js) !! k)) (length pre)) = js.
Proof.
  induction i as [|i IH]; intros js pre Hr.
  - by destruct js.
  - destruct js as [|j js]; [done|]. destruct Hr as [Hj Hr].
    cbn [loopOutcomes]. unfold randomBelow. replace (S i + 1) with (S (S i)) by lia.
    cbn [draws cursor]. rewrite list_lookup_middle by done. simpl default.
    rewrite Nat.mod_small by lia. f_equal.
    specialize (IH js (pre ++ [j]) Hr).
    rewrite <-app_assoc, length_app in IH. simpl in IH.
    by replace (length pre + 1) with (S (length pre)) in IH by lia.
Qed.

Lemma swap_length {A} (arr : list A) i j : length (swap arr i j) = length arr.
Proof.
  unfold swap. destruct (arr !! i), (arr !! j); try done.
  by rewrite !length_insert.
Qed.

Lemma swaps_length {A} i : ∀ js (arr : list A), length (swaps i js arr) = length arr.
Proof.
  induction i as [|i IH]; intros js arr; [done|].
  destruct js as [|j js]; [done|]. cbn [swaps]. by rewrite IH, swap_length.
Qed.

Lemma swap_lookup {A} (arr : list A) i j k :
  i < length arr → j < length arr →
  swap arr i j !! k =
    if decide (k = j) then arr !! i else if decide (k = i) then arr !! j else arr !! k.
Proof.
  intros Hi Hj. unfold swap.
  destruct (lookup_lt_is_Some_2 arr i Hi) as [x Hx].
  destruct (lookup_lt_is_Some_2 arr j Hj) as [y Hy]. rewrite Hx, Hy.
  destruct (decide (k = j)) as [->|Hkj].
  - rewrite list_lookup_insert_eq; [done|]. by rewrite length_insert.
  - rewrite list_lookup_insert_ne by done.
    destruct (decide (k = i)) as [->|Hki].
    + by rewrite list_lookup_insert_eq.
    + by rewrite list_lookup_insert_ne.
Qed.

(** The loop entered at [i] leaves the elements after index [i] alone. *)
Lemma swaps_above {A} i : ∀ js (arr : list A) k,
  inRange i js → i < length arr → i < k → swaps i js arr !! k = arr !! k.
Proof.
  induction i as [|i IH]; intros js arr k Hr Hi Hk; [by destruct js|].
  destruct js as [|j js]; [done|]. destruct Hr as [Hj Hr]. cbn [swaps].
  rewrite IH; [|done|rewrite swap_length; lia|lia].
  rewrite swap_lookup by lia. rewrite !decide_False by lia. done.
Qed.

(** For an array without duplicates, the result of the loop tells which
    values were drawn. *)
Lemma swaps_inj {A} i : ∀ js js' (arr : list A),
  NoDup arr → i < length arr → inRange i js → inRange i js' →
  swaps i js arr = swaps i js' arr → js = js'.
Proof.
  induction i as [|i IH]; intros js js' arr Hnd Hi Hr Hr' Heq.
  { destruct js, js'; done. }
  destruct js as [|j js]; [done|]. destruct js' as [|j' js']; [done|].
  destruct Hr as [Hj Hr], Hr' as [Hj' Hr']. cbn [swaps] in Heq.
  assert (swap arr (S i) j !! S i = swap arr (S i) j' !! S i) as Hlast.
  { rewrite <-(swaps_above i js (swap arr (S i) j) (S i));
      [|done|rewrite swap_length; lia|lia].
    rewrite <-(swaps_above i js' (swap arr (S i) j') (S i));
      [|done|rewrite swap_length; lia|lia].
    by rewrite Heq. }
  rewrite !swap_lookup in Hlast by lia.
  assert (arr !! j = arr !! j') as Hjj.
  { destruct (decide (S i = j)) as [<-|], (decide (S i = j')) as [<-|];
      rewrite ?decide_True in Hlast by done; done. }
  assert (j = j') as <-.
  { destruct (lookup_lt_is_Some_2 arr j ltac:(lia)) as [x Hx].
    eapply NoDup_lookup; [done..|]. by rewrite <-Hjj. }
  f_equal. apply (IH js js' (swap arr (S i) j)); [|rewrite swap_length; lia|done..].
  by rewrite swap_Permutation.
Qed.

Lemma swap_app {A} (l : list A) x i j :
  i < length l → j < length l → swap (l ++ [x]) i j = swap l i j ++ [x].
Proof.
  intros Hi Hj. unfold swap. rewrite !lookup_app_l by done.
  destruct (l !! i), (l !! j); try done.
  rewrite !insert_app_l; [done|by rewrite length_insert|done].
Qed.

Lemma swaps_app {A} i : ∀ js (l : list A) x,
  inRange i js → i < length l → swaps i js (l ++ [x]) = swaps i js l ++ [x].
Proof.
  induction i as [|i IH]; intros js l x Hr Hi; [by destruct js|].
  destruct js as [|j js]; [done|]. destruct Hr as [Hj Hr]. cbn [swaps].
  rewrite swap_app by lia. apply IH; [done|rewrite swap_length; lia].
Qed.

(** Every permutation is the result of the loop for some values in range. *)
Lemma swaps_surj {A} (target : list A) : ∀ arr,
  arr ≡ₚ target → ∃ js, inRange (length arr - 1) js ∧ swaps (length arr - 1) js arr = target.
Proof.
  induction target as [|x target IH] using rev_ind; intros arr Hperm.
  { apply Permutation_nil_r in Hperm as ->. by exists []. }
  assert (length arr = S (length target)) as Hlen.
  { rewrite Hperm, length_app. simpl. lia. }
  destruct target as [|y target'] using rev_ind.
  { exists []. simpl in *. rewrite Hlen. split; [done|].
    simpl. by apply Permutation_singleton_r in Hperm. }
  clear IHtarget'. set (target := target' ++ [y]) in *.
  assert (length target = S (length target')) as Hlt.
  { unfold target. rewrite length_app. simpl. lia. }
  assert (x ∈ arr) as Hx by (rewrite Hperm; set_solver).
  apply list_elem_of_lookup_1 in Hx as [j Hj].
  pose proof (lookup_lt_Some _ _ _ Hj) as Hjlt.
  set (n := length target) in *.
  assert (swap arr n j !! n = Some x) as Hlast.
  { rewrite swap_lookup by lia. destruct (decide (n = j)) as [<-|]; [done|].
    by rewrite decide_True. }
  assert (∃ init, swap arr n j = init ++ [x] ∧ length init = n) as (init & Hinit & Hli).
  { exists (take n (swap arr n j)). split.
    - rewrite <-(take_drop n (swap arr n j)) at 1. f_equal.
      apply list_eq. intros [|k]; rewrite lookup_drop.
      + by rewrite Nat.add_0_r.
      + simpl. apply lookup_ge_None_2. rewrite swap_length. lia.
    - rewrite length_take, swap_length. lia. }
  assert (init ≡ₚ target) as Hpi.
  { apply (Permutation_app_inv_r [x]). by rewrite <-Hinit, swap_Permutation. }
  destruct (IH init Hpi) as (js & Hr & Hs). rewrite Hli in Hr, Hs.
  exists (j :: js). rewrite Hlen. replace (S n - 1) with n by lia.
  unfold n in *. rewrite Hlt in *. replace (S (length target') - 1) with (length target') in * by lia.
  split; [split; [lia|done]|].
  cbn [swaps]. rewrite Hinit, swaps_app; [by rewrite Hs|done|lia].
Qed.

(** [shuffleArray] returns an array of the same length after exactly
    [length - 1] calls of [Math.random] (none for an empty or a one-element
    array, which come back as they are). *)
Theorem shuffleArray_cost {A} (array : list A) (rnd : Rand) :
  length (shuffleArray array rnd).1 = length array ∧
  cursor (shuffleArray array rnd).2 = cursor rnd + (length array - 1) ∧
  draws (shuffleArray array rnd).2 = draws rnd ∧
  (length array ≤ 1 → (shuffleArray array rnd).1 = array).
Proof.
  split; [apply shuffleArray_length|]. unfold shuffleArray.
  destruct (shuffleLoop_rnd (length array - 1) array rnd) as [Hd Hc].
  split_and!; [done|done|]. intros Hle.
  by replace (length array - 1) with 0 by lia.
Qed.

(** On an array without duplicates the result of [shuffleArray] tells the
    choices that made it: two runs that return the same array chose the
    same index [j] at every step of the loop.  No two sequences of choices
    give the same permutation. *)
Theorem shuffleArray_choices_determined {A} (array : list A) (rnd1 rnd2 : Rand) :
  NoDup array →
  (shuffleArray array rnd1).1 = (shuffleArray array rnd2).1 →
  loopOutcomes (length array - 1) rnd1 = loopOutcomes (length array - 1) rnd2.
Proof.
  intros Hnd. unfold shuffleArray. rewrite !shuffleLoop_swaps.
  destruct array as [|x array]; [done|].
  apply swaps_inj; [done|simpl; lia|apply loopOutcomes_inRange..].
Qed.

Lemma shuffleArray_choices_determined_witness :
  loopOutcomes (length [1; 2; 3] - 1) (replay [2; 1])
  = loopOutcomes (length [1; 2; 3] - 1) (replay [5; 3]).
Proof.
  apply (shuffleArray_choices_determined [1; 2; 3] (replay [2; 1]) (replay [5; 3])).
  - apply (bool_decide_unpack _). vm_compute. exact I.
  - vm_compute. reflexivity.
Defined.

(** Every permutation of the array can come out of [shuffleArray]. *)
Theorem shuffleArray_reaches_every_permutation {A} (array target : list A) :
  array ≡ₚ target → ∃ rnd, (shuffleArray array rnd).1 = target.
Proof.
  intros Hperm. destruct (swaps_surj target array Hperm) as (js & Hr & Hs).
  exists (replay js). unfold shuffleArray. rewrite shuffleLoop_swaps.
  unfold replay. by rewrite (loopOutcomes_replay _ js []).
Qed.

Lemma shuffleArray_reaches_every_permutation_witness :
  ∃ rnd, (shuffleArray [1; 2; 3] rnd).1 = [3; 1; 2].
Proof.
  apply (shuffleArray_reaches_every_permutation [1; 2; 3] [3; 1; 2]).
  apply (bool_decide_unpack _). vm_compute. exact I.
Defined.

(** ** Seeds without completion at size 4 *)

(** The grid after seeding at size 4, from the two shuffled arrays. *)
Definition seedGrid4 (n1 n2 : list nat) : Grid :=
  let a k := default 0 (n1 !! k) in
  let b k := default 0 (n2 !! k) in
  [[a 0; a 1; 0; 0]; [a 2; a 3; 0; 0]; [0; 0; b 0; b 1]; [0; 0; b 2; b 3]].

Lemma zeroGrid_4 g : wfGrid 4 g → zeroGrid g = replicate 4 (replicate 4 0).
Proof.
  intros [Hl Hr]. do 5 (destruct g as [|? g]; try discriminate).
  repeat (apply Forall_cons in Hr as [? Hr]). unfold zeroGrid. simpl.
  by repeat match goal with H : length _ = 4 |- _ => rewrite H; clear H end.
Qed.

Lemma fillDiagonalBoxes_4 g rnd :
  wfGrid 4 g →
  fillDiagonalBoxes (zeroGrid g) 4 (mkBox 2 2) (getDigits 4) rnd
  = (seedGrid4 (shuffleArray (getDigits 4) rnd).1
               (shuffleArray (getDigits 4) (shuffleArray (getDigits 4) rnd).2).1,
     (shuffleArray (getDigits 4) (shuffleArray (getDigits 4) rnd).2).2).
Proof.
  intros Hwf. rewrite zeroGrid_4 by done.
  generalize (getDigits 4). intros digits.
  cbv -[shuffleArray].
  destruct (shuffleArray digits rnd) as [n1 rnd1].
  destruct (shuffleArray digits rnd1) as [n2 rnd2].
  reflexivity.
Qed.

(** All the sequences of values that the loop of [shuffleArray] can draw
    when entered at [i]. *)
Fixpoint choices (i : nat) : list (list nat) :=
  match i with
  | 0 => [[]]
  | S i' => j ← seq 0 (S i); (λ js, j :: js) <$> choices i'
  end.

Lemma inRange_choices i : ∀ js, inRange i js → js ∈ choices i.
Proof.
  induction i as [|i IH]; intros js Hr.
  - destruct js; [set_solver|done].
  - destruct js as [|j js]; [done|]. destruct Hr as [Hj Hr]. cbn [choices].
    apply list_elem_of_bind. exists j. split; [|apply elem_of_seq; lia].
    apply list_elem_of_fmap. exists js. split; [done|by apply IH].
Qed.

(** The result of the search on a seed of size 4, with a source of
    randomness that always answers 0. *)
Definition completes4 (seed : Grid) : bool :=
  match solveSudoku seed 4 (mkBox 2 2) (getDigits 4) (replay []) with
  | Some (b, _, _) => b
  | None => false
  end.

(** Two cells hold the two digits [u] and [v]. *)
Definition samePair (x y u v : nat) : bool :=
  ((x =? u) && (y =? v)) || ((x =? v) && (y =? u)).

(** No column of the second box holds the two digits of a row of the
    first, and no row of the second box holds the two digits of a column
    of the first. *)
Definition boxesCross (n1 n2 : list nat) : bool :=
  match n1, n2 with
  | [a; b; c; d], [e; f; g; h] =>
      negb (samePair e g a b) && negb (samePair e g c d)
      && negb (samePair e f a c) && negb (samePair e f b d)
  | _, _ => false
  end.

(** The pairs of shuffled arrays that the two calls of [shuffleArray] of
    a pass at size 4 can return, one pair per sequence of draws. *)
Definition seeds4 : list (list nat * list nat) :=
  js1 ← choices 3; js2 ← choices 3;
  [(swaps 3 js1 (getDigits 4), swaps 3 js2 (getDigits 4))].

Lemma seeds4_search :
  forallb (λ p, eqb (completes4 (seedGrid4 p.1 p.2)) (boxesCross p.1 p.2)) seeds4 = true.
Proof. vm_compute. reflexivity. Qed.

(** At size 4 a pass of the retry loop succeeds exactly when the two seeded
    boxes cross: no column of the second box holds the two digits of a row
    of the first, and no row of the second the two digits of a column of
    the first.  Of the 576 different pairs of boxes that the two shuffles
    can produce, one per sequence of draws, 288 cross: the other half of
    the seeds cannot be completed and the pass fails. *)
Theorem attempt_4_succeeds_iff_cross g rnd :
  wfGrid 4 g →
  let n1 := (shuffleArray (getDigits 4) rnd).1 in
  let n2 := (shuffleArray (getDigits 4) (shuffleArray (getDigits 4) rnd).2).1 in
  (∃ b g' rnd', attempt g 4 (mkBox 2 2) (getDigits 4) rnd = Some (b, g', rnd') ∧
                b = boxesCross n1 n2) ∧
  (n1, n2) ∈ seeds4 ∧ NoDup seeds4 ∧ length seeds4 = 576 ∧
  length (filter (λ p, boxesCross p.1 p.2 = true) seeds4) = 288.
Proof.
  intros Hwf n1 n2.
  assert ((n1, n2) ∈ seeds4) as Hseed.
  { unfold seeds4, n1, n2, shuffleArray. rewrite !shuffleLoop_swaps.
    change (length (getDigits 4) - 1) with 3.
    apply list_elem_of_bind. eexists. split; [|apply inRange_choices, loopOutcomes_inRange].
    apply list_elem_of_bind. eexists. split; [|apply inRange_choices, loopOutcomes_inRange].
    apply list_elem_of_singleton. reflexivity. }
  split; [|split_and!; [done|..]].
  - assert (4 ∈ VALID_SIZES) as Hin by (apply (bool_decide_unpack _); vm_compute; exact I).
    destruct (supported_size 4 Hin) as (bd & Hbd & Hrows & Hcols & Hbox & Hshape & Hsmall).
    injection Hbd as <-.
    assert (seeded 4 (mkBox 2 2) (getDigits 4) (4 / cols (mkBox 2 2))
              (fillDiagonalBoxes (zeroGrid g) 4 (mkBox 2 2) (getDigits 4) rnd).1)
      as (Hwf' & Hcons & Hvals & _).
    { apply fillDiagonalBoxes_seeded;
        [done..|apply getDigits_length|apply getDigits_NoDup| |by apply seeded_zeroGrid].
      by apply (getDigits_nonzero 4 (mkBox 2 2)). }
    unfold attempt. rewrite fillDiagonalBoxes_4 in * by done. cbn [fst snd] in *.
    fold n1 n2 in Hwf', Hcons, Hvals |- *.
    assert (Z.of_nat (length (getDigits 4)) < MAX_SAFE_INTEGER)%Z as Hsmall'
      by (by rewrite getDigits_length).
    destruct (solveSudoku_outcome 4 (mkBox 2 2) (getDigits 4) (seedGrid4 n1 n2)
                (shuffleArray (getDigits 4) (shuffleArray (getDigits 4) rnd).2).2)
      as (b & g' & rnd' & Hs & Hiff & _); [done..|].
    destruct (solveSudoku_outcome 4 (mkBox 2 2) (getDigits 4) (seedGrid4 n1 n2) (replay []))
      as (b0 & g0 & rnd0 & Hs0 & Hiff0 & _); [done..|].
    exists b, g', rnd'. split; [done|].
    pose proof seeds4_search as Hall. rewrite forallb_forall in Hall.
    specialize (Hall (n1, n2) ltac:(by apply list_elem_of_In)). simpl in Hall.
    apply eqb_prop in Hall. rewrite <-Hall. unfold completes4. rewrite Hs0.
    destruct b, b0; [done| | |done].
    + assert (false = true) by (by apply Hiff0, Hiff). done.
    + assert (false = true) by (by apply Hiff, Hiff0). done.
  - apply (bool_decide_unpack _). vm_compute. exact I.
  - vm_compute. reflexivity.
  - vm_compute. reflexivity.
Qed.

Lemma attempt_4_succeeds_iff_cross_witness :
  let g := replicate 4 (replicate 4 0) in
  let rnd := replay [0; 0; 1; 1; 0; 1] in
  let n1 := (shuffleArray (getDigits 4) rnd).1 in
  let n2 := (shuffleArray (getDigits 4) (shuffleArray (getDigits 4) rnd).2).1 in
  (∃ b g' rnd', attempt g 4 (mkBox 2 2) (getDigits 4) rnd = Some (b, g', rnd') ∧
                b = boxesCross n1 n2) ∧
  (n1, n2) ∈ seeds4 ∧ NoDup seeds4 ∧ length seeds4 = 576 ∧
  length (filter (λ p, boxesCross p.1 p.2 = true) seeds4) = 288.
Proof.
  apply (attempt_4_succeeds_iff_cross (replicate 4 (replicate 4 0))
           (replay [0; 0; 1; 1; 0; 1])).
  split; [reflexivity|]. apply (bool_decide_unpack _). vm_compute. exact I.
Defined.

(** ** The seeded boxes *)

Section seeding_pattern.
Context (size : nat) (boxDims : BoxDimensions) (digits : list nat).
Hypothesis rows_pos : 0 < rows boxDims.
Hypothesis cols_pos : 0 < cols boxDims.
Hypothesis box_cells : rows boxDims * cols boxDims = size.
Hypothesis box_shape : rows boxDims ≤ cols boxDims.
Hypothesis digits_length : length digits = size.

(** The grid and the random source after the first [k] diagonal boxes were
    filled, starting from an empty grid and the source [rnd0]: each of
    these boxes holds a permutation of the digits, row by row, every other
    cell is empty, and each box cost [size - 1] draws. *)
Definition seededBoxes (rnd0 : Rand) (k : nat) (st : Grid * Rand) : Prop :=
  wfGrid size st.1 ∧
  draws st.2 = draws rnd0 ∧ cursor st.2 = cursor rnd0 + k * (size - 1) ∧
  (∀ b, b < k → ∃ numbers, numbers ≡ₚ digits ∧
     ∀ i j, i < rows boxDims → j < cols boxDims →
       cell st.1 (b * rows boxDims + i) (b * cols boxDims + j)
       = numbers !! (i * cols boxDims + j)) ∧
  (∀ r c, r < size → c < size →
     ¬ (r / rows boxDims = c / cols boxDims ∧ r / rows boxDims < k) →
     cell st.1 r c = Some 0).

Lemma seededBoxes_fillBox rnd0 k g rnd :
  seededBoxes rnd0 k (g, rnd) → k < size / cols boxDims →
  seededBoxes rnd0 (S k)
    (fillBox g (k * rows boxDims) (k * cols boxDims) boxDims digits rnd).
Proof.
  intros (Hwf & Hd & Hc & Hboxes & Hzero) Hk. simpl in *.
  assert (size / cols boxDims = rows boxDims) as Hbpr
    by (rewrite <-box_cells; apply Nat.div_mul; lia).
  rewrite Hbpr in Hk.
  assert (k * rows boxDims + rows boxDims ≤ size) as Hr by nia.
  assert (k * cols boxDims + cols boxDims ≤ size) as Hcc by nia.
  destruct (fillBox_cells size boxDims digits rows_pos cols_pos box_cells box_shape
              digits_length g (k * rows boxDims) (k * cols boxDims) rnd Hwf Hr Hcc)
    as (numbers & Hperm & Hwf' & Hcell).
  assert ((fillBox g (k * rows boxDims) (k * cols boxDims) boxDims digits rnd).2
          = (shuffleArray digits rnd).2) as Hrnd.
  { unfold fillBox. destruct (shuffleArray digits rnd) as [ns rnd1].
    by destruct (foldl _ _ _). }
  destruct (shuffleLoop_rnd (length digits - 1) digits rnd) as [Hd' Hc'].
  fold (shuffleArray digits rnd) in Hd', Hc'.
  split_and!.
  - done.
  - rewrite Hrnd. congruence.
  - rewrite Hrnd, Hc', Hc, digits_length. lia.
  - intros b Hb. destruct (decide (b = k)) as [->|Hne].
    + exists numbers. split; [done|]. intros i j Hi Hj. rewrite Hcell.
      rewrite decide_True by lia.
      replace ((k * rows boxDims + i - k * rows boxDims) * cols boxDims +
               (k * cols boxDims + j - k * cols boxDims))
        with (i * cols boxDims + j) by (f_equal; [f_equal|]; lia).
      destruct (lookup_lt_is_Some_2 numbers (i * cols boxDims + j)) as [x ->]; [|done].
      rewrite Hperm, digits_length, <-box_cells. nia.
    + destruct (Hboxes b ltac:(lia)) as (ns & Hns & Hcells). exists ns. split; [done|].
      intros i j Hi Hj. rewrite Hcell, decide_False; [by apply Hcells|]. nia.
  - intros r c Hr' Hc'' Hout. rewrite Hcell.
    destruct (decide (k * rows boxDims ≤ r < k * rows boxDims + rows boxDims ∧
                      k * cols boxDims ≤ c < k * cols boxDims + cols boxDims))
      as [[Hir Hic]|Hn].
    + exfalso. apply Hout. rewrite (div_block _ k r), (div_block _ k c) by done. lia.
    + apply Hzero; [done..|]. intros [Heq Hlt]. apply Hout. split; [done|lia].
Qed.

Lemma seededBoxes_outer rnd0 boxesPerRow m : ∀ b g rnd,
  seededBoxes rnd0 b (g, rnd) → b + m ≤ boxesPerRow → boxesPerRow ≤ size / cols boxDims →
  seededBoxes rnd0 (b + m)
    (foldl (λ '(g, rnd) boxRow,
       foldl (λ '(g, rnd) boxCol,
           if bool_decide (boxRow = boxCol) then
             fillBox g (boxRow * rows boxDims) (boxCol * cols boxDims) boxDims digits rnd
           else (g, rnd))
         (g, rnd) (seq 0 boxesPerRow))
       (g, rnd) (seq b m)).
Proof.
  induction m as [|m IH]; intros b g rnd Hs Hm Hb.
  - by rewrite Nat.add_0_r.
  - cbn [seq foldl].
    rewrite (fillDiagonal_inner size boxDims digits rows_pos cols_pos box_cells box_shape
               digits_length).
    rewrite decide_True by lia.
    pose proof (seededBoxes_fillBox rnd0 b g rnd Hs ltac:(lia)) as Hs'.
    destruct (fillBox _ _ _ _ _ _) as [g1 rnd1].
    replace (b + S m) with (S b + m) by lia. apply IH; [done|lia|done].
Qed.
End seeding_pattern.

(** [fillDiagonalBoxes], run on an empty grid: each box on the diagonal
    holds a permutation of the digits, written row by row; every cell
    outside these boxes is still 0; and the seeding took [size - 1] calls
    of [Math.random] per box. *)
Theorem fillDiagonalBoxes_pattern size boxDims g rnd :
  size ∈ VALID_SIZES → getBoxDimensions size = Ok boxDims →
  wfGrid size g → (∀ r c, r < size → c < size → cell g r c = Some 0) →
  let g' := (fillDiagonalBoxes g size boxDims (getDigits size) rnd).1 in
  let rnd' := (fillDiagonalBoxes g size boxDims (getDigits size) rnd).2 in
  wfGrid size g' ∧
  (∀ b, b < size / cols boxDims → ∃ numbers, numbers ≡ₚ getDigits size ∧
     ∀ i j, i < rows boxDims → j < cols boxDims →
       cell g' (b * rows boxDims + i) (b * cols boxDims + j)
       = numbers !! (i * cols boxDims + j)) ∧
  (∀ r c, r < size → c < size → r / rows boxDims ≠ c / cols boxDims →
     cell g' r c = Some 0) ∧
  draws rnd' = draws rnd ∧
  cursor rnd' = cursor rnd + size / cols boxDims * (size - 1).
Proof.
  intros Hin Hbd Hwf Hzero.
  destruct (supported_size size Hin) as (bd & Hbd' & Hrows & Hcols & Hbox & Hshape & _).
  rewrite Hbd in Hbd'. injection Hbd' as <-.
  pose proof (seededBoxes_outer size boxDims (getDigits size) Hrows Hcols Hbox Hshape
                (getDigits_length size) rnd (size / cols boxDims) (size / cols boxDims)
                0 g rnd) as Hs.
  simpl in Hs. unfold fillDiagonalBoxes. simpl.
  destruct Hs as (Hwf' & Hd & Hc & Hboxes & Hout); [|done..|].
  { split_and!; [done|done|simpl; lia|intros; lia|]. intros. by apply Hzero. }
  split_and!; [done|done| |done|done].
  intros r c Hr Hcc Hne. apply Hout; [done..|]. by intros [? _].
Qed.

Lemma fillDiagonalBoxes_pattern_witness :
  let g := replicate 6 (replicate 6 0) in
  let g' := (fillDiagonalBoxes g 6 (mkBox 2 3) (getDigits 6) (replay [])).1 in
  let rnd' := (fillDiagonalBoxes g 6 (mkBox 2 3) (getDigits 6) (replay [])).2 in
  wfGrid 6 g' ∧
  (∀ b, b < 6 / cols (mkBox 2 3) → ∃ numbers, numbers ≡ₚ getDigits 6 ∧
     ∀ i j, i < rows (mkBox 2 3) → j < cols (mkBox 2 3) →
       cell g' (b * rows (mkBox 2 3) + i) (b * cols (mkBox 2 3) + j)
       = numbers !! (i * cols (mkBox 2 3) + j)) ∧
  (∀ r c, r < 6 → c < 6 → r / rows (mkBox 2 3) ≠ c / cols (mkBox 2 3) →
     cell g' r c = Some 0) ∧
  draws rnd' = draws (replay []) ∧
  cursor rnd' = cursor (replay []) + 6 / cols (mkBox 2 3) * (6 - 1).
Proof.
  apply (fillDiagonalBoxes_pattern 6 (mkBox 2 3) (replicate 6 (replicate 6 0)) (replay [])).
  - apply (bool_decide_unpack _). vm_compute. exact I.
  - reflexivity.
  - split; [reflexivity|]. apply (bool_decide_unpack _). vm_compute. exact I.
  - intros r c Hr Hc.
    do 6 (destruct r as [|r]; [do 6 (destruct c as [|c]; [reflexivity|]); lia|]). lia.
Defined.

(** ** Box and region indices *)

(** [getBoxIndex] numbers the boxes of the grid from 0 to [size - 1]:
    every cell gets an index below [size], two cells get the same index
    exactly when they lie in the same box, and every index below [size] is
    the index of some box. *)
Theorem getBoxIndex_numbers_boxes size boxDims :
  0 < rows boxDims → 0 < cols boxDims → rows boxDims * cols boxDims = size →
  (∀ r c, r < size → c < size → getBoxIndex r c boxDims size < size) ∧
  (∀ r c r' c', r < size → c < size → r' < size → c' < size →
     (getBoxIndex r c boxDims size = getBoxIndex r' c' boxDims size ↔
      r / rows boxDims = r' / rows boxDims ∧ c / cols boxDims = c' / cols boxDims)) ∧
  (∀ b, b < size → ∃ r c, r < size ∧ c < size ∧ getBoxIndex r c boxDims size = b).
Proof.
  intros Hrows Hcols Hbox. unfold getBoxIndex.
  assert (size / cols boxDims = rows boxDims) as ->
    by (rewrite <-Hbox; apply Nat.div_mul; lia).
  assert (∀ r, r < size → r / rows boxDims < cols boxDims) as Hr.
  { intros r Hlt. apply Nat.Div0.div_lt_upper_bound. lia. }
  assert (∀ c, c < size → c / cols boxDims < rows boxDims) as Hc.
  { intros c Hlt. apply Nat.Div0.div_lt_upper_bound. lia. }
  split_and!.
  - intros r c Hlr Hlc. specialize (Hr r Hlr). specialize (Hc c Hlc). nia.
  - intros r c r' c' Hlr Hlc Hlr' Hlc'. split.
    + intros Heq. apply box_index_inj in Heq; auto.
    + by intros [-> ->].
  - intros b Hb. exists (b / rows boxDims * rows boxDims), (b `mod` rows boxDims * cols boxDims).
    pose proof (Nat.mod_upper_bound b (rows boxDims) ltac:(lia)) as Hm.
    pose proof (Nat.div_mod_eq b (rows boxDims)) as Hdm.
    assert (b / rows boxDims < cols boxDims) by (apply Nat.Div0.div_lt_upper_bound; lia).
    split_and!; [nia|nia|]. rewrite !Nat.div_mul by lia. lia.
Qed.

Lemma getBoxIndex_numbers_boxes_witness :
  (∀ r c, r < 6 → c < 6 → getBoxIndex r c (mkBox 2 3) 6 < 6) ∧
  (∀ r c r' c', r < 6 → c < 6 → r' < 6 → c' < 6 →
     (getBoxIndex r c (mkBox 2 3) 6 = getBoxIndex r' c' (mkBox 2 3) 6 ↔
      r / rows (mkBox 2 3) = r' / rows (mkBox 2 3) ∧
      c / cols (mkBox 2 3) = c' / cols (mkBox 2 3))) ∧
  (∀ b, b < 6 → ∃ r c, r < 6 ∧ c < 6 ∧ getBoxIndex r c (mkBox 2 3) 6 = b).
Proof.
  apply (getBoxIndex_numbers_boxes 6 (mkBox 2 3)); simpl; lia.
Defined.

(** [getSpatialRegion] returns one of the nine region indices 0 to 8 for
    every cell of a grid of any size, so the nine counters that
    [createPuzzle] initialises cover every region; a cell is in region
    [3 * (row / regionSize) + col / regionSize]. *)
Theorem getSpatialRegion_bound size row col :
  row < size → col < size →
  getSpatialRegion row col size < 9 ∧
  getSpatialRegion row col size / 3 = row / ((size + 2) / 3) ∧
  getSpatialRegion row col size `mod` 3 = col / ((size + 2) / 3).
Proof.
  intros Hr Hc. unfold getSpatialRegion.
  set (n := (size + 2) / 3).
  assert (size ≤ 3 * n) as Hn.
  { unfold n. pose proof (Nat.div_mod_eq (size + 2) 3) as Hd.
    pose proof (Nat.mod_upper_bound (size + 2) 3). lia. }
  assert (0 < n) by lia.
  assert (row / n < 3) as Hrow by (apply Nat.Div0.div_lt_upper_bound; lia).
  assert (col / n < 3) as Hcol by (apply Nat.Div0.div_lt_upper_bound; lia).
  split_and!; [lia| |].
  - rewrite Nat.div_add_l by lia. rewrite (Nat.div_small (col / n)) by done. lia.
  - rewrite Nat.add_comm, Nat.Div0.mod_add. by apply Nat.mod_small.
Qed.

Lemma getSpatialRegion_bound_witness :
  getSpatialRegion 3 2 4 < 9 ∧
  getSpatialRegion 3 2 4 / 3 = 3 / ((4 + 2) / 3) ∧
  getSpatialRegion 3 2 4 `mod` 3 = 2 / ((4 + 2) / 3).
Proof. apply (getSpatialRegion_bound 4 3 2); lia. Defined.

(** ** The removal counters *)

Lemma size_filter_add (P : nat * nat → Prop) `{!∀ p, Decision (P p)}
    (x : nat * nat) (X : gset (nat * nat)) :
  x ∉ X →
  base.size (filter P ({[ x ]} ∪ X)) = (if decide (P x) then 1 else 0) + base.size (filter P X).
Proof.
  intros Hx. destruct (decide (P x)) as [HP|HP].
  - assert (filter P ({[ x ]} ∪ X) = {[ x ]} ∪ filter P X) as ->.
    { apply set_eq. intros y.
      rewrite elem_of_filter, !elem_of_union, elem_of_filter, elem_of_singleton.
      naive_solver. }
    rewrite size_union, size_singleton; [done|].
    intros y ->%elem_of_singleton [_ ?]%elem_of_filter. done.
  - assert (filter P ({[ x ]} ∪ X) = filter P X) as ->; [|done].
    apply set_eq. intros y.
    rewrite !elem_of_filter, elem_of_union, elem_of_singleton. naive_solver.
Qed.

Lemma size_filter_empty (P : nat * nat → Prop) `{!∀ p, Decision (P p)} :
  base.size (filter P (∅ : gset (nat * nat))) = 0.
Proof.
  apply size_empty_iff. set_solver.
Qed.

Section counters.
Context (puzzle : GridRef) (size : nat) (boxDims : BoxDimensions).

(** Every counter is the number of removed cells it stands for. *)
Definition counted (st : Removal) : Prop :=
  length (rowRemovalCounts st) = size ∧ length (colRemovalCounts st) = size ∧
  (∀ r, r < size →
     rowRemovalCounts st !! r = Some (base.size (filter (λ p, p.1 = r) (removedCells st)))) ∧
  (∀ c, c < size →
     colRemovalCounts st !! c = Some (base.size (filter (λ p, p.2 = c) (removedCells st)))) ∧
  (∀ b, default 0 (boxRemovalCounts st !! b)
        = base.size (filter (λ p, getBoxIndex p.1 p.2 boxDims size = b) (removedCells st))) ∧
  (∀ s, default 0 (spatialRegionCounts st !! s)
        = base.size (filter (λ p, getSpatialRegion p.1 p.2 size = s) (removedCells st))) ∧
  sum_list (rowRemovalCounts st) = base.size (removedCells st) ∧
  sum_list (colRemovalCounts st) = base.size (removedCells st).

Lemma sum_list_alter_S (l : list nat) i :
  i < length l → sum_list (alter S i l) = S (sum_list l).
Proof.
  revert i. induction l as [|x l IH]; intros i Hi; simpl in *; [lia|].
  destruct i as [|i]; simpl; [done|].
  rewrite <-Nat.add_succ_r. f_equal. apply IH. lia.
Qed.

Lemma lookup_insert_default (m : gmap nat nat) i j v :
  default 0 (<[i := v]> m !! j) = if decide (i = j) then v else default 0 (m !! j).
Proof.
  destruct (decide (i = j)) as [->|].
  - by rewrite lookup_insert_eq.
  - by rewrite lookup_insert_ne.
Qed.

Lemma counted_removeCell st r c :
  r < size → c < size → counted st → counted (removeCell puzzle size boxDims r c st).
Proof.
  intros Hr Hc (Hlr & Hlc & Hrows & Hcols & Hboxes & Hregions & Hsr & Hsc).
  unfold removeCell. case_bool_decide as Hin; [by split_and!|].
  split_and!; simpl.
  - by rewrite length_alter.
  - by rewrite length_alter.
  - intros r' Hr'. rewrite size_filter_add by done. simpl.
    destruct (decide (r = r')) as [<-|Hne].
    + rewrite list_lookup_alter_eq, Hrows by done. done.
    + rewrite list_lookup_alter_ne, Hrows by done. done.
  - intros c' Hc'. rewrite size_filter_add by done. simpl.
    destruct (decide (c = c')) as [<-|Hne].
    + rewrite list_lookup_alter_eq, Hcols by done. done.
    + rewrite list_lookup_alter_ne, Hcols by done. done.
  - intros b. rewrite size_filter_add by done. simpl.
    rewrite lookup_insert_default, <-!Hboxes.
    destruct (decide (getBoxIndex r c boxDims size = b)) as [<-|]; [lia|done].
  - intros s. rewrite size_filter_add by done. simpl.
    rewrite lookup_insert_default, <-!Hregions.
    destruct (decide (getSpatialRegion r c size = s)) as [<-|]; [lia|done].
  - rewrite sum_list_alter_S by lia. rewrite size_union by set_solver.
    rewrite size_singleton. lia.
  - rewrite sum_list_alter_S by lia. rewrite size_union by set_solver.
    rewrite size_singleton. lia.
Qed.

Lemma foldl_insert_zero (l : list nat) : ∀ (m : gmap nat nat) b,
  default 0 (m !! b) = 0 → default 0 (foldl (λ m i, <[i := 0]> m) m l !! b) = 0.
Proof.
  induction l as [|i l IH]; intros m b Hm; [done|].
  simpl. apply IH. rewrite lookup_insert_default. by case_decide.
Qed.

Lemma sum_list_replicate_0 n : sum_list (replicate n 0) = 0.
Proof. induction n; simpl; lia. Qed.

Lemma counted_initial h : counted (initialRemoval h size boxDims).
Proof.
  unfold counted, initialRemoval.
  cbn [rowRemovalCounts colRemovalCounts boxRemovalCounts spatialRegionCounts removedCells].
  rewrite !length_replicate, sum_list_replicate_0, size_empty.
  split_and!; [done|done| | | | |done|done].
  - intros r Hr. rewrite lookup_replicate_2 by done. by rewrite size_filter_empty.
  - intros c Hc. rewrite lookup_replicate_2 by done. by rewrite size_filter_empty.
  - intros b. rewrite size_filter_empty. by apply foldl_insert_zero.
  - intros s. rewrite size_filter_empty. by apply foldl_insert_zero.
Qed.

Lemma counted_reaches st cells st' :
  reaches puzzle size boxDims st cells st' → counted st → counted st'.
Proof.
  apply (reaches_preserves puzzle size boxDims counted).
  intros st0 r c Hr Hc. by apply counted_removeCell.
Qed.
End counters.

(** Every counter that [createPuzzle] keeps is exact, from the start to
    the end of the run: [rowRemovalCounts[r]] is the number of removed
    cells in row [r], and likewise for the columns, the boxes and the
    regions; a call of [removeCell] keeps it so (also the call for a cell
    that is already removed, which changes nothing), and the counts of the
    rows, like those of the columns, add up to the number of removed
    cells. *)
Theorem removal_counters_exact h grid size difficulty rnd :
  size ∈ VALID_SIZES →
  ∃ boxDims, getBoxDimensions size = Ok boxDims ∧
    let puzzle := (copyGrid h grid).1 in
    let st0 := initialRemoval (copyGrid h grid).2 size boxDims in
    counted size boxDims st0 ∧
    (∀ st r c, r < size → c < size → counted size boxDims st →
               counted size boxDims (removeCell puzzle size boxDims r c st)) ∧
    ∃ st, fillQuota puzzle size boxDims (targetCellsToRemove size difficulty)
                    (coverage puzzle size boxDims st0 rnd).1 = Some st ∧
          counted size boxDims st.
Proof.
  intros Hin.
  destruct (createPuzzle_run h grid size difficulty rnd Hin)
    as (bd & copies & st3 & rnd3 & cells0 & st4 & cells1 & Hrun). simpl in Hrun.
  destruct Hrun as (Hbd & Hcopy & _ & _ & Hcov & Hreach0 & _ & _ & _ & _ & Hfill & Hreach1 & _).
  exists bd. split; [done|]. rewrite Hcopy. cbn [fst snd]. rewrite Hcov. cbn [fst].
  split_and!.
  - apply counted_initial.
  - intros st r c Hr Hc. by apply counted_removeCell.
  - exists st4. split; [done|].
    eapply counted_reaches; [done|]. eapply counted_reaches; [done|]. apply counted_initial.
Qed.

Lemma removal_counters_exact_witness :
  let h : Heap := [[2; 3; 1; 4]; [4; 1; 3; 2]; [1; 4; 2; 3]; [3; 2; 4; 1]] in
  ∃ boxDims, getBoxDimensions 4 = Ok boxDims ∧
    let puzzle := (copyGrid h [0; 1; 2; 3]).1 in
    let st0 := initialRemoval (copyGrid h [0; 1; 2; 3]).2 4 boxDims in
    counted 4 boxDims st0 ∧
    (∀ st r c, r < 4 → c < 4 → counted 4 boxDims st →
               counted 4 boxDims (removeCell puzzle 4 boxDims r c st)) ∧
    ∃ st, fillQuota puzzle 4 boxDims (targetCellsToRemove 4 medium)
                    (coverage puzzle 4 boxDims st0 (replay [1; 0; 2])).1 = Some st ∧
          counted 4 boxDims st.
Proof.
  apply (removal_counters_exact
           [[2; 3; 1; 4]; [4; 1; 3; 2]; [1; 4; 2; 3]; [3; 2; 4; 1]] [0; 1; 2; 3] 4 medium
           (replay [1; 0; 2])).
  apply (bool_decide_unpack _). vm_compute. exact I.
Defined.

(** ** The random choices of [createPuzzle] *)

Section drawing.
Context (puzzle : GridRef) (size : nat) (boxDims : BoxDimensions).

(** From [(st, rnd)] to [res], one call of [Math.random] was made per cell
    removed. *)
Definition drawn (st : Removal) (rnd : Rand) (res : Removal * Rand) : Prop :=
  draws res.2 = draws rnd ∧
  cursor res.2 + base.size (removedCells st) = cursor rnd + base.size (removedCells res.1).

Lemma drawn_refl st rnd : drawn st rnd (st, rnd).
Proof. by split. Qed.

Lemma drawn_trans st rnd st1 rnd1 res :
  drawn st rnd (st1, rnd1) → drawn st1 rnd1 res → drawn st rnd res.
Proof. intros [Hd1 Hc1] [Hd2 Hc2]. simpl in *. split; [congruence|lia]. Qed.

Lemma drawn_pick {A} (sorted : list A) (cellOf : A → nat * nat) st rnd :
  0 < length sorted →
  (∀ x, x ∈ sorted → cellOf x ∉ removedCells st) →
  ∃ x, pickTop sorted rnd = (Some x, (pickTop sorted rnd).2) ∧
       drawn st rnd (removeCell puzzle size boxDims (cellOf x).1 (cellOf x).2 st,
                     (pickTop sorted rnd).2).
Proof.
  intros Hlen Hnew. destruct (pickTop_is_Some sorted rnd Hlen) as [x Hx].
  exists x. split; [by rewrite <-Hx; destruct (pickTop sorted rnd)|].
  assert (cellOf x ∉ removedCells st) as Hout.
  { apply Hnew. by eapply elem_of_topOptions, pickTop_elem_of. }
  destruct (cellOf x) as [r c] eqn:Hcell. split; simpl.
  - done.
  - rewrite removedCells_removeCell, size_union by set_solver.
    rewrite size_singleton. lia.
Qed.

Lemma coverRow_drawn row st rnd : drawn st rnd (coverRow puzzle size boxDims row st rnd).
Proof.
  unfold coverRow. case_bool_decide; [|apply drawn_refl].
  destruct (0 <? length _) eqn:Hlen; [|apply drawn_refl]. apply Nat.ltb_lt in Hlen.
  match goal with |- context [pickTop ?s rnd] => set (sorted := s) in * end.
  destruct (drawn_pick sorted (λ x, (row, x.1)) st rnd) as ([col pri] & -> & Hd).
  - unfold sorted. by rewrite jsSort_length.
  - intros [col pri]. unfold sorted. rewrite jsSort_Permutation.
    intros (c & [= -> ->] & Hc%list_elem_of_filter)%list_elem_of_fmap. by destruct Hc.
  - done.
Qed.

Lemma coverCol_drawn col st rnd : drawn st rnd (coverCol puzzle size boxDims col st rnd).
Proof.
  unfold coverCol. case_bool_decide; [|apply drawn_refl].
  destruct (0 <? length _) eqn:Hlen; [|apply drawn_refl]. apply Nat.ltb_lt in Hlen.
  match goal with |- context [pickTop ?s rnd] => set (sorted := s) in * end.
  destruct (drawn_pick sorted (λ x, (x.1, col)) st rnd) as ([row pri] & -> & Hd).
  - unfold sorted. by rewrite jsSort_length.
  - intros [row pri]. unfold sorted. rewrite jsSort_Permutation.
    intros (r & [= -> ->] & Hr%list_elem_of_filter)%list_elem_of_fmap. by destruct Hr.
  - done.
Qed.

Lemma coverBox_drawn boxIdx st rnd :
  drawn st rnd (coverBox puzzle size boxDims boxIdx st rnd).
Proof.
  unfold coverBox. case_bool_decide; [|apply drawn_refl].
  destruct (0 <? length _) eqn:Hlen; [|apply drawn_refl]. apply Nat.ltb_lt in Hlen.
  match goal with |- context [pickTop ?s rnd] => set (sorted := s) in * end.
  destruct (drawn_pick sorted (λ x, x.1) st rnd) as ([[row col] pri] & -> & Hd).
  - unfold sorted. by rewrite jsSort_length.
  - intros [[row col] pri]. unfold sorted. rewrite jsSort_Permutation.
    intros ([r c] & [= -> -> ->] & Hr%list_elem_of_filter)%list_elem_of_fmap.
    by destruct Hr.
  - done.
Qed.

Lemma fold_drawn (step : nat → Removal → Rand → Removal * Rand) (l : list nat) :
  (∀ x st rnd, drawn st rnd (step x st rnd)) →
  ∀ st rnd, drawn st rnd (foldl (λ '(st, rnd) x, step x st rnd) (st, rnd) l).
Proof.
  intros Hstep. induction l as [|x l IH]; intros st rnd; [apply drawn_refl|].
  cbn [foldl]. specialize (Hstep x st rnd).
  destruct (step x st rnd) as [st1 rnd1]. eapply drawn_trans; [done|apply IH].
Qed.

Lemma coverage_drawn st rnd : drawn st rnd (coverage puzzle size boxDims st rnd).
Proof.
  unfold coverage, coverRows, coverCols, coverBoxes.
  pose proof (fold_drawn (coverRow puzzle size boxDims) (seq 0 size) coverRow_drawn st rnd) as H1.
  destruct (foldl _ (st, rnd) (seq 0 size)) as [st1 rnd1].
  pose proof (fold_drawn (coverCol puzzle size boxDims) (seq 0 size) coverCol_drawn st1 rnd1)
    as H2.
  destruct (foldl _ (st1, rnd1) (seq 0 size)) as [st2 rnd2].
  eapply drawn_trans; [done|]. eapply drawn_trans; [done|].
  apply (fold_drawn (coverBox puzzle size boxDims)), coverBox_drawn.
Qed.
End drawing.

(** [createPuzzle] calls [Math.random] exactly once for each cell that the
    coverage passes (steps 1 to 3) remove, which is at most
    [2 * size + (size / cols)^2] times; step 4, which removes the rest,
    makes no call. *)
Theorem createPuzzle_draws h grid size difficulty rnd puzzle h' rnd' :
  size ∈ VALID_SIZES →
  createPuzzle h grid size difficulty rnd = Some (Ok puzzle, h', rnd') →
  ∃ boxDims, getBoxDimensions size = Ok boxDims ∧
    draws rnd' = draws rnd ∧
    cursor rnd' = cursor rnd + coverageRemovals h grid size rnd ∧
    coverageRemovals h grid size rnd
      ≤ 2 * size + size / cols boxDims * (size / cols boxDims).
Proof.
  intros Hin Hcreate.
  destruct (createPuzzle_run h grid size difficulty rnd Hin)
    as (bd & copies & st3 & rnd3 & cells0 & st4 & cells1 & Hrun). simpl in Hrun.
  destruct Hrun as (Hbd & Hcopy & _ & _ & Hcov & Hreach0 & Hlen & _ & _ & _ & _ & _ & _ & Hres).
  rewrite Hres in Hcreate. injection Hcreate as <- <- <-.
  exists bd. split; [done|].
  destruct (coverage_drawn (seq (length h) (length grid)) size bd
              (initialRemoval (h ++ copies) size bd) rnd) as [Hd Hc].
  rewrite Hcov in Hd, Hc. unfold initialRemoval in Hc.
  cbn [removedCells fst snd] in Hd, Hc. rewrite size_empty in Hc.
  assert (coverageRemovals h grid size rnd = base.size (removedCells st3)) as ->.
  { unfold coverageRemovals. by rewrite Hbd, Hcopy, Hcov. }
  split_and!; [done|lia|].
  rewrite (reaches_size _ _ _ _ _ _ Hreach0). unfold initialRemoval.
  cbn [removedCells]. rewrite size_empty. lia.
Qed.

Lemma createPuzzle_draws_witness :
  let h : Heap := [[2; 3; 1; 4]; [4; 1; 3; 2]; [1; 4; 2; 3]; [3; 2; 4; 1]] in
  let rnd := replay [1; 0; 2] in
  ∃ boxDims, getBoxDimensions 4 = Ok boxDims ∧
    draws (mkRand (draws rnd) 5) = draws rnd ∧
    cursor (mkRand (draws rnd) 5) = cursor rnd + coverageRemovals h [0; 1; 2; 3] 4 rnd ∧
    coverageRemovals h [0; 1; 2; 3] 4 rnd ≤ 2 * 4 + 4 / cols boxDims * (4 / cols boxDims).
Proof.
  apply (createPuzzle_draws
           [[2; 3; 1; 4]; [4; 1; 3; 2]; [1; 4; 2; 3]; [3; 2; 4; 1]] [0; 1; 2; 3] 4 medium
           (replay [1; 0; 2]) [4; 5; 6; 7]
           ([[2; 3; 1; 4]; [4; 1; 3; 2]; [1; 4; 2; 3]; [3; 2; 4; 1]] ++
            [[0; 0; 1; 4]; [0; 1; 0; 0]; [0; 0; 2; 3]; [0; 2; 4; 0]])
           (mkRand (draws (replay [1; 0; 2])) 5)).
  - apply (bool_decide_unpack _). vm_compute. exact I.
  - vm_compute. reflexivity.
Defined.

(** ** The boxes that step 3 looks at *)

Section box_pass.
Context (puzzle : GridRef) (size : nat) (boxDims : BoxDimensions).
Hypothesis size_pos : 0 < size.
Hypothesis rows_pos : 0 < rows boxDims.
Hypothesis cols_pos : 0 < cols boxDims.
Hypothesis box_cells : rows boxDims * cols boxDims = size.
Hypothesis box_shape : rows boxDims ≤ cols boxDims.

Lemma coverBox_range boxIdx st rnd p :
  boxIdx < size / cols boxDims * (size / cols boxDims) →
  p ∈ removedCells (coverBox puzzle size boxDims boxIdx st rnd).1 →
  p ∈ removedCells st ∨ getBoxIndex p.1 p.2 boxDims size = boxIdx.
Proof.
  intros Hidx. unfold coverBox. case_bool_decide; [|by left].
  destruct (0 <? length _) eqn:Hlen; [|by left].
  match goal with |- context [pickTop ?s rnd] => set (sorted := s) in * end.
  destruct (pickTop sorted rnd) as [[[[row col] pri]|] rnd1] eqn:Hpick; [|by left].
  cbn [fst]. rewrite removedCells_removeCell.
  intros [->%elem_of_singleton|Hin]%elem_of_union; [|by left]. right.
  assert ((row, col, pri) ∈ sorted) as Hs.
  { eapply elem_of_topOptions, pickTop_elem_of. by rewrite Hpick. }
  unfold sorted in Hs. rewrite jsSort_Permutation in Hs.
  apply list_elem_of_fmap in Hs as ([r c] & [= -> -> ->] & [_ Hc]%list_elem_of_filter).
  by destruct (coverBox_cells size boxDims size_pos rows_pos cols_pos box_cells box_shape
                 boxIdx (r, c) Hidx Hc) as (_ & _ & ?).
Qed.

Lemma coverBoxes_range_fold (l : list nat) : ∀ st rnd p,
  (∀ b, b ∈ l → b < size / cols boxDims * (size / cols boxDims)) →
  p ∈ removedCells (foldl (λ '(st, rnd) boxIdx, coverBox puzzle size boxDims boxIdx st rnd)
                          (st, rnd) l).1 →
  p ∈ removedCells st ∨
  getBoxIndex p.1 p.2 boxDims size < size / cols boxDims * (size / cols boxDims).
Proof.
  induction l as [|b l IH]; intros st rnd p Hl; [by left|].
  cbn [foldl]. destruct (coverBox puzzle size boxDims b st rnd) as [st1 rnd1] eqn:Hb.
  intros Hp. destruct (IH st1 rnd1 p) as [Hin|Hlt]; [set_solver|done| |by right].
  destruct (coverBox_range b st rnd p) as [?|Heq]; [set_solver|by rewrite Hb|by left|].
  right. rewrite Heq. set_solver.
Qed.
End box_pass.

(** Step 3 of [createPuzzle], the pass that is to give every box an empty
    cell, only removes cells of the boxes with an index below
    [(size / cols)^2].  Where the boxes are not square there are more
    boxes than that: at size 6 the pass never touches the boxes 4 and 5
    (the rows 4 and 5 of the grid). *)
Theorem coverBoxes_range puzzle size boxDims st rnd p :
  size ∈ VALID_SIZES → getBoxDimensions size = Ok boxDims →
  p ∈ removedCells (coverBoxes puzzle size boxDims st rnd).1 →
  (p ∈ removedCells st ∨
   getBoxIndex p.1 p.2 boxDims size < size / cols boxDims * (size / cols boxDims)) ∧
  (size = 6 → size / cols boxDims * (size / cols boxDims) = 4 ∧
              (p ∉ removedCells st → p.1 < 4)).
Proof.
  intros Hin Hbd Hp.
  destruct (supported_size size Hin) as (bd & Hbd' & Hrows & Hcols & Hbox & Hshape & _).
  rewrite Hbd in Hbd'. injection Hbd' as <-.
  assert (0 < size) as Hpos by nia.
  assert (p ∈ removedCells st ∨
          getBoxIndex p.1 p.2 boxDims size < size / cols boxDims * (size / cols boxDims))
    as Hrange.
  { apply (coverBoxes_range_fold puzzle size boxDims Hpos Hrows Hcols Hbox Hshape
             (seq 0 (size / cols boxDims * (size / cols boxDims))) st rnd p); [|done].
    intros b Hb%elem_of_seq. lia. }
  split; [done|]. intros ->. injection Hbd as <-. split; [done|].
  intros Hout. destruct Hrange as [?|Hlt]; [done|].
  unfold getBoxIndex in Hlt. cbn [rows cols] in Hlt.
  change (6 / 3) with 2 in Hlt.
  destruct (decide (p.1 < 4)) as [|Hge]; [done|].
  assert (2 ≤ p.1 / 2) by (apply Nat.div_le_lower_bound; lia). lia.
Qed.

Lemma coverBoxes_range_witness :
  let st := initialRemoval [] 6 (mkBox 2 3) in
  let p := (0, 0) in
  (p ∈ removedCells st ∨
   getBoxIndex p.1 p.2 (mkBox 2 3) 6 < 6 / cols (mkBox 2 3) * (6 / cols (mkBox 2 3))) ∧
  (6 = 6 → 6 / cols (mkBox 2 3) * (6 / cols (mkBox 2 3)) = 4 ∧
           (p ∉ removedCells st → p.1 < 4)).
Proof.
  apply (coverBoxes_range [] 6 (mkBox 2 3) (initialRemoval [] 6 (mkBox 2 3)) (replay [])
           (0, 0)).
  - apply (bool_decide_unpack _). vm_compute. exact I.
  - reflexivity.
  - apply (bool_decide_unpack _). vm_compute. exact I.
Defined.

(** ** The puzzle and its solution *)

(** The puzzle that [createPuzzle] makes of a complete grid: a grid of the
    same shape of which the complete grid is a completion. *)
Lemma puzzle_completion h grid size boxDims difficulty rnd puzzle h' rnd' :
  size ∈ VALID_SIZES → getBoxDimensions size = Ok boxDims →
  Forall (λ l, l < length h) grid → solved size boxDims (gridAt h grid) →
  createPuzzle h grid size difficulty rnd = Some (Ok puzzle, h', rnd') →
  wfGrid size (gridAt h' puzzle) ∧
  consistent size boxDims (gridAt h' puzzle) ∧
  valuesIn (getDigits size) (gridAt h' puzzle) ∧
  completion size boxDims (getDigits size) (gridAt h' puzzle) (gridAt h grid).
Proof.
  intros Hin Hbd Hvalid (Hwf & Hcons & Hvals & Hcomp) Hcreate.
  destruct (createPuzzle_result h grid size difficulty rnd _ _ _ Hin Hcreate)
    as (bd & copies & st3 & st4 & rows' & Hr). simpl in Hr.
  destruct Hr as (_ & _ & Hcopies & _ & _ & _ & _ & _ & _ & _ & _ & _ & _ & Hlen & Hgrid & Hcells).
  specialize (Hcopies Hvalid). subst copies. rewrite Hgrid.
  assert (∀ r c v, cell rows' r c = Some v → v ≠ 0 → cell (gridAt h grid) r c = Some v)
    as Hsub.
  { intros r c v. rewrite Hcells. case_decide; [by intros [= <-]|done]. }
  assert (∀ r c, is_Some (cell rows' r c) ↔ is_Some (cell (gridAt h grid) r c)) as Hsome.
  { intros r c. rewrite Hcells. case_decide as Hd; [|done]. destruct Hd. split; eauto. }
  assert (wfGrid size rows') as Hwf'.
  { destruct Hwf as [Hl Hrows]. split.
    - rewrite Hlen. unfold gridAt in Hl. by rewrite length_fmap in Hl.
    - apply Forall_lookup. intros r row Hrow.
      assert (∀ c, is_Some (row !! c) ↔ c < size) as Hrc.
      { intros c. specialize (Hsome r c). unfold cell in Hsome at 1.
        rewrite Hrow in Hsome. simpl in Hsome. rewrite Hsome. split.
        - intros [v Hv]. by eapply (cell_lt size (gridAt h grid)).
        - intros Hc. apply (cell_is_Some size); [done| |done].
          apply lookup_lt_Some in Hrow. rewrite Hlen in Hrow.
          unfold gridAt in Hl. rewrite length_fmap in Hl. lia. }
      apply Nat.le_antisymm.
      + destruct (decide (length row ≤ size)) as [|Hgt]; [done|].
        assert (is_Some (row !! size)) as Hs by (apply lookup_lt_is_Some; lia).
        apply Hrc in Hs. lia.
      + destruct (decide (size ≤ length row)) as [|Hlt]; [done|].
        assert (is_Some (row !! length row)) as Hs by (apply Hrc; lia).
        apply lookup_lt_is_Some in Hs. lia. }
  split_and!; [done| | |split_and!; [done..|]].
  - intros r1 c1 r2 c2 v Hr1 Hc1 Hr2 Hc2 Hne Hp Hv1 Hv0 Hv2.
    by apply (Hcons r1 c1 r2 c2 v); auto.
  - intros r c v Hv. destruct (decide (v = 0)) as [|Hv0]; [by left|].
    apply (Hvals r c). by apply Hsub.
  - intros r c v. apply Hsub.
Qed.

(** Every puzzle can be solved: on the puzzle that [createPuzzle] makes of
    a complete grid, [solveSudoku] succeeds, whatever its random choices,
    and fills the empty cells without changing a given digit.  (The grid it
    finds need not be the complete grid the puzzle was made from: nothing in
    [createPuzzle] makes the completion unique.) *)
Theorem puzzle_is_solvable h grid size boxDims difficulty rnd puzzle h' rnd' rnd2 :
  size ∈ VALID_SIZES → getBoxDimensions size = Ok boxDims →
  Forall (λ l, l < length h) grid → solved size boxDims (gridAt h grid) →
  createPuzzle h grid size difficulty rnd = Some (Ok puzzle, h', rnd') →
  completion size boxDims (getDigits size) (gridAt h' puzzle) (gridAt h grid) ∧
  ∃ g' rnd3,
    solveSudoku (gridAt h' puzzle) size boxDims (getDigits size) rnd2 = Some (true, g', rnd3) ∧
    completion size boxDims (getDigits size) (gridAt h' puzzle) g'.
Proof.
  intros Hin Hbd Hvalid Hsolved Hcreate.
  destruct (puzzle_completion h grid size boxDims difficulty rnd puzzle h' rnd')
    as (Hwf & Hcons & Hvals & Hcompl); [done..|].
  split; [done|].
  destruct (supported_size size Hin) as (bd & Hbd' & Hrows & Hcols & Hbox & _ & Hsmall).
  rewrite Hbd in Hbd'. injection Hbd' as <-.
  destruct (solveSudoku_outcome size boxDims (getDigits size) (gridAt h' puzzle) rnd2)
    as (b & g' & rnd3 & Hs & Hiff & Hres);
    [done|done|done|by rewrite getDigits_length|done|done|done|].
  assert (b = true) as -> by (apply Hiff; eauto).
  by exists g', rnd3.
Qed.

Lemma puzzle_is_solvable_witness :
  let h : Heap := [[2; 3; 1; 4]; [4; 1; 3; 2]; [1; 4; 2; 3]; [3; 2; 4; 1]] in
  let h' : Heap := h ++ [[0; 0; 1; 4]; [0; 1; 0; 0]; [0; 0; 2; 3]; [0; 2; 4; 0]] in
  completion 4 (mkBox 2 2) (getDigits 4) (gridAt h' [4; 5; 6; 7]) (gridAt h [0; 1; 2; 3]) ∧
  ∃ g' rnd3,
    solveSudoku (gridAt h' [4; 5; 6; 7]) 4 (mkBox 2 2) (getDigits 4) (replay [])
      = Some (true, g', rnd3) ∧
    completion 4 (mkBox 2 2) (getDigits 4) (gridAt h' [4; 5; 6; 7]) g'.
Proof.
  apply (puzzle_is_solvable
           [[2; 3; 1; 4]; [4; 1; 3; 2]; [1; 4; 2; 3]; [3; 2; 4; 1]] [0; 1; 2; 3] 4 (mkBox 2 2)
           medium (replay [1; 0; 2]) [4; 5; 6; 7] _ (mkRand (draws (replay [1; 0; 2])) 5)).
  - apply (bool_decide_unpack _). vm_compute. exact I.
  - reflexivity.
  - apply (bool_decide_unpack _). vm_compute. exact I.
  - split_and!.
    + split; [reflexivity|]. apply (bool_decide_unpack _). vm_compute. exact I.
    + apply consistentb_spec. vm_compute. reflexivity.
    + apply valuesInb_spec. vm_compute. reflexivity.
    + intros r c Hr Hc.
      do 4 (destruct r as [|r]; [do 4 (destruct c as [|c]; [discriminate|]); lia|]). lia.
  - vm_compute. reflexivity.
Defined.

(** ** From the click to the page *)

Lemma generateSudoku_solved size rnd g rnd' :
  size ∈ VALID_SIZES → generateSudoku size rnd = Some (Ok g, rnd') →
  ∃ boxDims, getBoxDimensions size = Ok boxDims ∧ solved size boxDims g.
Proof.
  intros Hin Hgen.
  destruct (supported_size size Hin) as (bd & Hbd & Hr & Hc & Hrc & Hle & Hsmall).
  exists bd. split; [done|].
  rewrite (generateSudoku_unfold size bd) in Hgen by done.
  destruct (attemptLoop_outcome size bd Hr Hc Hrc Hle Hsmall maxAttempts _ rnd
              (wfGrid_initial size))
    as [(k & g' & rnd1 & _ & _ & Hl & Hs)|[_ [rnd1 Hl]]];
    rewrite Hl in Hgen; [|done].
  by injection Hgen as -> ->.
Qed.

Lemma generateSudoku_throws size rnd e rnd' :
  size ∈ VALID_SIZES → generateSudoku size rnd = Some (Throw e, rnd') →
  e = GenerationFailure.
Proof.
  intros Hin Hgen.
  destruct (supported_size size Hin) as (bd & Hbd & Hr & Hc & Hrc & Hle & Hsmall).
  rewrite (generateSudoku_unfold size bd) in Hgen by done.
  destruct (attemptLoop_outcome size bd Hr Hc Hrc Hle Hsmall maxAttempts _ rnd
              (wfGrid_initial size))
    as [(k & g' & rnd1 & _ & _ & Hl & Hs)|[_ [rnd1 Hl]]];
    rewrite Hl in Hgen; [done|]. by injection Hgen as <- _.
Qed.

(** The rows of a grid of positive size are allocated. *)
Lemma wfGrid_allocated size h (grid : GridRef) :
  0 < size → wfGrid size (gridAt h grid) → Forall (λ l, l < length h) grid.
Proof.
  intros Hpos [_ Hrows]. apply Forall_lookup. intros i l Hl.
  rewrite Forall_lookup in Hrows.
  specialize (Hrows i (default [] (h !! l))).
  unfold gridAt in Hrows. rewrite list_lookup_fmap, Hl in Hrows. specialize (Hrows eq_refl).
  destruct (h !! l) as [row|] eqn:Hrow; [by eapply lookup_lt_Some|]. simpl in Hrows. lia.
Qed.

(** The grids that the handler passes to [generatePrintablePage]: the
    answer grid is, at the time of the call, a complete grid with each
    digit once in every row, column and box, and the puzzle has, in every
    cell, 0 or the digit of the answer grid. *)
Definition pageArguments (size : nat) (w : Store.World) (puzzle completeGrid : GridRef)
    : Prop :=
  ∃ boxDims, getBoxDimensions size = Ok boxDims ∧
    validSolution size boxDims (gridAt (Store.store w) completeGrid) ∧
    completion size boxDims (getDigits size)
      (gridAt (Store.store w) puzzle) (gridAt (Store.store w) completeGrid).

(** For each size of the page's buttons, every difficulty and every
    [generatePrintablePage], a click on the button ends in one of three
    ways.  [generateSudoku] threw after five failed passes, and the alert
    is shown without a call of [generatePrintablePage].  Or
    [generatePrintablePage] is called, once, with a valid answer grid and a
    puzzle made of it (making the puzzle did not change the answer), and
    either it returns, or it throws and the alert is shown.  So the alert
    is shown exactly when [generateSudoku] or [generatePrintablePage]
    throws: [createPuzzle] never throws here. *)
Theorem handleGenerate_outcome {Exn : Type}
    (page : GridRef → GridRef → nat → Difficulty → Store.World → option Exn)
    size difficulty w rnd :
  size ∈ App.validSizes → cacheOK w →
  ∃ out w' rnd', App.handleGenerate page size difficulty w rnd = Some (out, w', rnd') ∧
    cacheOK w' ∧
    match out with
    | App.Alerted e =>
        e = GenerationFailure ∧ ∃ rnd1, generateSudoku size rnd = Some (Throw e, rnd1)
    | App.Printed puzzle completeGrid =>
        (∃ g rnd1, generateSudoku size rnd = Some (Ok g, rnd1)) ∧
        pageArguments size w' puzzle completeGrid ∧
        page puzzle completeGrid size difficulty w' = None
    | App.AlertedByPage puzzle completeGrid e =>
        (∃ g rnd1, generateSudoku size rnd = Some (Ok g, rnd1)) ∧
        pageArguments size w' puzzle completeGrid ∧
        page puzzle completeGrid size difficulty w' = Some e
    end.
Proof.
  intros Hin Hc. change (size ∈ VALID_SIZES) in Hin. unfold App.handleGenerate.
  destruct (generateSudoku_store size w rnd Hc)
    as (res & rnd1 & res' & w1 & Hgen & -> & Hres & _ & _ & Hc1).
  destruct res as [g|e].
  2:{ subst res'. exists (App.Alerted e), w1, rnd1. split_and!; [done|done| |by eauto].
      by eapply generateSudoku_throws. }
  destruct Hres as (grid & -> & Hg).
  destruct (generateSudoku_solved size rnd g rnd1 Hin Hgen) as (bd & Hbd & Hsolved).
  destruct (supported_size size Hin) as (bd' & Hbd' & Hrows & Hcols & Hbox & _).
  rewrite Hbd in Hbd'. injection Hbd' as <-.
  assert (Forall (λ l, l < length (Store.store w1)) grid) as Hvalid.
  { apply (wfGrid_allocated size); [nia|]. rewrite Hg. by destruct Hsolved. }
  unfold Store.createPuzzle.
  destruct (createPuzzle_run (Store.store w1) grid size difficulty rnd1 Hin)
    as (? & ? & ? & rnd2 & ? & st4 & ? & Hrun). simpl in Hrun.
  destruct Hrun as (_ & _ & _ & _ & _ & _ & _ & _ & _ & _ & _ & _ & _ & Hcreate).
  rewrite Hcreate.
  destruct (createPuzzle_extends _ _ _ _ _ _ _ _ Hcreate) as [rows' Hext].
  set (puzzle := seq (length (Store.store w1)) (length grid)) in *.
  set (w2 := Store.mkWorld (heap st4) (Store.digitsCache w1)).
  assert (gridAt (heap st4) grid = g) as Hsame.
  { rewrite Hext, gridAt_app; done. }
  assert (cacheOK w2) as Hc2.
  { intros n l Hl. cbn [w2 Store.store Store.digitsCache] in *. rewrite Hext.
    apply lookup_app_l_Some. by apply Hc1. }
  assert (pageArguments size w2 puzzle grid) as Hargs.
  { exists bd. split; [done|]. cbn [w2 Store.store]. rewrite Hsame. split.
    - by apply solved_validSolution.
    - rewrite <-Hg in Hsolved |- *.
      by destruct (puzzle_completion _ _ _ _ _ _ _ _ _ Hin Hbd Hvalid Hsolved Hcreate)
        as (_ & _ & _ & ?). }
  fold w2. destruct (page puzzle grid size difficulty w2) as [e|] eqn:Hpage.
  - exists (App.AlertedByPage puzzle grid e), w2, rnd2. split_and!; [done|done|by eauto|done..].
  - exists (App.Printed puzzle grid), w2, rnd2. split_and!; [done|done|by eauto|done..].
Qed.

Lemma handleGenerate_outcome_witness :
  let page : GridRef → GridRef → nat → Difficulty → Store.World → option unit :=
    λ _ _ _ _ _, Some () in
  ∃ out w' rnd',
    App.handleGenerate page 4 medium (Store.mkWorld [] ∅) (replay [1; 2; 0; 1; 1; 3])
      = Some (out, w', rnd') ∧
    cacheOK w' ∧
    match out with
    | App.Alerted e =>
        e = GenerationFailure ∧
        ∃ rnd1, generateSudoku 4 (replay [1; 2; 0; 1; 1; 3]) = Some (Throw e, rnd1)
    | App.Printed puzzle completeGrid =>
        (∃ g rnd1, generateSudoku 4 (replay [1; 2; 0; 1; 1; 3]) = Some (Ok g, rnd1)) ∧
        pageArguments 4 w' puzzle completeGrid ∧
        page puzzle completeGrid 4 medium w' = None
    | App.AlertedByPage puzzle completeGrid e =>
        (∃ g rnd1, generateSudoku 4 (replay [1; 2; 0; 1; 1; 3]) = Some (Ok g, rnd1)) ∧
        pageArguments 4 w' puzzle completeGrid ∧
        page puzzle completeGrid 4 medium w' = Some e
    end.
Proof.
  apply (handleGenerate_outcome (λ _ _ _ _ _, Some ()) 4 medium (Store.mkWorld [] ∅)
           (replay [1; 2; 0; 1; 1; 3])).
  - apply (bool_decide_unpack _). vm_compute. exact I.
  - intros size digits Hcached. simpl in Hcached. discriminate Hcached.
Defined.

(** ** The validity oracle, as the rule of the game *)

(** [isValid(grid, row, col, num)] is the rule of Sudoku for the cell:
    it returns [true] exactly when no cell of the grid in the same row, the
    same column or the same box holds [num], the cell [(row, col)] itself
    included. *)
Theorem isValid_iff_no_peer size boxDims g row col num :
  0 < rows boxDims → 0 < cols boxDims → rows boxDims * cols boxDims = size →
  row < size → col < size →
  (isValid g row col num size boxDims = true ↔
   ∀ r c, r < size → c < size → peers boxDims row col r c → cell g r c ≠ Some num).
Proof.
  intros Hrows Hcols Hbox Hr Hc. split.
  - intros Hv r c Hr' Hc'. by apply (isValid_peers size boxDims Hrows Hcols g row col num).
  - intros Hpeers.
    assert (∀ k n, 0 < n → k < size → n * (size / n) = size →
                   ∀ i, k / n * n ≤ i < k / n * n + n → i < size) as Hin.
    { intros k n Hn Hk Hdiv i Hi.
      assert (k / n < size / n) by (apply Nat.Div0.div_lt_upper_bound; lia). nia. }
    apply isValid_spec. split_and!.
    + intros j Hj. apply Hpeers; [done..|]. by left.
    + intros i Hi. apply Hpeers; [done..|]. right. by left.
    + intros i j Hi Hj. apply Hpeers.
      * apply (Hin row (rows boxDims)); [done..| |done].
        symmetry. apply Nat.Div0.div_exact. rewrite <-Hbox, Nat.mul_comm.
        apply Nat.Div0.mod_mul.
      * apply (Hin col (cols boxDims)); [done..| |done].
        symmetry. apply Nat.Div0.div_exact. rewrite <-Hbox.
        apply Nat.Div0.mod_mul.
      * right. right. split; symmetry; by apply box_range.
Qed.

Lemma isValid_iff_no_peer_witness :
  let g := [[1; 2; 0; 0]; [3; 4; 0; 0]; [0; 0; 3; 1]; [0; 0; 4; 2]] in
  isValid g 0 2 3 4 (mkBox 2 2) = true ↔
  ∀ r c, r < 4 → c < 4 → peers (mkBox 2 2) 0 2 r c → cell g r c ≠ Some 3.
Proof.
  apply (isValid_iff_no_peer 4 (mkBox 2 2)
           [[1; 2; 0; 0]; [3; 4; 0; 0]; [0; 0; 3; 1]; [0; 0; 4; 2]] 0 2 3); simpl; lia.
Defined.

(** ** Rows and columns left empty *)

(** The cells of row [row] and of column [col] are all removed at the end
    of the run in which every random pick takes the first option. *)
Definition emptied (size : nat) (boxDims : BoxDimensions) (difficulty : Difficulty)
    (h : Heap) (puzzle : GridRef) (row col : nat) : bool :=
  match fillQuota puzzle size boxDims (targetCellsToRemove size difficulty)
          (coverage puzzle size boxDims (initialRemoval h size boxDims) (replay [])).1 with
  | Some st =>
      forallb (λ c, bool_decide ((row, c) ∈ removedCells st)) (seq 0 size)
      && forallb (λ r, bool_decide ((r, col) ∈ removedCells st)) (seq 0 size)
  | None => false
  end.

Lemma emptied_9 h puzzle difficulty :
  difficulty ≠ easy → emptied 9 (mkBox 3 3) difficulty h puzzle 0 3 = true.
Proof. intros Hd. destruct difficulty; [done|..]; vm_compute; reflexivity. Qed.

(** The removals are not always spread evenly.  At size 9, at every
    difficulty but the easiest, and for every grid: when each random pick
    of the coverage passes takes the first of its options, [createPuzzle]
    returns a puzzle that has no digit left in row 0 and no digit left in
    column 3. *)
Theorem createPuzzle_can_empty_a_row_and_a_column h grid difficulty :
  storedGrid 9 h grid → difficulty ≠ easy →
  ∃ puzzle h' rnd',
    createPuzzle h grid 9 difficulty (replay []) = Some (Ok puzzle, h', rnd') ∧
    (∀ c, c < 9 → cell (gridAt h' puzzle) 0 c = Some 0) ∧
    (∀ r, r < 9 → cell (gridAt h' puzzle) r 3 = Some 0).
Proof.
  intros [Hvalid Hwf] Hd.
  assert (9 ∈ VALID_SIZES) as Hin by (apply (bool_decide_unpack _); vm_compute; exact I).
  destruct (createPuzzle_run h grid 9 difficulty (replay []) Hin)
    as (? & ? & ? & rnd' & ? & st & ? & Hrun). simpl in Hrun.
  destruct Hrun as (_ & _ & _ & _ & _ & _ & _ & _ & _ & _ & _ & _ & _ & Hcreate).
  exists (seq (length h) (length grid)), (heap st), rnd'. split; [done|].
  set (puzzle := seq (length h) (length grid)) in *. set (h' := heap st) in *.
  clearbody puzzle h'.
  destruct (createPuzzle_result h grid 9 difficulty (replay []) _ _ _ Hin Hcreate)
    as (bd & copies & st3 & st4 & rows' & Hr). simpl in Hr.
  destruct Hr as (Hbd & Hpuzzle & Hcopies & Hst3 & _ & _ & Hfill & _ & _ & _ & _ & _ & _ & _
                  & Hgrid & Hcells).
  injection Hbd as <-. specialize (Hcopies Hvalid). subst copies st3.
  pose proof (emptied_9 (h ++ gridAt h grid) puzzle difficulty Hd) as He.
  unfold emptied in He. rewrite Hfill in He.
  apply andb_true_iff in He as [Hrow Hcol]. rewrite forallb_forall in Hrow, Hcol.
  rewrite Hgrid. split.
  - intros c Hc. rewrite Hcells, decide_True; [done|]. split.
    + apply (bool_decide_eq_true_1 _), Hrow, list_elem_of_In, elem_of_seq. lia.
    + apply (cell_is_Some 9); [done|lia|done].
  - intros r Hr. rewrite Hcells, decide_True; [done|]. split.
    + apply (bool_decide_eq_true_1 _), Hcol, list_elem_of_In, elem_of_seq. lia.
    + apply (cell_is_Some 9); [done|done|lia].
Qed.

Lemma createPuzzle_can_empty_a_row_and_a_column_witness :
  let h : Heap :=
    [[2; 3; 4; 6; 5; 8; 7; 1; 9]; [5; 6; 7; 1; 2; 9; 4; 8; 3]; [8; 9; 1; 7; 4; 3; 6; 5; 2];
     [6; 1; 8; 2; 3; 4; 9; 7; 5]; [9; 4; 3; 5; 6; 7; 1; 2; 8]; [7; 5; 2; 8; 9; 1; 3; 4; 6];
     [1; 7; 6; 9; 8; 5; 2; 3; 4]; [4; 8; 9; 3; 1; 2; 5; 6; 7]; [3; 2; 5; 4; 7; 6; 8; 9; 1]] in
  ∃ puzzle h' rnd',
    createPuzzle h (seq 0 9) 9 medium (replay []) = Some (Ok puzzle, h', rnd') ∧
    (∀ c, c < 9 → cell (gridAt h' puzzle) 0 c = Some 0) ∧
    (∀ r, r < 9 → cell (gridAt h' puzzle) r 3 = Some 0).
Proof.
  apply (createPuzzle_can_empty_a_row_and_a_column
           [[2; 3; 4; 6; 5; 8; 7; 1; 9]; [5; 6; 7; 1; 2; 9; 4; 8; 3];
            [8; 9; 1; 7; 4; 3; 6; 5; 2]; [6; 1; 8; 2; 3; 4; 9; 7; 5];
            [9; 4; 3; 5; 6; 7; 1; 2; 8]; [7; 5; 2; 8; 9; 1; 3; 4; 6];
            [1; 7; 6; 9; 8; 5; 2; 3; 4]; [4; 8; 9; 3; 1; 2; 5; 6; 7];
            [3; 2; 5; 4; 7; 6; 8; 9; 1]] (seq 0 9) medium).
  - split; [apply (bool_decide_unpack _); vm_compute; exact I|].
    split; [reflexivity|]. apply (bool_decide_unpack _). vm_compute. exact I.
  - discriminate.
Defined.

(** ** The earlier generator *)

Section earlier_search.
Context (size : nat) (boxDims : BoxDimensions).
Hypothesis rows_pos : 0 < rows boxDims.
Hypothesis cols_pos : 0 < cols boxDims.
Hypothesis box_cells : rows boxDims * cols boxDims = size.

Abbreviation digitsOf := (getDigits size).

Lemma firstEmpty_Some g row col :
  Earlier.firstEmpty g size = Some (row, col) →
  row < size ∧ col < size ∧ cell g row col = Some 0.
Proof.
  unfold Earlier.firstEmpty. destruct (list_find _ _) as [[i p]|] eqn:Hf; [|done].
  intros [= ->]. apply list_find_Some in Hf as (Hin & H0 & _).
  apply list_elem_of_lookup_2, elem_of_scanOrder in Hin. by destruct Hin.
Qed.

Lemma firstEmpty_None g : Earlier.firstEmpty g size = None → complete size g.
Proof.
  unfold Earlier.firstEmpty. destruct (list_find _ _) as [[i p]|] eqn:Hf; [done|].
  intros _ r c Hr Hc H0. apply list_find_None in Hf. rewrite Forall_forall in Hf.
  apply (Hf (r, c)); [by apply elem_of_scanOrder|done].
Qed.

(** What a call of the earlier [solveSudoku] leaves. *)
Definition earlierOutcome (g : Grid) (res : bool * Grid * Rand) : Prop :=
  let '(b, g', _) := res in
  if b then
    extends g g' ∧
    (consistent size boxDims g → valuesIn digitsOf g →
     wfGrid size g' ∧ consistent size boxDims g' ∧ valuesIn digitsOf g' ∧ complete size g')
  else g' = g.

Lemma tryNumbers_outcome solve row col numbers : ∀ g rnd res,
  (∀ g rnd res, wfGrid size g → solve g rnd = Some res → earlierOutcome g res) →
  wfGrid size g → row < size → col < size → cell g row col = Some 0 →
  (∀ num, num ∈ numbers → num ∈ digitsOf) →
  Earlier.tryNumbers solve size boxDims row col numbers g rnd = Some res →
  earlierOutcome g res.
Proof.
  induction numbers as [|num numbers IH]; intros g rnd res Hsolve Hwf Hr Hc H0 Hnum.
  - by intros [= <-].
  - cbn [Earlier.tryNumbers].
    assert (∀ n, n ∈ numbers → n ∈ digitsOf) as Hnum' by (intros; apply Hnum; set_solver).
    destruct (isValid g row col num size boxDims) eqn:Hv; [|by apply IH].
    destruct (solve (setCell g row col num) rnd) as [[[b g1] rnd1]|] eqn:Hs; [|done].
    pose proof (Hsolve _ _ _ (wfGrid_setCell _ _ _ _ _ Hwf) Hs) as Hout.
    destruct b.
    + intros [= <-]. destruct Hout as [Hext Hrest]. split.
      * eapply extends_trans; [by apply extends_setCell|done].
      * intros Hcons Hvals. apply Hrest.
        -- by apply consistent_setCell.
        -- apply valuesIn_setCell; [done|]. right. apply Hnum. set_solver.
    + simpl in Hout. subst g1. rewrite (setCell_restore size) by done. by apply IH.
Qed.

Lemma earlier_outcome fuel : ∀ g rnd res,
  wfGrid size g →
  Earlier.solveSudokuFuel fuel size boxDims g rnd = Some res → earlierOutcome g res.
Proof.
  induction fuel as [|fuel IH]; intros g rnd res Hwf; [done|].
  cbn [Earlier.solveSudokuFuel].
  destruct (Earlier.firstEmpty g size) as [[row col]|] eqn:Hf.
  - apply firstEmpty_Some in Hf as (Hr & Hc & H0).
    destruct (shuffleArray _ rnd) as [numbers rnd1] eqn:Hsh.
    apply tryNumbers_outcome; [done..|].
    intros num Hn. replace numbers with (shuffleArray digitsOf rnd).1 in Hn
      by (unfold getDigits; by rewrite Hsh).
    by rewrite shuffleArray_Permutation in Hn.
  - intros [= <-]. split; [apply extends_refl|]. intros Hcons Hvals.
    split_and!; try done. by apply firstEmpty_None.
Qed.

Lemma tryNumbers_terminates solve row col numbers : ∀ g rnd,
  (∀ g rnd res, wfGrid size g → solve g rnd = Some res → earlierOutcome g res) →
  (∀ g' rnd, wfGrid size g' → emptyCount size g' < emptyCount size g → is_Some (solve g' rnd)) →
  wfGrid size g → row < size → col < size → cell g row col = Some 0 →
  is_Some (Earlier.tryNumbers solve size boxDims row col numbers g rnd).
Proof.
  induction numbers as [|num numbers IH]; intros g rnd Hout Hsolve Hwf Hr Hc H0.
  - cbn. eauto.
  - cbn [Earlier.tryNumbers].
    destruct (isValid g row col num size boxDims) eqn:Hv; [|by apply IH].
    assert (num ≠ 0) as Hn by (by eapply isValid_nonzero).
    destruct (Hsolve (setCell g row col num) rnd) as [[[b g1] rnd1] Hs].
    { by apply wfGrid_setCell. }
    { by apply emptyCount_setCell. }
    rewrite Hs. destruct b; [eauto|].
    pose proof (Hout _ _ _ (wfGrid_setCell _ _ _ _ _ Hwf) Hs) as Hg1.
    simpl in Hg1. subst g1. rewrite (setCell_restore size) by done. by apply IH.
Qed.

Lemma earlier_terminates fuel : ∀ g rnd,
  wfGrid size g → emptyCount size g < fuel →
  is_Some (Earlier.solveSudokuFuel fuel size boxDims g rnd).
Proof.
  induction fuel as [|fuel IH]; intros g rnd Hwf Hlt; [lia|].
  cbn [Earlier.solveSudokuFuel].
  destruct (Earlier.firstEmpty g size) as [[row col]|] eqn:Hf; [|eauto].
  apply firstEmpty_Some in Hf as (Hr & Hc & H0).
  destruct (shuffleArray _ rnd) as [numbers rnd1].
  apply tryNumbers_terminates; [|intros; apply IH; [done|lia]|done..].
  intros. by eapply earlier_outcome.
Qed.

Lemma tryNumbers_complete solve row col numbers : ∀ g rnd,
  (∀ g rnd res, wfGrid size g → solve g rnd = Some res → earlierOutcome g res) →
  (∀ g1 rnd1, wfGrid size g1 → emptyCount size g1 < emptyCount size g →
              is_Some (solve g1 rnd1)) →
  (∀ g1 rnd1 g', wfGrid size g1 → emptyCount size g1 < emptyCount size g →
                 completion size boxDims digitsOf g1 g' →
                 ∃ g2 rnd2, solve g1 rnd1 = Some (true, g2, rnd2)) →
  wfGrid size g → row < size → col < size → cell g row col = Some 0 →
  (∃ g' v, completion size boxDims digitsOf g g' ∧ cell g' row col = Some v ∧ v ∈ numbers) →
  ∃ g2 rnd2, Earlier.tryNumbers solve size boxDims row col numbers g rnd = Some (true, g2, rnd2).
Proof.
  induction numbers as [|num numbers IH];
    intros g rnd Hout Hterm Hfind Hwf Hr Hc H0 (g' & v & Hcompl & Hv & Hin).
  { by apply elem_of_nil in Hin. }
  cbn [Earlier.tryNumbers].
  destruct (isValid g row col num size boxDims) eqn:Hvalid.
  - assert (num ≠ 0) as Hn by (by eapply isValid_nonzero).
    assert (emptyCount size (setCell g row col num) < emptyCount size g) as Hless
      by (by apply emptyCount_setCell).
    destruct (Hterm (setCell g row col num) rnd) as [[[b g1] rnd1] Hs];
      [by apply wfGrid_setCell|done|].
    rewrite Hs. destruct b; [by eauto|].
    pose proof (Hout _ _ _ (wfGrid_setCell _ _ _ _ _ Hwf) Hs) as Hg1.
    simpl in Hg1. subst g1. rewrite (setCell_restore size) by done.
    apply IH; [done..|]. exists g', v. split_and!; [done..|].
    apply elem_of_cons in Hin as [->|Hin]; [|done].
    destruct (Hfind (setCell g row col num) rnd g') as (g2 & rnd2 & Hs');
      [by apply wfGrid_setCell|done|by apply completion_setCell|].
    congruence.
  - apply IH; [done..|]. exists g', v. split_and!; [done..|].
    apply elem_of_cons in Hin as [->|Hin]; [|done].
    assert (num ∈ getCandidates g row col size boxDims digitsOf) as Hcand
      by (by eapply (completion_candidate size boxDims digitsOf)).
    apply getCandidates_spec in Hcand as [Hval _]. congruence.
Qed.

Lemma earlier_complete fuel : ∀ g rnd g',
  wfGrid size g → emptyCount size g < fuel →
  completion size boxDims digitsOf g g' →
  ∃ g2 rnd2, Earlier.solveSudokuFuel fuel size boxDims g rnd = Some (true, g2, rnd2).
Proof.
  induction fuel as [|fuel IH]; intros g rnd g' Hwf Hlt Hcompl; [lia|].
  cbn [Earlier.solveSudokuFuel].
  destruct (Earlier.firstEmpty g size) as [[row col]|] eqn:Hf; [|by eauto].
  apply firstEmpty_Some in Hf as (Hr & Hc & H0).
  destruct (shuffleArray _ rnd) as [numbers rnd1] eqn:Hsh.
  pose proof Hcompl as (Hwf' & _ & Hvals & Hcomp & _).
  destruct (cell_is_Some size g' row col Hwf' Hr Hc) as [v Hv].
  apply tryNumbers_complete; [| | |done..| ].
  - intros. by eapply earlier_outcome.
  - intros g1 rnd2 Hwf1 Hlt1. apply earlier_terminates; [done|lia].
  - intros g1 rnd2 g'' Hwf1 Hlt1 Hc1. eapply IH; [done|lia|done].
  - exists g', v. split_and!; [done|done|].
    replace numbers with (shuffleArray digitsOf rnd).1 by (unfold getDigits; by rewrite Hsh).
    rewrite shuffleArray_Permutation.
    destruct (Hvals _ _ _ Hv) as [->|]; [|done]. by destruct (Hcomp row col Hr Hc).
Qed.

(** The outcome of the earlier search, as for the current one. *)
Lemma earlier_solveSudoku_outcome g rnd :
  wfGrid size g → consistent size boxDims g → valuesIn digitsOf g →
  ∃ b g' rnd', Earlier.solveSudoku g size boxDims rnd = Some (b, g', rnd') ∧
    (b = true ↔ ∃ g'', completion size boxDims digitsOf g g'') ∧
    if b then completion size boxDims digitsOf g g' else g' = g.
Proof.
  intros Hwf Hcons Hvals.
  assert (emptyCount size g < size * size + 1) as Hfuel
    by (pose proof (emptyCount_le size g); lia).
  destruct (earlier_terminates (size * size + 1) g rnd Hwf Hfuel) as [[[b g'] rnd'] Hs].
  exists b, g', rnd'. split; [done|].
  pose proof (earlier_outcome _ _ _ _ Hwf Hs) as Hout. simpl in Hout.
  assert (b = true → completion size boxDims digitsOf g g') as Hsucc.
  { intros ->. destruct Hout as [Hext Hrest].
    destruct (Hrest Hcons Hvals) as (? & ? & ? & ?). by split_and!. }
  split; [split|].
  - intros Hb. exists g'. by apply Hsucc.
  - intros [g'' Hcompl].
    destruct (earlier_complete (size * size + 1) g rnd g'' Hwf Hfuel Hcompl)
      as (g2 & rnd2 & Hs').
    unfold Earlier.solveSudoku in Hs. congruence.
  - destruct b; [by apply Hsucc|done].
Qed.
End earlier_search.

Lemma earlier_box size boxDims :
  Earlier.integral (Earlier.getBoxDimensions size) = Some boxDims → 0 < size →
  0 < rows boxDims ∧ 0 < cols boxDims ∧ rows boxDims * cols boxDims = size ∧
  rows boxDims ≤ cols boxDims.
Proof.
  unfold Earlier.getBoxDimensions. intros Hd Hpos.
  destruct (size =? 9) eqn:H9; [apply Nat.eqb_eq in H9; injection Hd as <-; simpl; lia|].
  destruct (size =? 6) eqn:H6; [apply Nat.eqb_eq in H6; injection Hd as <-; simpl; lia|].
  destruct (size =? 4) eqn:H4; [apply Nat.eqb_eq in H4; injection Hd as <-; simpl; lia|].
  unfold mathSqrt in Hd. destruct (_ * _ =? size) eqn:Hsq; [|done].
  apply Nat.eqb_eq in Hsq. injection Hd as <-. simpl. nia.
Qed.

Lemma zeroGrid_initial size :
  zeroGrid (replicate size (replicate size 0)) = replicate size (replicate size 0).
Proof. unfold zeroGrid. by rewrite fmap_replicate, length_replicate. Qed.

Lemma earlier_fillDiagonalBoxes g size boxDims rnd :
  Earlier.fillDiagonalBoxes g size boxDims rnd
  = fillDiagonalBoxes g size boxDims (getDigits size) rnd.
Proof. reflexivity. Qed.

(** The seed of the earlier generator and what its one pass returns. *)
Lemma earlier_generateSudoku_outcome size boxDims rnd :
  Earlier.integral (Earlier.getBoxDimensions size) = Some boxDims → 0 < size →
  ∃ seed rnd0 b g rnd',
    fillDiagonalBoxes (replicate size (replicate size 0)) size boxDims (getDigits size) rnd
      = (seed, rnd0) ∧
    Earlier.solveSudoku seed size boxDims rnd0 = Some (b, g, rnd') ∧
    Earlier.generateSudoku size rnd = Some (g, rnd') ∧
    wfGrid size seed ∧ consistent size boxDims seed ∧ valuesIn (getDigits size) seed ∧
    (b = true ↔ ∃ g'', completion size boxDims (getDigits size) seed g'') ∧
    if b then completion size boxDims (getDigits size) seed g else g = seed.
Proof.
  intros Hd Hpos. destruct (earlier_box _ _ Hd Hpos) as (Hr & Hc & Hcells & Hshape).
  unfold Earlier.generateSudoku. rewrite Hd, earlier_fillDiagonalBoxes.
  pose proof (fillDiagonalBoxes_seeded size boxDims (getDigits size) Hr Hc Hcells Hshape
    (getDigits_length size) (getDigits_NoDup size)
    (getDigits_nonzero size boxDims Hr Hc Hcells Hshape)
    (zeroGrid (replicate size (replicate size 0))) rnd
    (seeded_zeroGrid size boxDims (getDigits size) _ (wfGrid_initial size))) as Hs.
  rewrite zeroGrid_initial in Hs.
  destruct (fillDiagonalBoxes _ _ _ _ _) as [seed rnd0]. simpl in Hs.
  destruct Hs as (Hwf & Hcons & Hvals & _).
  destruct (earlier_solveSudoku_outcome size boxDims Hr Hc Hcells seed rnd0 Hwf Hcons Hvals)
    as (b & g & rnd' & Hs & Hiff & Hres).
  exists seed, rnd0, b, g, rnd'. rewrite Hs. by split_and!.
Qed.

(** The earlier search decides completability too: on a well-formed,
    consistent grid of digits it returns, with [true] and a valid completion
    of the grid when the grid has one, and with [false] and the grid as it
    was when it has none. *)
Theorem earlier_solveSudoku_decides size boxDims g rnd :
  0 < rows boxDims → 0 < cols boxDims → rows boxDims * cols boxDims = size →
  wfGrid size g → consistent size boxDims g → valuesIn (getDigits size) g →
  ∃ b g' rnd', Earlier.solveSudoku g size boxDims rnd = Some (b, g', rnd') ∧
    (b = true ↔ ∃ g'', completion size boxDims (getDigits size) g g'') ∧
    if b then completion size boxDims (getDigits size) g g' else g' = g.
Proof. intros. by apply earlier_solveSudoku_outcome. Qed.

Lemma earlier_solveSudoku_decides_witness :
  let g : Grid := [[1; 2; 0; 0]; [3; 4; 0; 0]; [0; 0; 3; 1]; [0; 0; 4; 2]] in
  ∃ b g' rnd', Earlier.solveSudoku g 4 (mkBox 2 2) (replay [0]) = Some (b, g', rnd') ∧
    (b = true ↔ ∃ g'', completion 4 (mkBox 2 2) (getDigits 4) g g'') ∧
    if b then completion 4 (mkBox 2 2) (getDigits 4) g g' else g' = g.
Proof.
  apply (earlier_solveSudoku_decides 4 (mkBox 2 2)
           [[1; 2; 0; 0]; [3; 4; 0; 0]; [0; 0; 3; 1]; [0; 0; 4; 2]] (replay [0])).
  - simpl. lia.
  - simpl. lia.
  - reflexivity.
  - apply (bool_decide_unpack _). vm_compute. exact I.
  - apply consistentb_spec. vm_compute. reflexivity.
  - apply valuesInb_spec. vm_compute. reflexivity.
Defined.

(** The earlier [generateSudoku] returns whatever its one pass left.  For
    every size with boxes of whole sides (4, 6, 9 and the perfect squares)
    it returns a grid: a valid solution that extends the seeded diagonal
    boxes when these can be completed, and otherwise the seeded grid itself,
    which still has empty cells. *)
Theorem earlier_generateSudoku_result size boxDims rnd :
  Earlier.integral (Earlier.getBoxDimensions size) = Some boxDims → 0 < size →
  ∃ seed rnd0 g rnd',
    fillDiagonalBoxes (replicate size (replicate size 0)) size boxDims (getDigits size) rnd
      = (seed, rnd0) ∧
    Earlier.generateSudoku size rnd = Some (g, rnd') ∧
    ((∃ g'', completion size boxDims (getDigits size) seed g'') →
     validSolution size boxDims g ∧ extends seed g) ∧
    (¬ (∃ g'', completion size boxDims (getDigits size) seed g'') →
     g = seed ∧ ¬ complete size g).
Proof.
  intros Hd Hpos. destruct (earlier_box _ _ Hd Hpos) as (Hr & Hc & Hcells & Hshape).
  destruct (earlier_generateSudoku_outcome size boxDims rnd Hd Hpos)
    as (seed & rnd0 & b & g & rnd' & Hseed & _ & Hgen & Hwf & Hcons & Hvals & Hiff & Hres).
  exists seed, rnd0, g, rnd'. split_and!; [done|done|..].
  - intros Hex. apply Hiff in Hex as ->.
    destruct Hres as (Hwf' & Hcons' & Hvals' & Hcomp' & Hext). split; [|done].
    by apply solved_validSolution.
  - intros Hno. destruct b; [destruct Hno; apply Hiff; done|]. subst g. split; [done|].
    intros Hcomp. apply Hno. exists seed. split_and!; try done. apply extends_refl.
Qed.

Lemma earlier_generateSudoku_result_witness :
  ∃ seed rnd0 g rnd',
    fillDiagonalBoxes (replicate 16 (replicate 16 0)) 16 (mkBox 4 4) (getDigits 16) (replay [])
      = (seed, rnd0) ∧
    Earlier.generateSudoku 16 (replay []) = Some (g, rnd') ∧
    ((∃ g'', completion 16 (mkBox 4 4) (getDigits 16) seed g'') →
     validSolution 16 (mkBox 4 4) g ∧ extends seed g) ∧
    (¬ (∃ g'', completion 16 (mkBox 4 4) (getDigits 16) seed g'') →
     g = seed ∧ ¬ complete 16 g).
Proof.
  apply (earlier_generateSudoku_result 16 (mkBox 4 4) (replay [])).
  - vm_compute. reflexivity.
  - lia.
Defined.

(** On a supported size the earlier generator returns a valid solution
    exactly when the first pass of the current generator succeeds on the
    same random source; when that pass fails, the earlier generator returns
    the grid the pass leaves: the seeded diagonal boxes and nothing else. *)
Theorem earlier_generateSudoku_first_attempt size rnd :
  size ∈ VALID_SIZES →
  ∃ boxDims g rnd1 b g1 rnd2,
    getBoxDimensions size = Ok boxDims ∧
    Earlier.generateSudoku size rnd = Some (g, rnd1) ∧
    attempt (replicate size (replicate size 0)) size boxDims (getDigits size) rnd
      = Some (b, g1, rnd2) ∧
    if b then validSolution size boxDims g ∧ validSolution size boxDims g1
    else g = g1 ∧ ¬ complete size g.
Proof.
  intros Hsize.
  destruct (supported_size size Hsize) as (boxDims & Hbox & Hr & Hc & Hcells & Hshape & Hsmall).
  assert (Earlier.integral (Earlier.getBoxDimensions size) = Some boxDims
          ∧ 0 < size) as [Hd Hpos].
  { apply VALID_SIZES_cases in Hsize as [-> | [-> | ->]];
      injection Hbox as <-; (split; [reflexivity|lia]). }
  destruct (earlier_generateSudoku_outcome size boxDims rnd Hd Hpos)
    as (seed & rnd0 & b & g & rnd' & Hseed & _ & Hgen & Hwf & Hcons & Hvals & Hiff & Hres).
  assert (Z.of_nat (length (getDigits size)) < MAX_SAFE_INTEGER)%Z as Hsmall'
    by by rewrite getDigits_length.
  destruct (solveSudoku_outcome size boxDims (getDigits size) seed rnd0 Hr Hc Hcells Hsmall'
              Hwf Hcons Hvals) as (b1 & g1 & rnd2 & Hs1 & Hiff1 & Hres1).
  exists boxDims, g, rnd', b1, g1, rnd2. split_and!; [done|done|..].
  - unfold attempt. by rewrite zeroGrid_initial, Hseed.
  - assert (b = b1) as <-.
    { destruct b, b1; [done| | |done].
      - assert (false = true) as Hf by (apply Hiff1, Hiff; done). done.
      - assert (false = true) as Hf by (apply Hiff, Hiff1; done). done. }
    destruct b.
    + destruct Hres as (? & ? & ? & ? & _), Hres1 as (? & ? & ? & ? & _).
      split; by apply solved_validSolution.
    + subst g g1. split; [done|]. intros Hcomp.
      assert (false = true) as Hf; [|done].
      apply Hiff. exists seed. split_and!; try done. apply extends_refl.
Qed.

Lemma earlier_generateSudoku_first_attempt_witness :
  ∃ boxDims g rnd1 b g1 rnd2,
    getBoxDimensions 4 = Ok boxDims ∧
    Earlier.generateSudoku 4 (replay [0; 0; 1; 1; 0; 1]) = Some (g, rnd1) ∧
    attempt (replicate 4 (replicate 4 0)) 4 boxDims (getDigits 4) (replay [0; 0; 1; 1; 0; 1])
      = Some (b, g1, rnd2) ∧
    if b then validSolution 4 boxDims g ∧ validSolution 4 boxDims g1
    else g = g1 ∧ ¬ complete 4 g.
Proof.
  apply (earlier_generateSudoku_first_attempt 4 (replay [0; 0; 1; 1; 0; 1])).
  apply (bool_decide_unpack _). vm_compute. exact I.
Defined.
